(** * Pose estimation of a walking person: the selection pipeline of
    [modules/pose_estimation.py] and the clustering of [modules/cluster.py],
    embedded function by function.

    Conventions of the embedding.
    - A float64 is a [float]: an exact rational, one of the two infinities,
      or NaN.  Rounding is not modelled.
    - A 1-D array is a list, a 2-D array a list of rows.
    - A Python exception (KeyError, IndexError, ValueError) is [None].
    - A dict is a [gmap]; node numbers and labels are [nat]. *)

From Stdlib Require Import QArith Qabs.

From stdpp Require Import gmap list sorting.

(** * Part I: the program *)

(** ** Numbers *)

Inductive float : Type :=
  | Fin (q : Q)
  | PInf
  | NInf
  | NaN.

Definition fzero : float := Fin 0%Q.

Definition fone : float := Fin 1%Q.

(** [np.isnan]. *)
Definition isnan (x : float) : bool :=
  match x with NaN => true | _ => false end.

Definition is_finite (x : float) : bool :=
  match x with Fin _ => true | _ => false end.

(** Truth value of a float ([bool(x)]): everything but zero, NaN included. *)
Definition truthy (x : float) : bool :=
  match x with Fin q => negb (Qeq_bool q 0%Q) | _ => true end.

Definition fopp (x : float) : float :=
  match x with
  | Fin q => Fin (- q)%Q
  | PInf => NInf
  | NInf => PInf
  | NaN => NaN
  end.

Definition fadd (x y : float) : float :=
  match x, y with
  | NaN, _ | _, NaN => NaN
  | Fin a, Fin b => Fin (a + b)%Q
  | PInf, NInf | NInf, PInf => NaN
  | PInf, _ | _, PInf => PInf
  | NInf, _ | _, NInf => NInf
  end.

Definition fsub (x y : float) : float := fadd x (fopp y).

Definition fabs (x : float) : float :=
  match x with
  | Fin q => Fin (Qabs q)
  | PInf | NInf => PInf
  | NaN => NaN
  end.

Definition fmul (x y : float) : float :=
  match x, y with
  | NaN, _ | _, NaN => NaN
  | Fin a, Fin b => Fin (a * b)%Q
  | Fin a, PInf | PInf, Fin a =>
      match (a ?= 0)%Q with Gt => PInf | Lt => NInf | Eq => NaN end
  | Fin a, NInf | NInf, Fin a =>
      match (a ?= 0)%Q with Gt => NInf | Lt => PInf | Eq => NaN end
  | PInf, PInf | NInf, NInf => PInf
  | PInf, NInf | NInf, PInf => NInf
  end.

(** [x <= y], [x < y] and [x == y] on floats: false as soon as one side is
    NaN. *)
Definition fle (x y : float) : bool :=
  match x, y with
  | NaN, _ | _, NaN => false
  | NInf, _ | _, PInf => true
  | Fin a, Fin b => Qle_bool a b
  | _, _ => false
  end.

Definition feq (x y : float) : bool :=
  match x, y with
  | Fin a, Fin b => Qeq_bool a b
  | PInf, PInf | NInf, NInf => true
  | _, _ => false
  end.

Definition flt (x y : float) : bool := fle x y && negb (feq x y).

(** A Python [bool] used as a number: [True] is 1 and [False] is 0. *)
Definition of_bool (b : bool) : float := if b then fone else fzero.

(** A whole number as a float. *)
Definition of_Z (z : Z) : float := Fin (inject_Z z).

(** ** Arrays and loops *)

Abbreviation matrix A := (list (list A)).

(** [m[i, j]]; [None] is the IndexError. *)
Definition get2 {A} (m : matrix A) (i j : nat) : option A :=
  row ← m !! i; row !! j.

(** [m[i, j] = v] on a position that exists. *)
Definition set2 {A} (m : matrix A) (i j : nat) (v : A) : matrix A :=
  match m !! i with
  | Some row => <[i := <[j := v]> row]> m
  | None => m
  end.

(** [np.zeros(m.shape)]. *)
Definition zeros_like (m : matrix float) : matrix float :=
  (fun row : list float => (fun _ => fzero) <$> row) <$> m.

(** [n_rows, n_cols = m.shape]. *)
Definition n_cols {A} (m : matrix A) : nat :=
  match m with
  | [] => 0
  | row :: _ => length row
  end.

(** A [for] loop over [xs] that threads a state and stops at the first
    exception. *)
Fixpoint for_each {S X} (xs : list X) (s : S) (body : S -> X -> option S)
  : option S :=
  match xs with
  | [] => Some s
  | x :: xs' => s' ← body s x; for_each xs' s' body
  end.

(** [range(n)]. *)
Definition range (n : nat) : list nat := seq 0 n.

(** ** filter_by_path *)

(** [part_connections[j]] is a KeyError when [j] is no key. *)
Definition filter_by_path (input_matrix : matrix float)
    (path_matrix : matrix nat) (part_connections : gmap nat (gmap nat float))
  : option (matrix float) :=
  let filtered_matrix := zeros_like input_matrix in
  let n_paths := length path_matrix in
  let n_path_nodes := n_cols path_matrix in
  for_each (range n_paths) filtered_matrix (fun filtered_matrix i =>
    for_each (range n_path_nodes) filtered_matrix (fun filtered_matrix j =>
      for_each (range n_path_nodes) filtered_matrix (fun filtered_matrix k =>
        conn ← part_connections !! j;
        if bool_decide (is_Some (conn !! k)) then
          a ← get2 path_matrix i j;
          b ← get2 path_matrix i k;
          v ← get2 input_matrix a b;
          Some (set2 filtered_matrix a b v)
        else Some filtered_matrix))).

(** The body of the innermost loop at the indices [(i, j, k)]. *)
Definition copy_link (input_matrix : matrix float) (path_matrix : matrix nat)
    (part_connections : gmap nat (gmap nat float))
    (filtered_matrix : matrix float) (ijk : nat * nat * nat)
  : option (matrix float) :=
  let '(i, j, k) := ijk in
  conn ← part_connections !! j;
  if bool_decide (is_Some (conn !! k)) then
    a ← get2 path_matrix i j;
    b ← get2 path_matrix i k;
    v ← get2 input_matrix a b;
    Some (set2 filtered_matrix a b v)
  else Some filtered_matrix.

(** The index triples in the order the three nested loops visit them. *)
Definition loop_indices (n_paths n_path_nodes : nat) : list (nat * nat * nat) :=
  i ← range n_paths; j ← range n_path_nodes; k ← range n_path_nodes;
  [(i, j, k)].

(** The positions [(a, b)] that the loop body writes at [(i, j, k)]. *)
Definition writes (path_matrix : matrix nat)
    (part_connections : gmap nat (gmap nat float))
    (ijk : nat * nat * nat) (x y : nat) : Prop :=
  let '(i, j, k) := ijk in
  ∃ conn, part_connections !! j = Some conn ∧ is_Some (conn !! k) ∧
          get2 path_matrix i j = Some x ∧ get2 path_matrix i k = Some y.

Definition shape {A} (m : matrix A) : list nat := length <$> m.

(** Nodes [x] and [y] lie on a common foot path through an allowed pair of
    labels. *)
Definition on_common_path (path_matrix : matrix nat)
    (part_connections : gmap nat (gmap nat float)) (x y : nat) : Prop :=
  ∃ r a b conn,
    get2 path_matrix r a = Some x ∧ get2 path_matrix r b = Some y ∧
    part_connections !! a = Some conn ∧ is_Some (conn !! b).

(** Every row has the width of the first one, as in an ndarray. *)
Definition rectangular {A} (m : matrix A) : Prop :=
  Forall (fun row => length row = n_cols m) m.

(** A 3x3 score matrix with every link scored, one foot path [0 -> 1] and
    the part connections [{0: {1: 10}, 1: {}}]. *)
Definition example_scores : matrix float :=
  [[Fin 1; Fin 2; Fin 3]; [Fin 4; Fin 5; Fin 6]; [Fin 7; Fin 8; Fin 9]].

Definition example_paths : matrix nat := [[0; 1]].

Definition example_connections : gmap nat (gmap nat float) :=
  {[ 0 := {[ 1 := Fin 10 ]}; 1 := ∅ ]}.

(** ** Sphere voting: inside_spheres, inside_radii, select_best_feet *)

(** [a | b] on 1-D boolean arrays, with NumPy's broadcasting of a length-1
    operand; other length mismatches raise ValueError. *)
Definition np_or (a b : list bool) : option (list bool) :=
  if bool_decide (length a = length b) then Some (zip_with orb a b)
  else match a, b with
       | [x], _ => Some (orb x <$> b)
       | _, [y] => Some ((fun x => orb x y) <$> a)
       | _, _ => None
       end.

Definition inside_spheres (dist_matrix : matrix float) (point_nums : list nat)
    (r : float) : option (list bool) :=
  let n_points := length dist_matrix in
  let in_spheres := replicate n_points false in
  for_each point_nums in_spheres (fun in_spheres i =>
    distances ← dist_matrix !! i;
    let in_current_sphere := (fun d => fle d r) <$> distances in
    np_or in_spheres in_current_sphere).

Definition inside_radii (dist_matrix : matrix float) (path_matrix : matrix nat)
    (radii : list float) : option (list (list (list bool))) :=
  mapM (fun path => mapM (fun r => inside_spheres dist_matrix path r) radii)
       path_matrix.

(** [itertools.combinations(l, 2)], in its order. *)
Fixpoint combinations2 (l : list nat) : list (nat * nat) :=
  match l with
  | [] => []
  | x :: xs => (pair x <$> xs) ++ combinations2 xs
  end.

(** The entries of [l] at the [True] positions of [mask]. *)
Fixpoint select {A} (mask : list bool) (l : list A) : list A :=
  match mask, l with
  | b :: mask', x :: l' => if b then x :: select mask' l' else select mask' l'
  | _, _ => []
  end.

(** [m[mask, :]] and [m[:, mask]]: the mask must be as long as the axis. *)
Definition mask_rows {A} (mask : list bool) (m : matrix A)
  : option (matrix A) :=
  if bool_decide (length mask = length m) then Some (select mask m) else None.

Definition mask_cols {A} (mask : list bool) (width : nat) (m : matrix A)
  : option (matrix A) :=
  if bool_decide (length mask = width) then Some (select mask <$> m) else None.

Definition fsum (l : list float) : float := foldr fadd fzero l.

(** [np.sum] of a 2-D array. *)
Definition np_sum (m : matrix float) : float := fsum (concat m).

(** Python's [max] of a sequence: the first of the largest; ValueError on
    an empty one. *)
Definition py_max (l : list float) : option float :=
  match l with
  | [] => None
  | x :: xs => Some (foldl (fun m v => if flt m v then v else m) x xs)
  end.

(** [np.argmax] of whole-number counts: the first index of the largest. *)
Fixpoint argmax_from (i best_i best : nat) (l : list nat) : nat :=
  match l with
  | [] => best_i
  | v :: l' =>
      if decide (best < v) then argmax_from (S i) i v l'
      else argmax_from (S i) best_i best l'
  end.

Definition np_argmax (l : list nat) : option nat :=
  match l with
  | [] => None
  | v :: l' => Some (argmax_from 1 0 v l')
  end.

(** [enumerate(l)]. *)
Definition enumerate {A} (l : list A) : list (nat * A) :=
  zip (seq 0 (length l)) l.

(** The sum of the scores among the points inside the spheres of either
    path of [combo], at the radius number [i]. *)
Definition combo_score (in_spheres_list : list (list (list bool)))
    (score_matrix : matrix float) (i : nat) (combo : nat * nat)
  : option float :=
  in_spheres_1 ← (in_spheres_list !! combo.1) ≫= (.!! i);
  in_spheres_2 ← (in_spheres_list !! combo.2) ≫= (.!! i);
  in_spheres ← np_or in_spheres_1 in_spheres_2;
  temp ← mask_rows in_spheres score_matrix;
  score_subset ← mask_cols in_spheres (n_cols score_matrix) temp;
  Some (np_sum score_subset).

(** The body of the loop over the radii: the scores of all combos at the
    radius number [i], then one vote for every combo with the largest score.
    The votes are whole numbers; they are kept as [nat]. *)
Definition radius_round (in_spheres_list : list (list (list bool)))
    (score_matrix : matrix float) (combos : list (nat * nat))
    (state : list nat * list float) (i : nat)
  : option (list nat * list float) :=
  let '(votes, combo_scores) := state in
  combo_scores ←
    for_each (enumerate combos) combo_scores
      (fun combo_scores '(ii, combo) =>
         score ← combo_score in_spheres_list score_matrix i combo;
         Some (<[ii := score]> combo_scores));
  max_score ← py_max combo_scores;
  let radius_winners := (fun s => feq s max_score) <$> combo_scores in
  let votes :=
    zip_with (fun v (w : bool) => v + (if w then 1 else 0))
             votes radius_winners in
  Some (votes, combo_scores).

Definition select_best_feet (dist_matrix score_matrix : matrix float)
    (path_matrix : matrix nat) (radii : list float) : option (nat * nat) :=
  let n_paths := length path_matrix in
  let n_radii := length radii in
  in_spheres_list ← inside_radii dist_matrix path_matrix radii;
  let combos := combinations2 (range n_paths) in
  let n_combos := length combos in
  let votes := replicate n_combos 0 in
  let combo_scores := replicate n_combos fzero in
  state ← for_each (range n_radii) (votes, combo_scores)
            (radius_round in_spheres_list score_matrix combos);
  winning_combo ← np_argmax state.1;
  combos !! winning_combo.




(** *** The sphere regions, in the words of the specification *)

(** Point [x] lies within [r] of some point of the path. *)
Definition in_spheres_of (D : matrix float) (path : list nat) (r : float)
    (x : nat) : bool :=
  existsb (fun j => match get2 D j x with
                    | Some d => fle d r
                    | None => false
                    end) path.

(** Point [x] lies in the spheres of the path in row [c.1] or of the one in
    row [c.2]. *)
Definition in_region (D : matrix float) (P : matrix nat) (r : float)
    (c : nat * nat) (x : nat) : bool :=
  in_spheres_of D (default [] (P !! c.1)) r x
  || in_spheres_of D (default [] (P !! c.2)) r x.

(** The sum of the scores [S[x, y]] over the points [x] and [y] of the
    region. *)
Definition pair_score (D S : matrix float) (P : matrix nat) (r : float)
    (c : nat * nat) : float :=
  fsum (x ← range (length S);
        if in_region D P r c x
        then y ← range (length S);
             if in_region D P r c y then option_list (get2 S x y) else []
        else []).

(** The pair [c] has a largest sum at the radius [r]. *)
Definition wins (D S : matrix float) (P : matrix nat) (r : float)
    (c : nat * nat) : bool :=
  forallb (fun c' => fle (pair_score D S P r c') (pair_score D S P r c))
          (combinations2 (range (length P))).

(** The number of radii at which the pair [c] has a largest sum. *)
Definition total_votes (D S : matrix float) (P : matrix nat)
    (radii : list float) (c : nat * nat) : nat :=
  length (filter (fun r => wins D S P r c = true) radii).

(** A head (point 0) and three feet (points 1 to 3): the feet 1 and 2 are
    close to each other, the foot 3 is far from every other point. *)
Definition example_dists : matrix float :=
  (fun row : list Z => of_Z <$> row) <$>
  [[0; 10; 10; 20]; [10; 0; 3; 12]; [10; 3; 0; 12]; [20; 12; 12; 0]]%Z.

Definition example_foot_scores : matrix float :=
  (fun row : list Z => of_Z <$> row) <$>
  [[0; 3; 2; 4]; [0; 0; 0; 0]; [0; 0; 0; 0]; [0; 0; 0; 0]]%Z.

Definition example_foot_paths : matrix nat := [[0; 1]; [0; 2]; [0; 3]].

Definition example_radii : list float := [of_Z 5; of_Z 10; of_Z 25].

(** ** paths_to_foot *)

(** [max(labels)] on integers; ValueError on an empty sequence. *)
Definition max_of (labels : list nat) : option nat :=
  match labels with
  | [] => None
  | x :: xs => Some (foldl Nat.max x xs)
  end.

(** [np.where(labels == v)[0]]. *)
Definition np_where_eq (labels : list nat) (v : nat) : list nat :=
  filter (fun i => labels !! i = Some v) (range (length labels)).

(** [row[:] = values] on a row of the given width: the values fill the row
    when there are as many, a single value is broadcast, and any other
    number of values is a ValueError. *)
Definition assign_row {A} (width : nat) (values : list A) : option (list A) :=
  if bool_decide (length values = width) then Some values
  else match values with
       | [x] => Some (replicate width x)
       | _ => None
       end.

(** [m.astype(int)]; an entry still NaN ([None]) has no meaningful integer,
    and none is left once every row has been assigned. *)
Definition astype_int (m : matrix (option nat)) : matrix nat :=
  (fun row : list (option nat) => default 0 <$> row) <$> m.

Section paths_to_foot.
(** [gr.trace_path] of modules/graphs.py, which is not among the sources:
    the path to a node along the predecessors, or an exception. *)
Variable trace_path : gmap nat (option nat) -> nat -> option (list nat).

(** [prev[u]] is [None] where the dictionary holds NaN. *)
Definition paths_to_foot (prev : gmap nat (option nat)) (dist : gmap nat float)
    (labels : list nat) : option (matrix nat * list float) :=
  max_label ← max_of labels;
  let foot_index := np_where_eq labels max_label in
  let n_feet := length foot_index in
  let path_matrix : matrix (option nat) :=
    replicate n_feet (replicate (max_label + 1) None) in
  let path_dist := replicate n_feet NaN in
  state ← for_each (enumerate foot_index) (path_matrix, path_dist)
    (fun '(path_matrix, path_dist) '(i, foot) =>
       path ← trace_path prev foot;
       row ← assign_row (max_label + 1) (Some <$> path);
       let path_matrix := <[i := row]> path_matrix in
       d ← dist !! foot;
       Some (path_matrix, <[i := d]> path_dist));
  Some (astype_int state.1, state.2).

(** The row and the distance of one foot, in the words of the
    specification: its traced path and [dist[foot]]. *)
Definition foot_row (prev : gmap nat (option nat)) (dist : gmap nat float)
    (max_label foot : nat) : option (list nat * float) :=
  path ← trace_path prev foot;
  row ← assign_row (max_label + 1) path;
  d ← dist !! foot;
  Some (row, d).
End paths_to_foot.

(** Modelled from the spec: [gr.trace_path] of modules/graphs.py, which is
    not among the sources.  "Returns the index sequence from the source to
    target, reversing the predecessor chain; fails with PATH_BROKEN if any
    node in the chain has no predecessor and is not a source."  The sources
    are given by [is_source]; a chain has at most as many nodes as [prev]
    has keys. *)
Fixpoint trace_back (is_source : nat -> bool) (prev : gmap nat (option nat))
    (fuel node : nat) (path : list nat) : option (list nat) :=
  match fuel with
  | 0 => None
  | S fuel' =>
      match prev !! node with
      | Some (Some u) => trace_back is_source prev fuel' u (node :: path)
      | Some None => if is_source node then Some (node :: path) else None
      | None => None
      end
  end.

Definition trace_path_of_spec (is_source : nat -> bool)
    (prev : gmap nat (option nat)) (target : nat) : option (list nat) :=
  trace_back is_source prev (size prev) target [].

(** The sources of the shortest paths are the nodes with label 0. *)
Definition has_label_0 (labels : list nat) (node : nat) : bool :=
  bool_decide (labels !! node = Some 0).

(** The example of the docstring of paths_to_foot. *)
Definition docstring_prev : gmap nat (option nat) :=
  {[ 0 := None; 1 := Some 0; 2 := Some 1; 3 := Some 2; 4 := Some 3;
     5 := Some 3 ]}.

Definition docstring_dist : gmap nat float :=
  {[ 0 := of_Z 0; 1 := of_Z 0; 2 := of_Z 20; 3 := of_Z 5; 4 := of_Z 11;
     5 := of_Z 10 ]}.

Definition docstring_labels : list nat := [0; 1; 2; 3; 4; 4].

(** A head and two feet; the second foot (node 2) was never reached: it has
    no predecessor and is no source. *)
Definition broken_prev : gmap nat (option nat) :=
  {[ 0 := None; 1 := Some 0; 2 := None ]}.

Definition broken_dist : gmap nat float :=
  {[ 0 := of_Z 0; 1 := of_Z 4; 2 := PInf ]}.

Definition broken_labels : list nat := [0; 1; 1].

(** ** foot_to_pop, with the arrays in a store *)

(** ndarrays of floats live in a store; an array is known by its location.
    A basic index such as [a[i, :]] is a view: it names the array and the
    row, and reads whatever the row holds when it is used.  An index by an
    integer array such as [a[path, :]] is a copy in a fresh array. *)
Abbreviation loc := nat.

Abbreviation store := (gmap loc (matrix float)).

(** A program on the store: it raises ([None]) or returns a value and the
    new store. *)
Definition prog (A : Type) : Type := store -> option (A * store).

Definition ret {A} (x : A) : prog A := fun h => Some (x, h).

Definition bind {A B} (m : prog A) (k : A -> prog B) : prog B :=
  fun h => match m h with
           | Some (x, h') => k x h'
           | None => None
           end.

(** A pure computation that may raise. *)
Definition lift {A} (o : option A) : prog A :=
  fun h => match o with
           | Some x => Some (x, h)
           | None => None
           end.

Declare Scope prog_scope.

Delimit Scope prog_scope with prog.

Notation "'do' x <- m ; k" := (bind m (fun x => k))
  (at level 10, x pattern, m at level 100, k at level 200) : prog_scope.

(** A new array with the given contents. *)
Definition alloc (contents : matrix float) : prog loc :=
  fun h => let l := fresh (dom h) in Some (l, <[l := contents]> h).

(** [a[idx, :]] for a list of row numbers: the rows, copied. *)
Definition take_rows (a : loc) (idx : list nat) : prog (matrix float) :=
  fun h => contents ← h !! a;
           rows ← mapM (fun i => contents !! i) idx;
           Some (rows, h).

(** [a[i, :]]: a view of row [i]. *)
Definition view_row (a : loc) (i : nat) : prog (loc * nat) :=
  fun h => contents ← h !! a;
           if decide (i < length contents) then Some ((a, i), h) else None.

(** [a[i, :] = v] for a view [v]: the row that [v] names is read now and
    written into row [i] of [a]. *)
Definition write_row (a : loc) (i : nat) (v : loc * nat) : prog unit :=
  fun h => source ← h !! v.1;
           values ← source !! v.2;
           contents ← h !! a;
           old ← contents !! i;
           row ← assign_row (length old) values;
           Some ((), <[a := <[i := row]> contents]> h).

(** [np.argmin]: the first index of the least entry; when an entry is NaN,
    the index of the first NaN; ValueError on an empty array. *)
Fixpoint argmin_from (i best_i : nat) (best : float) (l : list float) : nat :=
  match l with
  | [] => best_i
  | v :: l' =>
      if isnan best then best_i
      else if isnan v || flt v best then argmin_from (S i) i v l'
      else argmin_from (S i) best_i best l'
  end.

Definition np_argmin (l : list float) : option nat :=
  match l with
  | [] => None
  | v :: l' => Some (argmin_from 1 0 v l')
  end.

Open Scope prog_scope.

Definition foot_to_pop (population : loc) (path_matrix : matrix nat)
    (path_dist : list float) (foot_num_1 foot_num_2 : nat)
  : prog (loc * loc) :=
  do path_1 <- lift (path_matrix !! foot_num_1);
  do path_2 <- lift (path_matrix !! foot_num_2);
  do rows_1 <- take_rows population path_1;
  do pop_1 <- alloc rows_1;
  do rows_2 <- take_rows population path_2;
  do pop_2 <- alloc rows_2;
  (* Select the head along the minimum shortest path *)
  do k <- lift (np_argmin path_dist);
  do min_path <- lift (path_matrix !! k);
  do node <- lift (min_path !! 0);
  do head_pos <- view_row population node;
  do _ <- write_row pop_1 0 head_pos;
  do _ <- write_row pop_2 0 head_pos;
  ret (pop_1, pop_2).

Close Scope prog_scope.

(** [k] is the first index of the least entry of [l]. *)
Definition first_min (l : list float) (k : nat) : Prop :=
  ∃ v, l !! k = Some v ∧ isnan v = false ∧
       (∀ j w, l !! j = Some w → fle v w = true) ∧
       (∀ j w, j < k → l !! j = Some w → flt v w = true).

(** Two heads (points 0 and 1) and three feet (points 2 to 4); the path to
    the foot 3 is the shortest one, and it starts at the head 1. *)
Definition example_population : matrix float :=
  (fun row : list Z => of_Z <$> row) <$>
  [[0; 0; 0]; [1; 0; 0]; [0; 0; 10]; [1; 0; 11]; [1; 0; 12]]%Z.

Definition example_store : store := {[ 7 := example_population ]}.

Definition example_head_paths : matrix nat := [[0; 2]; [1; 3]; [1; 4]].

Definition example_path_dist : list float := [of_Z 5; of_Z 1; of_Z 3].

(** ** get_score_matrix *)

(** Graphs on nodes and adjacency lists on labels: [g[u][v]] is a weight. *)
Abbreviation graph := (gmap nat (gmap nat float)).

(** [arr.size]. *)
Definition size2 {A} (m : matrix A) : nat := length (concat m).

(** [np.vectorize(f)(a, b)] on two arrays of one shape: [f] is called on
    Python floats, entry by entry, and an exception of [f] is an exception
    of the call.  Arrays without entries are refused (ValueError: size 0
    inputs).  Broadcasting of arrays of different shapes is not modelled:
    such a call is [None]. *)
Definition np_vectorize (f : float -> float -> option float)
    (a b : matrix float) : option (matrix float) :=
  if bool_decide (size2 a = 0 ∨ size2 b = 0) then None
  else if bool_decide (shape a = shape b) then
    mapM (fun rows : list float * list float =>
            mapM (fun xy : float * float => f xy.1 xy.2)
                 (zip rows.1 rows.2))
         (zip a b)
  else None.

(** [m[np.isnan(m)] = 0]. *)
Definition nan_to_zero (m : matrix float) : matrix float :=
  (fun row : list float => (fun x => if isnan x then fzero else x) <$> row)
  <$> m.

Section get_score_matrix.
(** The helpers that are not among the sources: scipy's [cdist], and
    [gen.iterable_to_dict], [gr.labelled_nodes_to_graph] and
    [gr.adj_list_to_matrix] of the modules general and graphs. *)
Variable cdist : matrix float -> matrix float -> option (matrix float).
Variable iterable_to_dict : list nat -> gmap nat nat.
Variable labelled_nodes_to_graph : gmap nat nat -> graph -> option graph.
Variable adj_list_to_matrix : graph -> option (matrix float).

(** The matrix of expected distances that get_score_matrix builds. *)
Definition expected_dist_matrix (labels : list nat) (label_adj_list : graph)
  : option (matrix float) :=
  let label_dict := iterable_to_dict labels in
  expected_adj_list ← labelled_nodes_to_graph label_dict label_adj_list;
  adj_list_to_matrix expected_adj_list.

Definition get_score_matrix (population : matrix float) (labels : list nat)
    (label_adj_list : graph) (score_func : float -> float -> option float)
  : option (matrix float * matrix float) :=
  (* Matrix of measured distances between all n points *)
  dist_matrix ← cdist population population;
  expected_dist_matrix ← expected_dist_matrix labels label_adj_list;
  (* Score is high if measured distance is close to expected distance *)
  score_matrix ← np_vectorize score_func dist_matrix expected_dist_matrix;
  let score_matrix := nan_to_zero score_matrix in
  Some (score_matrix, dist_matrix).
End get_score_matrix.

(** Modelled from the spec: the three helpers behind the matrix of expected
    distances, which are not among the sources.  "score(i,j) = s(measured,
    expected_dist(label(i),label(j))) if (label(i),label(j)) is an allowed
    part connection": node [i] is joined to node [j] with the expected
    distance of their labels, and the matrix holds NaN for a pair that is
    not joined. *)
Definition iterable_to_dict_of_spec (labels : list nat) : gmap nat nat :=
  list_to_map (enumerate labels).

Definition labelled_nodes_to_graph_of_spec (label_dict : gmap nat nat)
    (label_adj_list : graph) : option graph :=
  Some ((fun a : nat =>
           omap (fun b : nat => (label_adj_list !! a) ≫= (.!! b)) label_dict)
        <$> label_dict).

Definition adj_list_to_matrix_of_spec (expected_adj_list : graph)
  : option (matrix float) :=
  let n := size expected_adj_list in
  Some ((fun i : nat =>
           (fun j : nat => default NaN ((expected_adj_list !! i) ≫= (.!! j)))
           <$> range n)
        <$> range n).

(** scipy's [cdist] for points that differ in one coordinate at most, as
    those of the examples do: their Euclidean distance is the absolute
    difference in that coordinate. *)
Definition cdist_on_axis (xa xb : matrix float) : option (matrix float) :=
  Some ((fun p : list float =>
           (fun q : list float =>
              fsum (zip_with (fun a b => fabs (fsub a b)) p q)) <$> xb)
        <$> xa).

(** Division of NumPy scalars: a division by zero gives an infinity or
    NaN. *)
Definition fdiv_np (x y : float) : float :=
  match x, y with
  | NaN, _ | _, NaN => NaN
  | Fin a, Fin b =>
      if Qeq_bool b 0 then
        match (a ?= 0)%Q with Gt => PInf | Lt => NInf | Eq => NaN end
      else Fin (a / b)%Q
  | Fin _, _ => fzero
  | PInf, Fin b => if Qle_bool 0 b then PInf else NInf
  | NInf, Fin b => if Qle_bool 0 b then NInf else PInf
  | _, _ => NaN
  end.

(** Division of Python floats, which is what a function under
    [np.vectorize] is given: a division by zero raises
    ZeroDivisionError. *)
Definition fdiv_py (x y : float) : option float :=
  match y with
  | Fin b => if Qeq_bool b 0 then None else Some (fdiv_np x y)
  | _ => Some (fdiv_np x y)
  end.

(** Modelled from the spec: the canonical score [1 - (a/b - 1)²], which is
    not among the sources, over either division. *)
Definition canonical_score (div : float -> float -> option float)
    (a b : float) : option float :=
  ratio ← div a b;
  Some (fsub fone (fmul (fsub ratio fone) (fsub ratio fone))).

(** A head and a foot at distance 1. *)
Definition two_points : matrix float :=
  (fun row : list Z => of_Z <$> row) <$> [[0; 0; 0]; [0; 0; 1]]%Z.

Definition two_labels : list nat := [0; 1].

(** ** only_consecutive_labels, pop_shortest_paths and process_frame *)

(** Every key of the adjacency list is kept; under the key [key_1] only the
    entry of [key_1 + 1] stays. *)
Definition only_consecutive_labels (label_adj_list : graph) : graph :=
  map_imap (fun key_1 (targets : gmap nat float) =>
              Some (match targets !! (key_1 + 1) with
                    | Some d => {[ key_1 + 1 := d ]}
                    | None => ∅
                    end))
           label_adj_list.

(** [h[a]] read as a whole: what a function that only reads its argument
    sees of the array. *)
Definition read (a : loc) : prog (matrix float) :=
  fun h => contents ← h !! a; Some (contents, h).

Section process_frame.
(** The helpers that are not among the sources.  They only read the arrays
    they are given.  A graph on nodes is a dict in insertion order: a list of
    the nodes with their edges. *)
Variable points_to_graph :
  matrix float -> list nat -> graph -> (float -> float -> option float) ->
  option (list (nat * gmap nat float)).
Variable dag_shortest_paths :
  list (nat * gmap nat float) -> list nat -> list nat ->
  option (gmap nat (option nat) * gmap nat float).
Variable trace_path : gmap nat (option nat) -> nat -> option (list nat).
Variable cdist : matrix float -> matrix float -> option (matrix float).
Variable iterable_to_dict : list nat -> gmap nat nat.
Variable labelled_nodes_to_graph : gmap nat nat -> graph -> option graph.
Variable adj_list_to_matrix : graph -> option (matrix float).

Definition pop_shortest_paths (population : matrix float) (labels : list nat)
    (label_adj_list : graph) (weight_func : float -> float -> option float)
  : option (gmap nat (option nat) * gmap nat float) :=
  (* Represent population as a weighted directed acyclic graph *)
  pop_graph ← points_to_graph population labels label_adj_list weight_func;
  (* Run shortest path algorithm *)
  let head_nodes := np_where_eq labels 0 in
  let order := pop_graph.*1 in
  dag_shortest_paths pop_graph order head_nodes.

(** Everything that process_frame computes before foot_to_pop, from the
    contents of the population. *)
Definition choose_feet (population : matrix float) (labels : list nat)
    (label_adj_list : graph) (radii : list float)
    (cost_func score_func : float -> float -> option float)
  : option (matrix nat * list float * nat * nat) :=
  let cons_label_adj_list := only_consecutive_labels label_adj_list in
  '(prev, dist) ← pop_shortest_paths population labels cons_label_adj_list
                                     cost_func;
  (* Get shortest path to each foot *)
  '(path_matrix, path_dist) ← paths_to_foot trace_path prev dist labels;
  '(score_matrix, dist_matrix) ←
    get_score_matrix cdist iterable_to_dict labelled_nodes_to_graph
                     adj_list_to_matrix population labels label_adj_list
                     score_func;
  filtered_score_matrix ← filter_by_path score_matrix path_matrix
                                         label_adj_list;
  '(foot_1, foot_2) ← select_best_feet dist_matrix filtered_score_matrix
                                       path_matrix radii;
  Some (path_matrix, path_dist, foot_1, foot_2).

Open Scope prog_scope.

Definition process_frame (population : loc) (labels : list nat)
    (label_adj_list : graph) (radii : list float)
    (cost_func score_func : float -> float -> option float)
  : prog (loc * loc) :=
  do contents <- read population;
  do (path_matrix, path_dist, foot_1, foot_2) <-
    lift (choose_feet contents labels label_adj_list radii cost_func
                      score_func);
  foot_to_pop population path_matrix path_dist foot_1 foot_2.

Close Scope prog_scope.
End process_frame.

(** The contents of the two arrays that foot_to_pop returns, as a relation
    to the contents of its inputs. *)
Definition unified_heads (contents : matrix float) (P : matrix nat)
    (pd : list float) (f1 f2 : nat) (a1 a2 : matrix float) : Prop :=
  ∃ path_1 path_2 rows_1 rows_2 k min_path node values old_1 old_2 row_1 row_2,
    P !! f1 = Some path_1 ∧ P !! f2 = Some path_2 ∧
    mapM (fun i => contents !! i) path_1 = Some rows_1 ∧
    mapM (fun i => contents !! i) path_2 = Some rows_2 ∧
    np_argmin pd = Some k ∧ P !! k = Some min_path ∧
    min_path !! 0 = Some node ∧ contents !! node = Some values ∧
    rows_1 !! 0 = Some old_1 ∧ rows_2 !! 0 = Some old_2 ∧
    assign_row (length old_1) values = Some row_1 ∧
    assign_row (length old_2) values = Some row_2 ∧
    a1 = <[0 := row_1]> rows_1 ∧ a2 = <[0 := row_2]> rows_2.

(** Modelled from the spec: [gr.points_to_graph] of modules/graphs.py, which
    is not among the sources.  "Adjacency map G: i -> {j -> weight} for all
    i, including empty outgoing sets.  For each i < j, emit edge iff
    L[j] - L[i] == 1 and L[i] in C and L[j] in C[L[i]]; edge weight =
    cost(distance(P[i],P[j]), C[L[i]][L[j]])."  The distance is the one of
    [cdist_on_axis]. *)
Definition distance_on_axis (p q : list float) : float :=
  fsum (zip_with (fun a b => fabs (fsub a b)) p q).

Definition points_to_graph_of_spec (P : matrix float) (L : list nat)
    (C : graph) (cost : float -> float -> option float)
  : option (list (nat * gmap nat float)) :=
  mapM (fun i : nat =>
          edges ← mapM (fun j : nat =>
            a ← L !! i; b ← L !! j; p ← P !! i; q ← P !! j;
            if bool_decide (i < j ∧ b = a + 1) then
              match (C !! a) ≫= (.!! b) with
              | Some expected =>
                  w ← cost (distance_on_axis p q) expected; Some [(j, w)]
              | None => Some []
              end
            else Some []) (range (length P));
          Some (i, list_to_map (concat edges)))
       (range (length P)).

(** Modelled from the spec: [gr.dag_shortest_paths] of modules/graphs.py,
    which is not among the sources.  "dist[v] = 0 for all source nodes;
    dist[v] = +inf for others; prev[v] = NONE for all.  Iterate v in
    topological order; for each outgoing edge (v, u, w), if
    dist[v] + w < dist[u], set dist[u] = dist[v] + w and prev[u] = v." *)
Definition dag_shortest_paths_of_spec (pop_graph : list (nat * gmap nat float))
    (order sources : list nat)
  : option (gmap nat (option nat) * gmap nat float) :=
  let nodes := pop_graph.*1 in
  let prev0 : gmap nat (option nat) :=
    list_to_map ((fun v => (v, None)) <$> nodes) in
  let dist0 : gmap nat float :=
    list_to_map ((fun v => (v, if bool_decide (v ∈ sources) then fzero
                               else PInf)) <$> nodes) in
  let edges_of (v : nat) : list (nat * float) :=
    map_to_list (default ∅ ((list_to_map pop_graph : graph) !! v)) in
  Some (foldl (fun state v =>
                 foldl (fun '(prev, dist) '(u, w) =>
                          match dist !! v, dist !! u with
                          | Some dv, Some du =>
                              if flt (fadd dv w) du
                              then (<[u := Some v]> prev,
                                    <[u := fadd dv w]> dist)
                              else (prev, dist)
                          | _, _ => (prev, dist)
                          end)
                       state (edges_of v))
              (prev0, dist0) order).

(** Modelled from the spec: the canonical cost [(measured - expected)²],
    which is not among the sources. *)
Definition canonical_cost (a b : float) : option float :=
  Some (fmul (fsub a b) (fsub a b)).

(** process_frame with the helpers of the specification; the sources of
    the paths are the nodes with label 0. *)
Definition process_frame_of_spec (population : loc) (labels : list nat)
    (label_adj_list : graph) (radii : list float)
    (cost_func score_func : float -> float -> option float)
  : prog (loc * loc) :=
  process_frame points_to_graph_of_spec dag_shortest_paths_of_spec
    (trace_path_of_spec (has_label_0 labels))
    cdist_on_axis iterable_to_dict_of_spec labelled_nodes_to_graph_of_spec
    adj_list_to_matrix_of_spec
    population labels label_adj_list radii cost_func score_func.

(** The frame of the first scenario of the specification: a head and two
    feet on one axis, with the population stored at location 3. *)
Definition scenario_population : matrix float :=
  (fun row : list Z => of_Z <$> row) <$> [[0; 0; 0]; [0; 0; 10]; [0; 0; 12]]%Z.

Definition scenario_labels : list nat := [0; 1; 1].

Definition scenario_adj_list : graph := {[ 0 := {[ 1 := of_Z 10 ]}; 1 := ∅ ]}.

Definition scenario_store : store := {[ 3 := scenario_population ]}.

Definition scenario_result : store :=
  {[ 3 := scenario_population;
     4 := (fun row : list Z => of_Z <$> row) <$> [[0; 0; 0]; [0; 0; 10]]%Z;
     5 := (fun row : list Z => of_Z <$> row) <$> [[0; 0; 0]; [0; 0; 12]]%Z ]}.

(** ** enforce_consistency *)

(** A row of a walking pass: the three cells hold references to the arrays
    of the positions. *)
Record pass_row : Type := PassRow {
  HEAD : loc;
  L_FOOT : loc;
  R_FOOT : loc
}.

#[global] Instance pass_row_eq_dec : EqDecision pass_row.
Proof. solve_decision. Defined.

(** A DataFrame of a walking pass: its rows in order, each with the frame
    number that is its index label. *)
Abbreviation data_frame := (list (nat * pass_row)).

(** The objects that the function can reach: the arrays of positions and
    the DataFrames. *)
Record pandas_state : Type := PandasState {
  arrays : store;
  frames : gmap loc data_frame
}.

(** [row.L_FOOT, row.R_FOOT = row.R_FOOT, row.L_FOOT]: the right-hand side
    is read first, then the two cells take the references. *)
Definition swap_feet (row : pass_row) : pass_row :=
  {| HEAD := HEAD row; L_FOOT := R_FOOT row; R_FOOT := L_FOOT row |}.

(** [df.loc[frame] = row]: the cells of every row with the index label
    [frame] take the values of [row]. *)
Definition loc_assign (frame : nat) (row : pass_row) (df : data_frame)
  : data_frame :=
  (fun entry : nat * pass_row =>
     if decide (entry.1 = frame) then (entry.1, row) else entry) <$> df.

(** The body of the loop at the row number [i] of the copy: the row
    yielded by [iterrows()] has its feet switched and is stored under its
    label when the frame is not verified. *)
Definition switch_sides (df_consistent : loc) (verified_sides : list bool)
    (tables : gmap loc data_frame) (item : nat * (nat * pass_row))
  : option (gmap loc data_frame) :=
  let '(i, (frame, row)) := item in
  verified ← verified_sides !! i;
  if negb verified then
    (* The sides should be switched. *)
    let row := swap_feet row in
    current ← tables !! df_consistent;
    Some (<[df_consistent := loc_assign frame row current]> tables)
  else Some tables.

(** [df_pass.copy()] is a new DataFrame whose cells hold the same references:
    a deep copy of a DataFrame copies the table, not the Python objects in
    its cells.  [iterrows()] yields the rows of the copy as they are when the
    loop starts. *)
Definition enforce_consistency (df_pass : loc) (verified_sides : list bool)
    (st : pandas_state) : option (loc * pandas_state) :=
  table ← frames st !! df_pass;
  let df_consistent := fresh (dom (frames st)) in
  let tables := <[df_consistent := table]> (frames st) in
  tables ← for_each (enumerate table) tables
                    (switch_sides df_consistent verified_sides);
  Some (df_consistent, {| arrays := arrays st; frames := tables |}).

(** The row that the corrected table holds for a row of the input. *)
Definition corrected_row (row : pass_row) (verified : bool) : pass_row :=
  if verified then row else swap_feet row.

(** The pass of the third scenario of the specification: the head at
    (0, 0, 1) and the feet at (0, 1, 0) and (0, -1, 0); the frame 10 has the
    feet on their sides and the frame 11 has them exchanged. *)
Definition pass_arrays : store :=
  {[ 0 := [[of_Z 0; of_Z 0; of_Z 1]]; 1 := [[of_Z 0; of_Z 1; of_Z 0]];
     2 := [[of_Z 0; of_Z (-1); of_Z 0]] ]}.

Definition pass_table : data_frame :=
  [(10, {| HEAD := 0; L_FOOT := 1; R_FOOT := 2 |});
   (11, {| HEAD := 0; L_FOOT := 2; R_FOOT := 1 |})].

Definition pass_state : pandas_state :=
  {| arrays := pass_arrays; frames := {[ 20 := pass_table ]} |}.

(** ** estimate_lengths *)

(** A pandas Series: the values in order, each with its index label. *)
Abbreviation series A := (list (nat * A)).

(** [s.loc[f]]; KeyError when no entry has the label. *)
Definition series_loc {A} (s : series A) (f : nat) : option A :=
  (fun found : nat * (nat * A) => found.2.2)
  <$> list_find (fun entry => entry.1 = f) s.

(** [np.all] of an array of floats. *)
Definition np_all (l : list float) : bool := forallb truthy l.

(** [np.all(abs(lengths - prev_lengths)) < eps], as the loop of
    estimate_lengths has it: [np.all] gives a [bool], and it is this [bool],
    as the number 1 or 0, that is compared with [eps]. *)
Definition stop_test (lengths prev_lengths : list float) (eps : float) : bool :=
  flt (of_bool (np_all (fabs <$> zip_with fsub lengths prev_lengths))) eps.

(** Sorting, for the median. *)
Fixpoint insert_sorted (x : float) (l : list float) : list float :=
  match l with
  | [] => [x]
  | y :: l' => if fle x y then x :: l else y :: insert_sorted x l'
  end.

Definition sort_floats (l : list float) : list float :=
  foldr insert_sorted [] l.

(** [np.median] of a 1-D array: NaN when the array is empty or holds a NaN,
    else the middle of the sorted values, or the mean of the two middle
    ones. *)
Definition np_median (l : list float) : float :=
  if bool_decide (l = []) || existsb isnan l then NaN
  else
    let sorted := sort_floats l in
    let n := length l in
    if Nat.even n
    then fdiv_np (fadd (default NaN (sorted !! (n / 2 - 1)))
                       (default NaN (sorted !! (n / 2))))
                 (Fin 2)
    else default NaN (sorted !! (n / 2)).

(** [np.median(a, axis=0)] of an array with [width] columns. *)
Definition np_median_axis0 (width : nat) (a : matrix float) : list float :=
  (fun j : nat => np_median ((fun row : list float => default NaN (row !! j))
                             <$> a))
  <$> range width.

(** How a run of a loop without a bound ends within [fuel] iterations: it
    returned, it raised, or it is still running. *)
Inductive outcome (A : Type) : Type :=
  | Returned (x : A)
  | Raised
  | Running.

Arguments Returned {A} x.

Arguments Raised {A}.

Arguments Running {A}.

Section estimate_lengths.
(** The helpers that are not among the sources: those of pop_shortest_paths,
    [gen.iterable_to_dict], [gr.min_shortest_path] and
    [lin.consecutive_dist]. *)
Variable points_to_graph :
  matrix float -> list nat -> graph -> (float -> float -> option float) ->
  option (list (nat * gmap nat float)).
Variable dag_shortest_paths :
  list (nat * gmap nat float) -> list nat -> list nat ->
  option (gmap nat (option nat) * gmap nat float).
Variable iterable_to_dict : list nat -> gmap nat nat.
Variable min_shortest_path :
  gmap nat (option nat) -> gmap nat float -> gmap nat nat -> nat ->
  option (list nat).
Variable consecutive_dist : matrix float -> option (list float).

Variable pop_series : series (matrix float).
Variable label_series : series (list nat).
Variable cost_func : float -> float -> option float.
Variable n_frames : nat.
Variable eps : float.

(** The body of the [while] loop up to the update of the lengths: the new
    lengths from the previous ones. *)
Definition update_lengths (n_lengths : nat) (frames : list nat)
    (lengths : list float) : option (list float) :=
  let length_dict : graph :=
    <[n_lengths := ∅]>
      (list_to_map ((fun il : nat * float => (il.1, {[ il.1 + 1 := il.2 ]}))
                    <$> enumerate lengths)) in
  let length_array := replicate n_frames (replicate n_lengths NaN) in
  length_array ← for_each (enumerate (take n_frames frames)) length_array
    (fun length_array '(i, f) =>
       population ← series_loc pop_series f;
       labels ← series_loc label_series f;
       '(prev, dist) ← pop_shortest_paths points_to_graph dag_shortest_paths
                         population labels length_dict cost_func;
       let label_dict := iterable_to_dict labels in
       min_path ← min_shortest_path prev dist label_dict n_lengths;
       min_pop ← mapM (fun k => population !! k) min_path;
       values ← consecutive_dist min_pop;
       old ← length_array !! i;
       row ← assign_row (length old) values;
       Some (<[i := row]> length_array));
  (* Update lengths *)
  Some (np_median_axis0 n_lengths length_array).

(** The [while True] loop, run for at most [fuel] iterations. *)
Fixpoint iterate_lengths (fuel n_lengths : nat) (frames : list nat)
    (lengths : list float) : outcome (list float) :=
  match fuel with
  | 0 => Running
  | S fuel' =>
      let prev_lengths := lengths in
      match update_lengths n_lengths frames lengths with
      | None => Raised
      | Some lengths =>
          if stop_test lengths prev_lengths eps then Returned lengths
          else iterate_lengths fuel' n_lengths frames lengths
      end
  end.

Definition estimate_lengths (fuel : nat) : outcome (list float) :=
  match head label_series ≫= (fun first => max_of first.2) with
  | None => Raised
  | Some n_lengths =>
      (* List of image frames with data *)
      let frames := pop_series.*1 in
      (* Initial estimate of lengths *)
      let lengths := replicate n_lengths fzero in
      iterate_lengths fuel n_lengths frames lengths
  end.
End estimate_lengths.

(** Modelled from the spec: [gr.min_shortest_path] and
    [lin.consecutive_dist], which are not among the sources.  "Select the
    single foot with minimum dist; record consecutive segment distances
    along that foot's path."  The feet are the nodes with the last label,
    the sources those with label 0, and the distance is the one of
    [cdist_on_axis]. *)
Definition min_shortest_path_of_spec (prev : gmap nat (option nat))
    (dist : gmap nat float) (label_dict : gmap nat nat) (last_label : nat)
  : option (list nat) :=
  let feet := filter (fun v => label_dict !! v = Some last_label)
                     (range (size label_dict)) in
  dists ← mapM (fun v => dist !! v) feet;
  k ← np_argmin dists;
  foot ← feet !! k;
  trace_path_of_spec (fun v => bool_decide (label_dict !! v = Some 0))
                     prev foot.

Definition consecutive_dist_of_spec (points : matrix float)
  : option (list float) :=
  Some (zip_with distance_on_axis points (tail points)).

(** estimate_lengths with the helpers of the specification. *)
Definition estimate_lengths_of_spec :=
  estimate_lengths points_to_graph_of_spec dag_shortest_paths_of_spec
    iterable_to_dict_of_spec min_shortest_path_of_spec
    consecutive_dist_of_spec.




(** The criterion of the docstring and of the specification, in their
    words: "all lengths have changed by less than epsilon", that is
    [max |lengths - prev_lengths| < eps]. *)
Definition all_changed_less (lengths prev_lengths : list float) (eps : float)
  : bool :=
  forallb (fun d => flt d eps) (fabs <$> zip_with fsub lengths prev_lengths).

(** One frame in which the points of the labels 1 and 2 coincide: the second
    length is 0 from the first iteration on. *)
Definition coincident_pops : series (matrix float) :=
  [(0, (fun row : list Z => of_Z <$> row)
       <$> [[0; 0; 0]; [0; 0; 60]; [0; 0; 60]]%Z)].

Definition coincident_labels : series (list nat) := [(0, [0; 1; 2])].

(** ** lengths_to_adj_list *)

(** Python's [sum] of a sequence: from the left, starting at 0. *)
Definition py_sum (l : list float) : float := foldl fadd fzero l.

(** [l[u:v]] for bounds that are not negative: the entries from [u] up to,
    not including, [v], as far as they exist. *)
Definition slice {A} (u v : nat) (l : list A) : list A :=
  take (v - u) (drop u l).

(** [label_connections.max()] is a ValueError on an array without entries,
    [label_connections[i, 1]] an IndexError on a row with one column. *)
Definition lengths_to_adj_list (label_connections : matrix nat)
    (lengths : list float) : option graph :=
  last_part ← max_of (concat label_connections);
  let label_adj_list : graph :=
    list_to_map ((fun i : nat => (i, ∅)) <$> range (last_part + 1)) in
  let n_rows := length label_connections in
  for_each (range n_rows) label_adj_list (fun label_adj_list i =>
    u ← get2 label_connections i 0;
    v ← get2 label_connections i 1;
    targets ← label_adj_list !! u;
    Some (<[u := <[v := py_sum (slice u v lengths)]> targets]> label_adj_list)).

(** The example of the docstring of lengths_to_adj_list. *)
Definition docstring_connections : matrix nat :=
  [[0; 1]; [1; 2]; [2; 3]; [3; 4]; [4; 5]; [3; 5]].

Definition docstring_lengths : list float :=
  of_Z <$> [62; 20; 14; 19; 20]%Z.

(** ** get_population *)

#[global] Instance rectangular_dec {A} (m : matrix A) :
  Decision (rectangular m).
Proof. unfold rectangular. apply _. Defined.

(** [np.array(rows)] of a list of 1-D arrays: a 2-D array when the rows
    have one length; otherwise NumPy (from 1.24 on) raises a ValueError for
    the inhomogeneous shape. *)
Definition np_array_rows (rows : matrix float) : option (matrix float) :=
  if bool_decide (rectangular rows) then Some rows else None.

Section get_population.
(** [np.argsort] of the labels.  NumPy's default sort is not stable: which
    of two equal labels comes first is left open, so the function is a
    parameter. *)
Variable argsort : list nat -> list nat.

(** [frame_series] is iterated by value: one array of points per body
    part. *)
Definition get_population (frame_series : list (matrix float))
    (part_labels : list nat) : option (matrix float * list nat) :=
  let '(pop_list, label_list) :=
    foldl (fun lists '(index_points, label) =>
             foldl (fun '(pop_list, label_list) point =>
                      (pop_list ++ [point], label_list ++ [label]))
                   lists index_points)
          ([], []) (zip frame_series part_labels) in
  population ← np_array_rows pop_list;
  let labels := label_list in
  (* Sort the labels and apply the sorting to the points *)
  let sort_index := argsort labels in
  sorted_population ← mapM (fun i => population !! i) sort_index;
  sorted_labels ← mapM (fun i => labels !! i) sort_index;
  Some (sorted_population, sorted_labels).
End get_population.

(** The part hypotheses of a frame with their labels, in the order of the
    series: the points of as many parts as there are labels. *)
Definition labelled_points (frame_series : list (matrix float))
    (part_labels : list nat) : list (list float * nat) :=
  '(index_points, label) ← zip frame_series part_labels;
  (fun point => (point, label)) <$> index_points.

(** What [np.argsort] promises for the array [labels]: the indices of the
    array, each once, in an order in which the labels ascend. *)
Definition sorts (labels sort_index : list nat) : Prop :=
  sort_index ≡ₚ seq 0 (length labels) ∧
  StronglySorted le ((fun i => default 0 (labels !! i)) <$> sort_index).

(** A stable argsort by insertion, as [np.argsort(labels, kind='stable')]
    gives it. *)
Fixpoint insert_index (labels : list nat) (i : nat) (sorted : list nat)
  : list nat :=
  match sorted with
  | [] => [i]
  | j :: rest =>
      if decide (default 0 (labels !! i) ≤ default 0 (labels !! j))
      then i :: sorted
      else j :: insert_index labels i rest
  end.

Definition stable_argsort (labels : list nat) : list nat :=
  foldr (insert_index labels) [] (seq 0 (length labels)).

(** The example of the docstring of get_population: the feet come first in
    the series, the head second. *)
Definition docstring_frame_series : list (matrix float) :=
  [ (fun row : list Z => of_Z <$> row) <$> [[-26; -57; 249]; [-74; -58; 260]]%Z;
    (fun row : list Z => of_Z <$> row) <$> [[-45; 66; 238]]%Z ].

Definition docstring_part_labels : list nat := [5; 0].

(** ** Clustering: region_query, region_query_st, grow_cluster_st and
    dbscan_st of modules/cluster.py *)

(** [np.nonzero(mask)[0]]: the positions of the [True] entries. *)
Definition np_nonzero (mask : list bool) : list nat :=
  filter (fun i => mask !! i = Some true) (range (length mask)).

(** [dist_matrix[idx_pt]] is an IndexError when there is no such row. *)
Definition region_query (dist_matrix : matrix float) (eps : float)
    (idx_pt : nat) : option (gset nat) :=
  row ← dist_matrix !! idx_pt;
  Some (list_to_set (np_nonzero ((fun d => fle d eps) <$> row))).

Definition region_query_st (D_spatial D_temporal : matrix float)
    (eps_spatial eps_temporal : float) (idx_pt : nat) : option (gset nat) :=
  set_neighbours_spatial ← region_query D_spatial eps_spatial idx_pt;
  set_neighbours_temporal ← region_query D_temporal eps_temporal idx_pt;
  Some (set_neighbours_spatial ∩ set_neighbours_temporal).

(** A [for] loop whose body holds a loop without a bound: it stops at the
    first element at which the body raises or is still running. *)
Fixpoint for_each_outcome {St X} (xs : list X) (s : St)
    (body : St -> X -> outcome St) : outcome St :=
  match xs with
  | [] => Returned s
  | x :: xs' =>
      match body s x with
      | Returned s' => for_each_outcome xs' s' body
      | Raised => Raised
      | Running => Running
      end
  end.

Section clustering.
(** The order in which Python iterates over the neighbourhood of a point.
    The language does not fix it, and it may depend on how the set was
    built: it is a parameter that is given the point and the set. *)
Variable set_order : nat -> gset nat -> list nat.

(** The [while not queue_search.empty()] loop of grow_cluster_st, run for
    at most [fuel] iterations, on the array of labels and the queue as a
    list, first in first out. *)
Fixpoint search_queue (fuel : nat) (D_spatial D_temporal : matrix float)
    (labels : list Z) (queue_search : list nat) (label_cluster : Z)
    (eps_spatial eps_temporal : float) (min_pts : nat) : outcome (list Z) :=
  match fuel with
  | 0 => Running
  | S fuel' =>
      match queue_search with
      | [] => Returned labels
      | idx_next :: queue_search =>
          (* Consider the next point in the queue. *)
          match labels !! idx_next with
          | None => Raised
          | Some label_next =>
              if decide (label_next = -1)%Z then
                (* This neighbour was labelled as noise.
                   It is now a border point of the cluster. *)
                search_queue fuel' D_spatial D_temporal
                  (<[idx_next := label_cluster]> labels) queue_search
                  label_cluster eps_spatial eps_temporal min_pts
              else if decide (label_next = 0)%Z then
                (* The neighbour was unclaimed.
                   Add the next point to the cluster. *)
                let labels := <[idx_next := label_cluster]> labels in
                match region_query_st D_spatial D_temporal eps_spatial
                                      eps_temporal idx_next with
                | None => Raised
                | Some set_neighbours_next =>
                    if decide (min_pts ≤ size set_neighbours_next) then
                      (* The next point is a core point.
                         Add its neighbourhood to the queue to be
                         searched. *)
                      search_queue fuel' D_spatial D_temporal labels
                        (queue_search
                         ++ set_order idx_next set_neighbours_next)
                        label_cluster eps_spatial eps_temporal min_pts
                    else
                      search_queue fuel' D_spatial D_temporal labels
                        queue_search label_cluster eps_spatial eps_temporal
                        min_pts
                end
              else
                search_queue fuel' D_spatial D_temporal labels queue_search
                  label_cluster eps_spatial eps_temporal min_pts
          end
      end
  end.

(** grow_cluster_st changes the array [labels] in place and returns
    nothing; here it returns the array as it is in the end.  The set
    [set_neighbours] is only iterated over: it is given by its elements in
    the order of the iteration. *)
Definition grow_cluster_st (fuel : nat) (D_spatial D_temporal : matrix float)
    (labels : list Z) (set_neighbours : list nat) (label_cluster : Z)
    (eps_spatial eps_temporal : float) (min_pts : nat) : outcome (list Z) :=
  (* Initialize a queue with the current neighbourhood. *)
  let queue_search := set_neighbours in
  search_queue fuel D_spatial D_temporal labels queue_search label_cluster
               eps_spatial eps_temporal min_pts.

(** The body of the loop of dbscan_st over the points, on the labels and
    the number of the last cluster. *)
Definition visit_point (fuel : nat) (D_spatial D_temporal : matrix float)
    (eps_spatial eps_temporal : float) (min_pts : nat)
    (state : list Z * Z) (idx_pt : nat) : outcome (list Z * Z) :=
  let '(labels, label_cluster) := state in
  match labels !! idx_pt with
  | None => Raised
  | Some label =>
      if decide (label ≠ 0)%Z then
        (* Only unlabelled points can be considered as seed points. *)
        Returned (labels, label_cluster)
      else
        match region_query_st D_spatial D_temporal eps_spatial eps_temporal
                              idx_pt with
        | None => Raised
        | Some set_neighbours =>
            if decide (size set_neighbours < min_pts) then
              (* The neighbourhood of the point is smaller than the
                 minimum.  The point is marked as noise. *)
              Returned (<[idx_pt := (-1)%Z]> labels, label_cluster)
            else
              let label_cluster := (label_cluster + 1)%Z in
              (* Assign the point to the current cluster *)
              let labels := <[idx_pt := label_cluster]> labels in
              match grow_cluster_st fuel D_spatial D_temporal labels
                      (set_order idx_pt set_neighbours) label_cluster
                      eps_spatial eps_temporal min_pts with
              | Returned labels => Returned (labels, label_cluster)
              | Raised => Raised
              | Running => Running
              end
        end
  end.

(** scipy's [cdist], which is not among the sources. *)
Variable cdist : matrix float -> matrix float -> option (matrix float).

(** [times] is [None] when the argument is left out.  [fuel] bounds the
    iterations of each run of the loop of grow_cluster_st. *)
Definition dbscan_st (fuel : nat) (points : matrix float)
    (times : option (list float)) (eps_spatial eps_temporal : float)
    (min_pts : nat) : outcome (list Z) :=
  match cdist points points with
  | None => Raised
  | Some D_spatial =>
      let n_points := length points in
      let times := match times with
                   | None => replicate n_points fzero
                   | Some times => times
                   end in
      (* [np.array(times).reshape(-1, 1)] *)
      let times := (fun t : float => [t]) <$> times in
      match cdist times times with
      | None => Raised
      | Some D_temporal =>
          let labels := replicate n_points 0%Z in
          let label_cluster := 0%Z in
          match for_each_outcome (range n_points) (labels, label_cluster)
                  (visit_point fuel D_spatial D_temporal eps_spatial
                               eps_temporal min_pts) with
          | Returned (labels, _) =>
              (* Subtract 1 from non-noise labels so they begin at zero *)
              Returned ((fun label : Z =>
                           if decide (label ≠ -1)%Z then (label - 1)%Z
                           else label) <$> labels)
          | Raised => Raised
          | Running => Running
          end
      end
  end.
End clustering.

(** What is known of the order of a set: it lists the elements of the set,
    each once. *)
Definition lists_elements (set_order : nat -> gset nat -> list nat) : Prop :=
  ∀ p s, set_order p s ≡ₚ elements s.

(** An order of the sets, for the examples: the one of [elements]. *)
Definition elements_order (p : nat) (s : gset nat) : list nat := elements s.

(** The point [p] is a core point: its neighbourhood in space and time has
    [min_pts] points or more. *)
Definition core_point (D_spatial D_temporal : matrix float)
    (eps_spatial eps_temporal : float) (min_pts : nat) (p : nat) : Prop :=
  ∃ neighbours,
    region_query_st D_spatial D_temporal eps_spatial eps_temporal p
    = Some neighbours ∧ min_pts ≤ size neighbours.

(** The point [q] lies in the neighbourhood of [p]. *)
Definition neighbour (D_spatial D_temporal : matrix float)
    (eps_spatial eps_temporal : float) (p q : nat) : Prop :=
  ∃ neighbours,
    region_query_st D_spatial D_temporal eps_spatial eps_temporal p
    = Some neighbours ∧ q ∈ neighbours.

(** An [n] by [n] matrix. *)
Definition square (n : nat) (m : matrix float) : Prop :=
  length m = n ∧ Forall (fun row => length row = n) m.

(** Six points on a line, in two groups of three, at the times 0 to 5. *)
Definition line_points : matrix float :=
  (fun x : Z => [of_Z x]) <$> [0; 1; 2; 5; 6; 7]%Z.

Definition line_times : list float := of_Z <$> [0; 1; 2; 3; 4; 5]%Z.

(** A distance matrix is symmetric. *)
Definition symmetric (m : matrix float) : Prop :=
  ∀ i j, get2 m i j = get2 m j i.

(** The number of points that no cluster has claimed yet. *)
Definition count_zero (labels : list Z) : nat :=
  length (filter (fun label => label = 0%Z) labels).

(** What the loops of dbscan_st keep, between two iterations, for the
    labels, the number [k] of the last cluster, the queue of
    grow_cluster_st and the number [m] of points that the outer loop has
    visited.  The labels are those of the loops: 0 is an unclaimed point,
    -1 is noise, and the clusters count from 1.  The last property is kept
    for distance matrices that are symmetric. *)
Record clustered (D_spatial D_temporal : matrix float)
    (eps_spatial eps_temporal : float) (min_pts n m : nat) (k : Z)
    (queue : list nat) (labels : list Z) : Prop := Clustered {
  clustered_length : length labels = n;
  clustered_range : ∀ i l, labels !! i = Some l → (-1 ≤ l ≤ k)%Z;
  clustered_seeds : ∀ c, (1 ≤ c ≤ k)%Z → ∃ i, labels !! i = Some c;
  clustered_noise :
    ∀ i, labels !! i = Some (-1)%Z →
         ¬ core_point D_spatial D_temporal eps_spatial eps_temporal min_pts i;
  clustered_closed :
    ∀ p l q,
      labels !! p = Some l → (1 ≤ l)%Z →
      core_point D_spatial D_temporal eps_spatial eps_temporal min_pts p →
      neighbour D_spatial D_temporal eps_spatial eps_temporal p q →
      (∃ l', labels !! q = Some l' ∧ (1 ≤ l')%Z) ∨ q ∈ queue;
  clustered_reached :
    ∀ q l,
      labels !! q = Some l → (1 ≤ l)%Z →
      ∃ p, labels !! p = Some l ∧
           core_point D_spatial D_temporal eps_spatial eps_temporal min_pts p ∧
           (q = p ∨
            neighbour D_spatial D_temporal eps_spatial eps_temporal p q);
  clustered_queue :
    ∀ q, q ∈ queue →
         q < n ∧
         ∃ p, labels !! p = Some k ∧
              core_point D_spatial D_temporal eps_spatial eps_temporal
                         min_pts p ∧
              neighbour D_spatial D_temporal eps_spatial eps_temporal p q;
  clustered_visited : ∀ i, i < m → labels !! i ≠ Some 0%Z;
  clustered_cores :
    symmetric D_spatial → symmetric D_temporal →
    ∀ p q l,
      labels !! p = Some l → (1 ≤ l)%Z →
      core_point D_spatial D_temporal eps_spatial eps_temporal min_pts p →
      core_point D_spatial D_temporal eps_spatial eps_temporal min_pts q →
      neighbour D_spatial D_temporal eps_spatial eps_temporal p q →
      labels !! q = Some l ∨
      (l = k ∧ labels !! q = Some 0%Z ∧ q ∈ queue)
}.

(** The distances between the points of the line, and between equal
    times. *)
Definition line_distances : matrix float :=
  (fun row : list Z => of_Z <$> row) <$>
  [[0; 1; 2; 5; 6; 7]; [1; 0; 1; 4; 5; 6]; [2; 1; 0; 3; 4; 5];
   [5; 4; 3; 0; 1; 2]; [6; 5; 4; 1; 0; 1]; [7; 6; 5; 2; 1; 0]]%Z.

Definition no_time_distances : matrix float :=
  replicate 6 (replicate 6 (of_Z 0)).

(** * Part II: the properties *)

(** ** Loops *)

Section loops.
Context {S X : Type}.
Implicit Types (s : S) (xs ys : list X) (body : S -> X -> option S).

Lemma for_each_app xs ys s body :
  for_each (xs ++ ys) s body = s' ← for_each xs s body; for_each ys s' body.
Proof.
  revert s. induction xs as [|x xs IH]; intros s; simpl; [done|].
  destruct (body s x) as [s1|]; simpl; [apply IH | done].
Qed.

Lemma for_each_bind {Y} (g : Y -> list X) (l : list Y) s body :
  for_each (y ← l; g y) s body
  = for_each l s (fun s y => for_each (g y) s body).
Proof.
  revert s. induction l as [|y l IH]; intros s; simpl; [done|].
  rewrite for_each_app. destruct (for_each (g y) s body); simpl; [apply IH | done].
Qed.

Lemma for_each_ext xs s body1 body2 :
  (∀ s x, x ∈ xs → body1 s x = body2 s x) →
  for_each xs s body1 = for_each xs s body2.
Proof.
  revert s. induction xs as [|x xs IH]; intros s Hext; simpl; [done|].
  rewrite Hext by left. destruct (body2 s x); simpl; [|done].
  apply IH. intros. apply Hext. by right.
Qed.

Lemma for_each_invariant_from (I : list X -> S -> Prop) all body :
  (∀ pre x s1 s2, x ∈ all → I pre s1 → body s1 x = Some s2 →
                  I (pre ++ [x]) s2) →
  ∀ xs pre s s',
    xs ⊆ all → I pre s → for_each xs s body = Some s' → I (pre ++ xs) s'.
Proof.
  intros Hstep. induction xs as [|x xs IH]; intros pre s s' Hsub Hpre Hrun.
  - injection Hrun as <-. by rewrite app_nil_r.
  - simpl in Hrun. destruct (body s x) as [s1|] eqn:Hb; simpl in Hrun; [|done].
    replace (pre ++ x :: xs) with ((pre ++ [x]) ++ xs)
      by (by rewrite <- app_assoc).
    apply (IH _ s1); [set_solver| |done].
    apply (Hstep pre x s); [set_solver|done..].
Qed.

(** An invariant of the loop body holds when the loop ends. *)
Lemma for_each_invariant (I : list X -> S -> Prop) xs s s' body :
  I [] s →
  (∀ pre x s1 s2, x ∈ xs → I pre s1 → body s1 x = Some s2 →
                  I (pre ++ [x]) s2) →
  for_each xs s body = Some s' →
  I xs s'.
Proof.
  intros Hinit Hstep Hrun.
  by apply (for_each_invariant_from I xs body Hstep xs [] s s').
Qed.

(** The loop raises nothing when no run of its body does. *)
Lemma for_each_is_Some (I : S -> Prop) xs s body :
  I s →
  (∀ x s1, x ∈ xs → I s1 → ∃ s2, body s1 x = Some s2 ∧ I s2) →
  ∃ s', for_each xs s body = Some s' ∧ I s'.
Proof.
  revert s. induction xs as [|x xs IH]; intros s Hs Hstep; simpl; [eauto|].
  destruct (Hstep x s) as (s2 & -> & Hs2); [by left | done |]. simpl.
  apply IH; [done|]. intros. apply Hstep; [by right | done].
Qed.
End loops.

(** ** Arrays *)

Section matrices.
Context {A : Type}.
Implicit Types (m : matrix A) (v : A).

Lemma get2_Some m i j v :
  get2 m i j = Some v ↔ ∃ row, m !! i = Some row ∧ row !! j = Some v.
Proof.
  unfold get2. destruct (m !! i) as [row|]; simpl.
  - split; [eauto|]. by intros (? & [= <-] & ?).
  - split; [done|]. by intros (? & ? & ?).
Qed.

Lemma shape_set2 m a b v : shape (set2 m a b v) = shape m.
Proof.
  unfold set2, shape. destruct (m !! a) as [row|] eqn:Hrow; [|done].
  rewrite list_fmap_insert, length_insert. apply list_insert_id.
  by rewrite list_lookup_fmap, Hrow.
Qed.

Lemma get2_set2_eq m a b v :
  is_Some (get2 m a b) → get2 (set2 m a b v) a b = Some v.
Proof.
  intros [w (row & Hrow & Hw)%get2_Some]. unfold set2, get2. rewrite Hrow.
  rewrite list_lookup_insert_eq by (by eapply lookup_lt_Some). simpl.
  apply list_lookup_insert_eq. by eapply lookup_lt_Some.
Qed.

Lemma get2_set2_ne m a b v x y :
  (x, y) ≠ (a, b) → get2 (set2 m a b v) x y = get2 m x y.
Proof.
  intros Hne. unfold set2, get2. destruct (m !! a) as [row|] eqn:Hrow; [|done].
  destruct (decide (x = a)) as [->|Hx].
  - rewrite list_lookup_insert_eq by (by eapply lookup_lt_Some).
    rewrite Hrow. simpl. apply list_lookup_insert_ne. congruence.
  - by rewrite list_lookup_insert_ne.
Qed.

Lemma get2_is_Some_shape {B} m (m' : matrix B) i j :
  shape m = shape m' → is_Some (get2 m i j) → is_Some (get2 m' i j).
Proof.
  unfold shape. intros Hsh [v (row & Hrow & Hv)%get2_Some].
  assert ((length <$> m) !! i = Some (length row)) as Hlen
    by (by rewrite list_lookup_fmap, Hrow).
  rewrite Hsh, list_lookup_fmap in Hlen.
  destruct (m' !! i) as [row'|] eqn:Hrow'; simpl in Hlen; [|done].
  injection Hlen as Hlen. unfold get2. rewrite Hrow'. simpl.
  apply lookup_lt_is_Some. rewrite Hlen. by eapply lookup_lt_Some.
Qed.

(** Two arrays of one shape with the same entries are the same array. *)
Lemma matrix_eq m1 m2 :
  shape m1 = shape m2 → (∀ i j, get2 m1 i j = get2 m2 i j) → m1 = m2.
Proof.
  unfold shape. intros Hsh Hget. apply list_eq. intros i.
  assert ((length <$> m1) !! i = (length <$> m2) !! i) as Hi
    by (by rewrite Hsh).
  rewrite !list_lookup_fmap in Hi.
  destruct (m1 !! i) as [r1|] eqn:H1, (m2 !! i) as [r2|] eqn:H2;
    simpl in Hi; try done.
  f_equal. apply list_eq. intros j. specialize (Hget i j).
  unfold get2 in Hget. by rewrite H1, H2 in Hget.
Qed.
End matrices.

(** ** filter_by_path *)

Lemma shape_zeros_like m : shape (zeros_like m) = shape m.
Proof.
  unfold shape, zeros_like. rewrite <- list_fmap_compose.
  apply list_fmap_ext. intros _ row _. simpl. apply length_fmap.
Qed.

Lemma zeros_like_shape m1 m2 :
  shape m1 = shape m2 → zeros_like m1 = zeros_like m2.
Proof.
  intros Hsh. apply matrix_eq; [by rewrite !shape_zeros_like|].
  intros i j. unfold zeros_like, get2.
  assert (shape m1 !! i = shape m2 !! i) as Hi by (by rewrite Hsh).
  unfold shape in Hi. rewrite !list_lookup_fmap in Hi.
  rewrite !list_lookup_fmap.
  destruct (m1 !! i) as [r1|], (m2 !! i) as [r2|]; simpl in *; try done.
  injection Hi as Hi. rewrite !list_lookup_fmap.
  destruct (r1 !! j) eqn:H1, (r2 !! j) eqn:H2; simpl; try done.
  - apply lookup_lt_Some in H1. apply lookup_ge_None in H2. lia.
  - apply lookup_lt_Some in H2. apply lookup_ge_None in H1. lia.
Qed.

Lemma get2_zeros_like m i j :
  get2 (zeros_like m) i j = (fun _ => fzero) <$> get2 m i j.
Proof.
  unfold zeros_like, get2. rewrite list_lookup_fmap.
  destruct (m !! i) as [row|]; simpl; [|done]. by rewrite list_lookup_fmap.
Qed.

(** The three nested loops are one loop over [loop_indices]. *)
Lemma filter_by_path_unfold S P C :
  filter_by_path S P C
  = for_each (loop_indices (length P) (n_cols P)) (zeros_like S)
             (copy_link S P C).
Proof.
  unfold filter_by_path, loop_indices. rewrite for_each_bind.
  apply for_each_ext. intros s i _. rewrite for_each_bind.
  apply for_each_ext. intros s' j _. rewrite for_each_bind.
  apply for_each_ext. intros s'' k _. simpl.
  destruct (C !! j) as [conn|]; simpl; [|done].
  case_bool_decide; simpl; [|done].
  destruct (get2 P i j) as [a|]; simpl; [|done].
  destruct (get2 P i k) as [b|]; simpl; [|done].
  by destruct (get2 S a b).
Qed.

Lemma elem_of_loop_indices n m i j k :
  (i, j, k) ∈ loop_indices n m ↔ i < n ∧ j < m ∧ k < m.
Proof.
  unfold loop_indices, range. split.
  - intros (i' & Hin & Hi)%list_elem_of_bind.
    apply list_elem_of_bind in Hin as (j' & Hin & Hj).
    apply list_elem_of_bind in Hin as (k' & Hin & Hk).
    apply list_elem_of_singleton in Hin as [= -> -> ->].
    apply elem_of_seq in Hi, Hj, Hk. lia.
  - intros (Hi & Hj & Hk).
    apply list_elem_of_bind. exists i. split; [|apply elem_of_seq; lia].
    apply list_elem_of_bind. exists j. split; [|apply elem_of_seq; lia].
    apply list_elem_of_bind. exists k. split; [|apply elem_of_seq; lia].
    by apply list_elem_of_singleton.
Qed.

Section filter_by_path_facts.
Variables (S : matrix float) (P : matrix nat).
Variable C : gmap nat (gmap nat float).

Lemma writes_dec t x y : writes P C t x y ∨ ¬ writes P C t x y.
Proof.
  destruct t as [[i j] k]. unfold writes.
  destruct (C !! j) as [conn|]; [|right; by intros (? & ? & _)].
  destruct (conn !! k) as [w|] eqn:Hk;
    [|right; intros (? & [= <-] & [? ?] & _); congruence].
  destruct (decide (get2 P i j = Some x)) as [Hx|Hx];
    [|right; by intros (? & _ & _ & ? & _)].
  destruct (decide (get2 P i k = Some y)) as [Hy|Hy];
    [|right; by intros (? & _ & _ & _ & ?)].
  left. exists conn. rewrite Hk. eauto.
Qed.

(** One run of the loop body: the positions it writes take the input's
    entry, every other entry stays. *)
Lemma copy_link_spec s t s' :
  copy_link S P C s t = Some s' →
  shape s = shape S →
  shape s' = shape S ∧
  ∀ x y, (writes P C t x y → get2 s' x y = get2 S x y) ∧
         (¬ writes P C t x y → get2 s' x y = get2 s x y).
Proof.
  destruct t as [[i j] k]. unfold copy_link, writes. intros Hrun Hsh.
  destruct (C !! j) as [conn|] eqn:Hconn; simpl in Hrun; [|done].
  case_bool_decide as Hk; simpl in Hrun.
  - destruct (get2 P i j) as [a|] eqn:Ha; simpl in Hrun; [|done].
    destruct (get2 P i k) as [b|] eqn:Hb; simpl in Hrun; [|done].
    destruct (get2 S a b) as [v|] eqn:Hv; simpl in Hrun; [|done].
    injection Hrun as <-. split; [by rewrite shape_set2|].
    intros x y. split.
    + intros (conn' & [= <-] & _ & [= <-] & [= <-]). rewrite Hv.
      apply get2_set2_eq. apply (get2_is_Some_shape S); [done|by rewrite Hv].
    + intros Hno. apply get2_set2_ne. intros [= -> ->]. apply Hno. eauto.
  - injection Hrun as <-. split; [done|]. intros x y. split; [|done].
    by intros (conn' & [= <-] & ? & _).
Qed.

(** The loop over any list of index triples, from any start of the right
    shape. *)
Lemma copy_links_spec ts s0 s' :
  for_each ts s0 (copy_link S P C) = Some s' →
  shape s0 = shape S →
  shape s' = shape S ∧
  ∀ x y, ((∃ t, t ∈ ts ∧ writes P C t x y) → get2 s' x y = get2 S x y) ∧
         ((¬ ∃ t, t ∈ ts ∧ writes P C t x y) → get2 s' x y = get2 s0 x y).
Proof.
  intros Hrun Hsh.
  apply (for_each_invariant (fun pre s =>
    shape s = shape S ∧
    ∀ x y, ((∃ t, t ∈ pre ∧ writes P C t x y) → get2 s x y = get2 S x y) ∧
           ((¬ ∃ t, t ∈ pre ∧ writes P C t x y) → get2 s x y = get2 s0 x y))
    ts s0 s' (copy_link S P C)); [| |done].
  - split; [done|]. intros x y. split; [|done].
    intros (t & Hin & _). by apply elem_of_nil in Hin.
  - intros pre t s1 s2 _ [Hsh1 Hinv] Hbody.
    destruct (copy_link_spec _ _ _ Hbody Hsh1) as [Hsh2 Hstep].
    split; [done|]. intros x y. split.
    + intros (t' & Hin & Hw). apply elem_of_app in Hin as [Hin|Hin].
      * destruct (Hstep x y) as [Hyes Hno].
        destruct (writes_dec t x y) as [Hwt|Hwt].
        -- by apply Hyes.
        -- rewrite (Hno Hwt). apply Hinv. eauto.
      * apply list_elem_of_singleton in Hin as ->. by apply Hstep.
    + intros Hnone. destruct (Hstep x y) as [_ Hno]. rewrite Hno.
      * apply Hinv. intros (t' & Hin & Hw). apply Hnone. exists t'.
        split; [|done]. apply elem_of_app. by left.
      * intros Hw. apply Hnone. exists t. split; [|done].
        apply elem_of_app. right. by apply list_elem_of_singleton.
Qed.
End filter_by_path_facts.

Lemma get2_rectangular {A} (m : matrix A) i j v :
  rectangular m → get2 m i j = Some v → i < length m ∧ j < n_cols m.
Proof.
  intros Hrect (row & Hrow & Hv)%get2_Some. split; [by eapply lookup_lt_Some|].
  unfold rectangular in Hrect. rewrite Forall_lookup in Hrect.
  rewrite <- (Hrect i row Hrow). by eapply lookup_lt_Some.
Qed.

Lemma get2_lt_is_Some {A} (m : matrix A) i j :
  rectangular m → i < length m → j < n_cols m → is_Some (get2 m i j).
Proof.
  intros Hrect Hi Hj. apply lookup_lt_is_Some in Hi as [row Hrow].
  unfold get2. rewrite Hrow. simpl. apply lookup_lt_is_Some.
  unfold rectangular in Hrect. rewrite Forall_lookup in Hrect.
  by rewrite (Hrect i row Hrow).
Qed.

(** On an ndarray of paths, the positions the loops write are the pairs of
    nodes on a common path. *)
Lemma writes_on_common_path P C x y :
  rectangular P →
  (∃ t, t ∈ loop_indices (length P) (n_cols P) ∧ writes P C t x y)
  ↔ on_common_path P C x y.
Proof.
  intros Hrect. split.
  - intros ([[i j] k] & _ & conn & Hconn & Hk & Hx & Hy).
    exists i, j, k, conn. eauto.
  - intros (r & a & b & conn & Hx & Hy & Hconn & Hb).
    exists (r, a, b). split; [|exists conn; eauto].
    apply elem_of_loop_indices.
    destruct (get2_rectangular _ _ _ _ Hrect Hx).
    destruct (get2_rectangular _ _ _ _ Hrect Hy). lia.
Qed.

(** C3. filter_by_path returns a matrix of the shape of the score matrix:
    the entry at [(x, y)] is the score's entry when some path row holds [x]
    and [y] at an allowed pair of labels, and 0 otherwise - also when the
    score there is positive.  The inputs are arrays that fit: the paths are
    an ndarray of nodes of the square score matrix, and every label of a
    path is a key of the part connections. *)
Theorem filter_by_path_keeps_linked_scores
    (S : matrix float) (P : matrix nat) (C : gmap nat (gmap nat float)) :
  rectangular P →
  (∀ j, j < n_cols P → is_Some (C !! j)) →
  (∀ r a x, get2 P r a = Some x → x < length S) →
  Forall (fun row => length row = length S) S →
  ∃ S', filter_by_path S P C = Some S' ∧
        shape S' = shape S ∧
        ∀ x y,
          (on_common_path P C x y → get2 S' x y = get2 S x y) ∧
          (¬ on_common_path P C x y →
           get2 S' x y = (fun _ => fzero) <$> get2 S x y).
Proof.
  intros Hrect Hkeys Hnodes Hsquare. rewrite filter_by_path_unfold.
  destruct (for_each_is_Some (fun s => shape s = shape S)
              (loop_indices (length P) (n_cols P)) (zeros_like S)
              (copy_link S P C)) as (S' & Hrun & Hsh).
  { apply shape_zeros_like. }
  { intros [[i j] k] s1 (Hi & Hj & Hk)%elem_of_loop_indices Hsh1.
    unfold copy_link. destruct (Hkeys j Hj) as [conn ->]. simpl.
    case_bool_decide; [|eauto].
    destruct (get2_lt_is_Some P i j Hrect Hi Hj) as [a Ha].
    destruct (get2_lt_is_Some P i k Hrect Hi Hk) as [b Hb].
    rewrite Ha, Hb. simpl.
    assert (is_Some (get2 S a b)) as [v Hv].
    { pose proof (Hnodes _ _ _ Ha) as Hlta. pose proof (Hnodes _ _ _ Hb) as Hltb.
      apply lookup_lt_is_Some in Hlta as [row Hrow]. unfold get2.
      rewrite Hrow. simpl. apply lookup_lt_is_Some.
      rewrite Forall_lookup in Hsquare. by rewrite (Hsquare a row Hrow). }
    rewrite Hv. simpl. eexists. split; [done|]. by rewrite shape_set2. }
  exists S'. split; [done|]. split; [done|].
  destruct (copy_links_spec S P C _ _ _ Hrun (shape_zeros_like S)) as [_ Hent].
  intros x y. destruct (Hent x y) as [Hyes Hno]. split.
  - intros Hon. apply Hyes. by apply writes_on_common_path.
  - intros Hoff. rewrite Hno; [apply get2_zeros_like|].
    intros Hw. apply Hoff. by apply writes_on_common_path.
Qed.

(** C7. Filtering a filtered matrix again changes nothing; when the first
    call raises, so does the composition. *)
Theorem filter_by_path_idempotent
    (S : matrix float) (P : matrix nat) (C : gmap nat (gmap nat float)) :
  (S' ← filter_by_path S P C; filter_by_path S' P C) = filter_by_path S P C.
Proof.
  destruct (filter_by_path S P C) as [S'|] eqn:Hrun; simpl; [|done].
  rewrite filter_by_path_unfold in Hrun |- *.
  destruct (copy_links_spec S P C _ _ _ Hrun (shape_zeros_like S))
    as [Hsh Hent].
  rewrite (zeros_like_shape S' S Hsh), <- Hrun.
  apply for_each_ext. intros s [[i j] k] Hin. unfold copy_link.
  destruct (C !! j) as [conn|] eqn:Hconn; simpl; [|done].
  case_bool_decide as Hk; [|done].
  destruct (get2 P i j) as [a|] eqn:Ha; simpl; [|done].
  destruct (get2 P i k) as [b|] eqn:Hb; simpl; [|done].
  destruct (Hent a b) as [Hyes _]. rewrite Hyes; [done|].
  exists (i, j, k). split; [done|]. exists conn. eauto.
Qed.

Example filter_by_path_example :
  filter_by_path example_scores example_paths example_connections
  = Some [[Fin 0; Fin 2; Fin 0]; [Fin 0; Fin 0; Fin 0]; [Fin 0; Fin 0; Fin 0]].
Proof. vm_compute. reflexivity. Qed.

(** A label of the path without a key raises KeyError. *)
Example filter_by_path_missing_key :
  filter_by_path example_scores example_paths {[ 0 := {[ 1 := Fin 10 ]} ]}
  = None.
Proof. vm_compute. reflexivity. Qed.

Lemma filter_by_path_keeps_linked_scores_witness :
  ∃ S', filter_by_path example_scores example_paths example_connections
        = Some S' ∧
        shape S' = shape example_scores ∧
        ∀ x y,
          (on_common_path example_paths example_connections x y →
           get2 S' x y = get2 example_scores x y) ∧
          (¬ on_common_path example_paths example_connections x y →
           get2 S' x y = (fun _ => fzero) <$> get2 example_scores x y).
Proof.
  apply (filter_by_path_keeps_linked_scores
           example_scores example_paths example_connections).
  - repeat constructor.
  - intros [|[|j]] Hj; [by eexists..|simpl in Hj; lia].
  - intros [|r] [|[|a]] x; cbn; intros [= <-]; lia.
  - repeat constructor.
Defined.

(** ** The order on floats *)

Lemma fle_trans x y z : fle x y = true → fle y z = true → fle x z = true.
Proof.
  destruct x as [a| | |], y as [b| | |], z as [c| | |]; simpl; try done.
  rewrite !Qle_bool_iff. apply Qle_trans.
Qed.

Lemma fle_total x y :
  is_finite x = true → is_finite y = true → fle x y = true ∨ fle y x = true.
Proof.
  destruct x as [a| | |], y as [b| | |]; simpl; try done. intros _ _.
  rewrite !Qle_bool_iff. destruct (Qlt_le_dec a b) as [H|H]; [left|right]; [|done].
  by apply Qlt_le_weak.
Qed.


Lemma feq_fle x y : feq x y = fle x y && fle y x.
Proof.
  destruct x as [a| | |], y as [b| | |]; simpl; try done.
  apply eq_true_iff_eq. rewrite andb_true_iff, Qeq_bool_iff, !Qle_bool_iff.
  split; [intros ->; split; apply Qle_refl | intros [? ?]; by apply Qle_antisym].
Qed.


Lemma flt_true_fle m v : flt m v = true → fle m v = true.
Proof. unfold flt. by intros [? _]%andb_true_iff. Qed.






(** ** argmax *)



(** ** The pairs of paths *)






(** A loop whose body keeps an invariant and never raises under it ends,
    with the invariant. *)
Lemma for_each_total_from {S X} (I : list X -> S -> Prop) all
    (body : S -> X -> option S) :
  (∀ pre x s1, x ∈ all → I pre s1 →
               ∃ s2, body s1 x = Some s2 ∧ I (pre ++ [x]) s2) →
  ∀ xs pre s,
    xs ⊆ all → I pre s → ∃ s', for_each xs s body = Some s' ∧ I (pre ++ xs) s'.
Proof.
  intros Hstep. induction xs as [|x xs IH]; intros pre s Hsub Hpre; simpl.
  - exists s. by rewrite app_nil_r.
  - destruct (Hstep pre x s) as (s2 & -> & Hs2); [set_solver|done|]. simpl.
    replace (pre ++ x :: xs) with ((pre ++ [x]) ++ xs)
      by (by rewrite <- app_assoc).
    apply IH; [set_solver|done].
Qed.

Lemma for_each_total {S X} (I : list X -> S -> Prop) xs s
    (body : S -> X -> option S) :
  I [] s →
  (∀ pre x s1, x ∈ xs → I pre s1 →
               ∃ s2, body s1 x = Some s2 ∧ I (pre ++ [x]) s2) →
  ∃ s', for_each xs s body = Some s' ∧ I xs s'.
Proof. intros Hinit Hstep. by apply (for_each_total_from I xs body Hstep xs []). Qed.

(** ** Sphere voting *)

Lemma replicate_fmap_seq {A} (c : A) a n :
  replicate n c = (fun _ => c) <$> seq a n.
Proof. revert a. induction n as [|n IH]; intros a; simpl; [done|]. by f_equal. Qed.

Lemma zip_with_fmap_seq {A B C} (op : A -> B -> C) (f : nat -> A) (row : list B)
    (g : nat -> B) a n :
  length row = n →
  (∀ k v, row !! k = Some v → g (a + k) = v) →
  zip_with op (f <$> seq a n) row = (fun x => op (f x) (g x)) <$> seq a n.
Proof.
  revert a row. induction n as [|n IH]; intros a [|v row] Hlen Hg;
    simpl in *; try done.
  f_equal.
  - f_equal. rewrite <- (Hg 0 v eq_refl). f_equal. lia.
  - apply IH; [lia|]. intros k w Hk. rewrite <- (Hg (S k) w Hk). f_equal. lia.
Qed.

Lemma inside_spheres_spec D path r :
  Forall (fun row => length row = length D) D →
  Forall (fun j => j < length D) path →
  inside_spheres D path r
  = Some (in_spheres_of D path r <$> range (length D)).
Proof.
  intros Hsq Hpath. unfold inside_spheres.
  destruct (for_each_total
    (fun pre s => s = in_spheres_of D pre r <$> range (length D)) path
    (replicate (length D) false)
    (fun in_spheres i =>
       distances ← D !! i;
       np_or in_spheres ((fun d => fle d r) <$> distances)))
    as (s' & -> & ->); [| |done].
  - apply replicate_fmap_seq.
  - intros pre i s1 Hi ->. rewrite Forall_forall in Hpath.
    destruct (lookup_lt_is_Some_2 D i (Hpath i Hi)) as [row Hrow].
    rewrite Hrow. simpl. rewrite Forall_lookup in Hsq.
    pose proof (Hsq i row Hrow) as Hlen. eexists. split; [|done].
    unfold np_or, range. rewrite !length_fmap, length_seq, Hlen.
    rewrite bool_decide_eq_true_2 by done. f_equal.
    rewrite (zip_with_fmap_seq orb _ _
               (fun x => match get2 D i x with
                         | Some d => fle d r
                         | None => false
                         end) 0 (length D)).
    + apply list_fmap_ext. intros _ x _. unfold in_spheres_of.
      rewrite existsb_app. simpl. by rewrite orb_false_r.
    + by rewrite length_fmap.
    + intros k v Hk. simpl. unfold get2. rewrite Hrow. simpl.
      rewrite list_lookup_fmap in Hk. by destruct (row !! k); simplify_eq/=.
Qed.

Lemma mapM_fmap_total {A B} (f : A -> option B) (g : A -> B) l :
  (∀ x, x ∈ l → f x = Some (g x)) → mapM f l = Some (g <$> l).
Proof.
  intros Hf. apply mapM_Some. induction l as [|x l IH]; simpl; constructor.
  - apply Hf. by left.
  - apply IH. intros y Hy. apply Hf. by right.
Qed.





Section select_best_feet_facts.
Variables (dists scores : matrix float) (paths : matrix nat).
Variable radii : list float.
Hypothesis dists_square : Forall (fun row => length row = length dists) dists.
Hypothesis scores_square :
  Forall (fun row => length row = length scores) scores.
Hypothesis same_points : length dists = length scores.
Hypothesis scores_finite :
  Forall (Forall (fun v => is_finite v = true)) scores.
Hypothesis paths_nodes : Forall (Forall (fun j => j < length dists)) paths.


End select_best_feet_facts.

(** A loop over [range(n)] with an invariant indexed by the number of runs
    of the body. *)
Lemma for_range_total {St} (I : nat -> St -> Prop) n s
    (body : St -> nat -> option St) :
  I 0 s →
  (∀ k s1, k < n → I k s1 → ∃ s2, body s1 k = Some s2 ∧ I (k + 1) s2) →
  ∃ s', for_each (range n) s body = Some s' ∧ I n s'.
Proof.
  intros Hinit Hstep. unfold range.
  cut (∀ m a s, a + m = n → I a s →
                ∃ s', for_each (seq a m) s body = Some s' ∧ I n s').
  { intros H. by apply (H n 0 s). }
  clear s Hinit. induction m as [|m IH]; intros a s Ham Hs; simpl.
  - exists s. split; [done|]. by replace n with a by lia.
  - destruct (Hstep a s) as (s2 & -> & Hs2); [lia|done|]. simpl.
    apply IH; [lia|]. by replace (S a) with (a + 1) by lia.
Qed.


Lemma zip_with_fmap_same {A B C D} (op : B -> C -> D) (g : A -> B)
    (h : A -> C) (l : list A) :
  zip_with op (g <$> l) (h <$> l) = (fun x => op (g x) (h x)) <$> l.
Proof. induction l as [|x l IH]; simpl; [done|]. by f_equal. Qed.





(** The pairs (0, 2) and (1, 2) both win all three radii, the pair (0, 1)
    wins the last one only: the first of the two tied pairs is returned. *)
Example select_best_feet_example :
  select_best_feet example_dists example_foot_scores example_foot_paths
                   example_radii = Some (0, 2)
  ∧ (fun c => total_votes example_dists example_foot_scores
                          example_foot_paths example_radii c)
    <$> [(0, 1); (0, 2); (1, 2)] = [1; 3; 3].
Proof. split; vm_compute; reflexivity. Qed.


(** ** paths_to_foot *)

(** A loop over [enumerate(l)] that computes two values per element and
    stores them at the element's index raises when one of the computations
    does, and otherwise fills both arrays. *)
Lemma fill_two_slots {X B C} (f : X -> option (B * C)) (l : list X)
    (bs : list B) (cs : list C) :
  length bs = length l → length cs = length l →
  for_each (enumerate l) (bs, cs)
    (fun '(bs, cs) '(i, x) =>
       bc ← f x; Some (<[i := bc.1]> bs, <[i := bc.2]> cs))
  = (rows ← mapM f l; Some (rows.*1, rows.*2)).
Proof.
  intros Hb Hc. unfold enumerate.
  cut (∀ l pre1 pre2 t1 t2,
         length pre1 = length pre2 →
         length t1 = length l → length t2 = length l →
         for_each (zip (seq (length pre1) (length l)) l) (pre1 ++ t1, pre2 ++ t2)
           (fun '(bs, cs) '(i, x) =>
              bc ← f x; Some (<[i := bc.1]> bs, <[i := bc.2]> cs))
         = (rows ← mapM f l; Some (pre1 ++ rows.*1, pre2 ++ rows.*2))).
  { intros H. by apply (H l [] [] bs cs). }
  clear. induction l as [|x l IH]; intros pre1 pre2 [|b t1] [|c t2] Hpre H1 H2;
    simpl in *; try done.
  destruct (f x) as [[b' c']|]; simpl; [|done].
  replace (length pre1) with (length pre1 + 0) at 2 by lia.
  rewrite insert_app_r. rewrite Hpre at 2.
  replace (length pre2) with (length pre2 + 0) at 1 by lia.
  rewrite insert_app_r. simpl.
  replace (pre1 ++ b' :: t1) with ((pre1 ++ [b']) ++ t1)
    by (by rewrite <- app_assoc).
  replace (pre2 ++ c' :: t2) with ((pre2 ++ [c']) ++ t2)
    by (by rewrite <- app_assoc).
  replace (S (length pre1)) with (length (pre1 ++ [b']))
    by (rewrite length_app; simpl; lia).
  rewrite IH by (rewrite ?length_app; simpl; lia).
  destruct (mapM f l) as [rows|]; simpl; [|done].
  by rewrite <- !app_assoc.
Qed.

Lemma mapM_fmap_compose {A B C} (f : A -> option B) (g : B -> C) l :
  mapM (fun x => g <$> f x) l = fmap g <$> mapM f l.
Proof.
  induction l as [|x l IH]; simpl; [done|]. rewrite IH.
  destruct (f x); simpl; [|done]. by destruct (mapM f l).
Qed.

Lemma assign_row_fmap {A B} (g : A -> B) width (values : list A) :
  assign_row width (g <$> values)
  = (fun row : list A => g <$> row) <$> assign_row width values.
Proof.
  unfold assign_row. rewrite length_fmap. case_bool_decide; [done|].
  destruct values as [|x [|y values]]; simpl; [done| |done].
  by rewrite fmap_replicate.
Qed.

Lemma astype_int_Some (m : matrix nat) :
  astype_int ((fun row : list nat => Some <$> row) <$> m) = m.
Proof.
  unfold astype_int. rewrite <- list_fmap_compose.
  rewrite <- (list_fmap_id m) at 2. apply list_fmap_ext. intros _ row _.
  simpl. rewrite <- list_fmap_compose. by rewrite list_fmap_id.
Qed.

(** paths_to_foot computes [foot_row] for every foot, in index order, and
    raises as soon as one of them raises. *)
Lemma paths_to_foot_unfold trace_path prev dist labels :
  paths_to_foot trace_path prev dist labels
  = (max_label ← max_of labels;
     rows ← mapM (foot_row trace_path prev dist max_label)
                 (np_where_eq labels max_label);
     Some (rows.*1, rows.*2)).
Proof.
  unfold paths_to_foot. destruct (max_of labels) as [max_label|]; simpl; [|done].
  set (feet := np_where_eq labels max_label).
  set (f := fun foot : nat =>
              path ← trace_path prev foot;
              row ← assign_row (max_label + 1) (Some <$> path);
              d ← dist !! foot;
              Some (row, d)).
  rewrite (for_each_ext _ _ _
             (fun '(bs, cs) '(i, x) =>
                bc ← f x; Some (<[i := bc.1]> bs, <[i := bc.2]> cs))).
  2:{ intros [bs cs] [i foot] _. unfold f.
      destruct (trace_path prev foot) as [path|]; simpl; [|done].
      destruct (assign_row _ _) as [row|]; simpl; [|done].
      by destruct (dist !! foot). }
  rewrite fill_two_slots by (by rewrite length_replicate).
  assert (mapM (foot_row trace_path prev dist max_label) feet
          = fmap (fun bc : list (option nat) * float =>
                    (default 0 <$> bc.1, bc.2)) <$> mapM f feet) as ->.
  { rewrite <- mapM_fmap_compose. apply mapM_ext. intros foot.
    unfold foot_row, f. destruct (trace_path prev foot) as [path|]; simpl; [|done].
    rewrite assign_row_fmap.
    destruct (assign_row (max_label + 1) path) as [row|]; simpl; [|done].
    destruct (dist !! foot); simpl; [|done].
    rewrite <- list_fmap_compose. by rewrite list_fmap_id. }
  destruct (mapM f feet) as [rows|]; simpl; [|done].
  f_equal. f_equal.
  - unfold astype_int. rewrite <- !list_fmap_compose. done.
  - by rewrite <- list_fmap_compose.
Qed.

Lemma mapM_length {A B} (f : A -> option B) l k :
  mapM f l = Some k → length k = length l.
Proof. intros H%mapM_Some. symmetry. by eapply Forall2_length. Qed.

Lemma mapM_lookup_Some {A B} (f : A -> option B) l k i x :
  mapM f l = Some k → l !! i = Some x → ∃ y, k !! i = Some y ∧ f x = Some y.
Proof.
  intros H%mapM_Some Hx. destruct (Forall2_lookup_l _ _ _ _ _ H Hx) as (y & ? & ?).
  eauto.
Qed.

Lemma assign_row_same_length {A} width (values : list A) :
  length values = width → assign_row width values = Some values.
Proof. intros H. unfold assign_row. by rewrite bool_decide_eq_true_2. Qed.

(** C4, as the code has it.  paths_to_foot returns one row per node with
    the largest label, in index order: the row of a foot is the path that
    trace_path gives for it, and its distance is [dist[foot]].  No row is
    dropped: when trace_path raises for one foot, paths_to_foot raises.  It
    returns whenever every foot has a path with one node per label and a
    distance. *)
Theorem paths_to_foot_one_row_per_foot
    (trace_path : gmap nat (option nat) -> nat -> option (list nat))
    (prev : gmap nat (option nat)) (dist : gmap nat float) (labels : list nat) :
  (∀ path_matrix path_dist,
     paths_to_foot trace_path prev dist labels = Some (path_matrix, path_dist) →
     ∃ max_label,
       max_of labels = Some max_label ∧
       length path_matrix = length (np_where_eq labels max_label) ∧
       length path_dist = length (np_where_eq labels max_label) ∧
       ∀ i foot, np_where_eq labels max_label !! i = Some foot →
         ∃ path row d,
           trace_path prev foot = Some path ∧
           assign_row (max_label + 1) path = Some row ∧
           dist !! foot = Some d ∧
           path_matrix !! i = Some row ∧ path_dist !! i = Some d)
  ∧ (∀ max_label foot,
       max_of labels = Some max_label →
       foot ∈ np_where_eq labels max_label →
       trace_path prev foot = None →
       paths_to_foot trace_path prev dist labels = None)
  ∧ (∀ max_label,
       max_of labels = Some max_label →
       (∀ foot, foot ∈ np_where_eq labels max_label →
          ∃ path, trace_path prev foot = Some path ∧
                  length path = max_label + 1 ∧ is_Some (dist !! foot)) →
       is_Some (paths_to_foot trace_path prev dist labels)).
Proof.
  rewrite paths_to_foot_unfold. split; [|split].
  - intros pm pd Hrun. destruct (max_of labels) as [max_label|]; [|done].
    simpl in Hrun. exists max_label. split; [done|].
    destruct (mapM _ _) as [rows|] eqn:Hrows; [|done].
    injection Hrun as <- <-. rewrite !length_fmap.
    split; [by eapply mapM_length|]. split; [by eapply mapM_length|].
    intros i foot Hfoot.
    destruct (mapM_lookup_Some _ _ _ _ _ Hrows Hfoot) as ([row d] & Hi & Hf).
    unfold foot_row in Hf.
    destruct (trace_path prev foot) as [path|]; [|done]. simpl in Hf.
    destruct (assign_row (max_label + 1) path) as [row'|] eqn:Hrow; [|done].
    simpl in Hf. destruct (dist !! foot) as [d'|]; [|done].
    injection Hf as -> ->. exists path, row, d.
    by rewrite !list_lookup_fmap, Hi.
  - intros max_label foot -> Hfoot Htrace. simpl.
    rewrite (proj2 (mapM_None _ _)); [done|].
    apply Exists_exists. exists foot. split; [done|].
    unfold foot_row. by rewrite Htrace.
  - intros max_label -> Hfeet. simpl.
    destruct (mapM_is_Some_2 (foot_row trace_path prev dist max_label)
                (np_where_eq labels max_label)) as [rows ->]; [|done].
    apply Forall_forall. intros foot Hfoot. simpl. unfold foot_row.
    destruct (Hfeet foot Hfoot) as (path & -> & Hlen & [d ->]). simpl.
    by rewrite assign_row_same_length.
Qed.

Example paths_to_foot_docstring :
  paths_to_foot (trace_path_of_spec (has_label_0 docstring_labels))
                docstring_prev docstring_dist docstring_labels
  = Some ([[0; 1; 2; 3; 4]; [0; 1; 2; 3; 5]], [of_Z 11; of_Z 10]).
Proof. vm_compute. reflexivity. Qed.

(** The path to the first foot is whole and the path to the second one is
    broken.  paths_to_foot does not return the one whole row: with the
    trace_path of the specification it raises, and with no trace_path
    whatsoever does it return a matrix of one row. *)
Lemma paths_to_foot_keeps_broken_row :
  trace_path_of_spec (has_label_0 broken_labels) broken_prev 1 = Some [0; 1]
  ∧ trace_path_of_spec (has_label_0 broken_labels) broken_prev 2 = None
  ∧ paths_to_foot (trace_path_of_spec (has_label_0 broken_labels))
                  broken_prev broken_dist broken_labels = None
  ∧ ¬ ∃ trace_path path_matrix path_dist,
        paths_to_foot trace_path broken_prev broken_dist broken_labels
        = Some (path_matrix, path_dist) ∧ length path_matrix = 1.
Proof.
  split; [by vm_compute|]. split; [by vm_compute|]. split; [by vm_compute|].
  intros (trace_path & pm & pd & Hrun & Hlen).
  rewrite paths_to_foot_unfold in Hrun. simpl in Hrun.
  destruct (foot_row trace_path broken_prev broken_dist 1 1); [|done].
  destruct (foot_row trace_path broken_prev broken_dist 1 2); [|done].
  simpl in Hrun. by injection Hrun as <- <-.
Qed.

(** ** foot_to_pop *)

(** What a run of foot_to_pop that returns has done: it read the
    population, allocated two arrays right after each other, and wrote the
    head row into both. *)
Lemma foot_to_pop_Some population P pd f1 f2 h l1 l2 h' :
  foot_to_pop population P pd f1 f2 h = Some ((l1, l2), h') →
  ∃ contents path_1 path_2 rows_1 rows_2 k min_path node values old_1 old_2
    row_1 row_2,
    h !! population = Some contents ∧
    P !! f1 = Some path_1 ∧ P !! f2 = Some path_2 ∧
    mapM (fun i => contents !! i) path_1 = Some rows_1 ∧
    mapM (fun i => contents !! i) path_2 = Some rows_2 ∧
    np_argmin pd = Some k ∧ P !! k = Some min_path ∧
    min_path !! 0 = Some node ∧ contents !! node = Some values ∧
    rows_1 !! 0 = Some old_1 ∧ rows_2 !! 0 = Some old_2 ∧
    assign_row (length old_1) values = Some row_1 ∧
    assign_row (length old_2) values = Some row_2 ∧
    l1 = fresh (dom h) ∧ l2 = fresh (dom (<[l1 := rows_1]> h)) ∧
    h' = <[l2 := <[0 := row_2]> rows_2]>
           (<[l1 := <[0 := row_1]> rows_1]> (<[l2 := rows_2]> (<[l1 := rows_1]> h))).
Proof.
  unfold foot_to_pop, bind, lift, take_rows, alloc, view_row, write_row, ret.
  intros Hrun.
  destruct (P !! f1) as [path_1|] eqn:Hp1; [|done].
  destruct (P !! f2) as [path_2|] eqn:Hp2; [|done].
  destruct (h !! population) as [contents|] eqn:Hpop; simpl in Hrun; [|done].
  destruct (mapM _ path_1) as [rows_1|] eqn:Hr1; simpl in Hrun; [|done].
  set (l1' := fresh (dom h)) in *.
  assert (l1' ≠ population) as Hl1.
  { intros Heq. apply (is_fresh (dom h)). fold l1'. rewrite Heq.
    apply elem_of_dom. eauto. }
  rewrite lookup_insert_ne in Hrun by done. rewrite Hpop in Hrun.
  simpl in Hrun.
  destruct (mapM _ path_2) as [rows_2|] eqn:Hr2; simpl in Hrun; [|done].
  set (l2' := fresh (dom (<[l1' := rows_1]> h))) in *.
  assert (l2' ≠ population) as Hl2.
  { intros Heq. apply (is_fresh (dom (<[l1' := rows_1]> h))). fold l2'.
    rewrite Heq. apply elem_of_dom. rewrite lookup_insert_ne by done. eauto. }
  assert (l2' ≠ l1') as Hl21.
  { intros Heq. apply (is_fresh (dom (<[l1' := rows_1]> h))). fold l2'.
    rewrite Heq. apply elem_of_dom. rewrite lookup_insert_eq. eauto. }
  destruct (np_argmin pd) as [k|] eqn:Hk; [|done].
  destruct (P !! k) as [min_path|] eqn:Hmin; [|done].
  destruct (min_path !! 0) as [node|] eqn:Hnode; [|done].
  assert (<[l2' := rows_2]> (<[l1' := rows_1]> h) !! population
          = Some contents) as Hpop2
    by (by rewrite !lookup_insert_ne by done).
  assert (<[l2' := rows_2]> (<[l1' := rows_1]> h) !! l1' = Some rows_1)
    as Hl1rows
    by (by rewrite lookup_insert_ne, lookup_insert_eq by done).
  rewrite Hpop2 in Hrun. simpl in Hrun.
  case_decide as Hlt; [|done]. simpl in Hrun.
  rewrite Hpop2 in Hrun. simpl in Hrun.
  destruct (contents !! node) as [values|] eqn:Hvalues; simpl in Hrun; [|done].
  rewrite Hl1rows in Hrun. simpl in Hrun.
  destruct (rows_1 !! 0) as [old_1|] eqn:Hold1; simpl in Hrun; [|done].
  destruct (assign_row (length old_1) values) as [row_1|] eqn:Hrow1;
    simpl in Hrun; [|done].
  rewrite (lookup_insert_ne _ l1' population) in Hrun by done.
  rewrite Hpop2 in Hrun. simpl in Hrun. rewrite Hvalues in Hrun.
  simpl in Hrun.
  rewrite (lookup_insert_ne _ l1' l2'), lookup_insert_eq in Hrun by done.
  simpl in Hrun.
  destruct (rows_2 !! 0) as [old_2|] eqn:Hold2; simpl in Hrun; [|done].
  destruct (assign_row (length old_2) values) as [row_2|] eqn:Hrow2;
    simpl in Hrun; [|done].
  injection Hrun as <- <- <-.
  exists contents, path_1, path_2, rows_1, rows_2, k, min_path, node, values,
    old_1, old_2, row_1, row_2.
  repeat split; done.
Qed.

Lemma fle_total_not_nan x y :
  isnan x = false → isnan y = false → fle x y = true ∨ fle y x = true.
Proof.
  destruct x as [a| | |], y as [b| | |]; simpl; try done; auto.
  intros _ _. by apply (fle_total (Fin a) (Fin b)).
Qed.

Lemma flt_false_fle_not_nan m v :
  isnan m = false → isnan v = false → flt m v = false → fle v m = true.
Proof.
  intros Hm Hv. unfold flt. rewrite feq_fle.
  destruct (fle_total_not_nan m v Hm Hv) as [H|H]; rewrite H; [|done].
  simpl. by destruct (fle v m).
Qed.

Lemma argmin_from_spec l' pre best_i best :
  Forall (fun v => isnan v = false) l' →
  first_min pre best_i → pre !! best_i = Some best →
  first_min (pre ++ l') (argmin_from (length pre) best_i best l').
Proof.
  revert pre best_i best.
  induction l' as [|v l' IH]; intros pre best_i best Hnan Hfm Hbest; simpl.
  - by rewrite app_nil_r.
  - apply Forall_cons in Hnan as [Hv Hnan].
    replace (pre ++ v :: l') with ((pre ++ [v]) ++ l')
      by (by rewrite <- app_assoc).
    replace (S (length pre)) with (length (pre ++ [v]))
      by (rewrite length_app; simpl; lia).
    destruct Hfm as (b & Hb & Hbn & Hlb & Hfirst).
    assert (b = best) as -> by congruence.
    rewrite Hbn, Hv. simpl. destruct (flt v best) eqn:Hlt.
    + apply IH; [done| |by rewrite lookup_app_r, Nat.sub_diag by lia].
      exists v. split; [by rewrite lookup_app_r, Nat.sub_diag by lia|].
      split; [done|]. split.
      * intros j w Hj. apply lookup_app_Some in Hj as [Hj|[_ Hj]].
        -- apply (fle_trans _ best); [by apply flt_true_fle|by eapply Hlb].
        -- apply list_lookup_singleton_Some in Hj as [_ <-].
           destruct (fle_total_not_nan v v Hv Hv); done.
      * intros j w Hj Hw. rewrite lookup_app_l in Hw by done.
        pose proof (Hlb j w Hw) as Hle. unfold flt in *.
        apply andb_true_iff in Hlt as [Hvb Hne]. apply andb_true_iff.
        split; [by apply (fle_trans _ best)|].
        rewrite feq_fle in Hne |- *. rewrite Hvb in Hne. simpl in Hne.
        destruct (fle w v) eqn:Hwv; [|by rewrite andb_false_r].
        by rewrite (fle_trans _ _ _ Hle Hwv) in Hne.
    + apply IH; [done| |by rewrite lookup_app_l by (by eapply lookup_lt_Some)].
      exists best. split.
      { by rewrite lookup_app_l by (by eapply lookup_lt_Some). }
      split; [done|]. split.
      * intros j w Hj. apply lookup_app_Some in Hj as [Hj|[_ Hj]].
        -- by eapply Hlb.
        -- apply list_lookup_singleton_Some in Hj as [_ <-].
           by apply flt_false_fle_not_nan.
      * intros j w Hj Hw. apply lookup_lt_Some in Hb.
        rewrite lookup_app_l in Hw by lia. by eapply Hfirst.
Qed.

Lemma np_argmin_spec l :
  l ≠ [] → Forall (fun v => isnan v = false) l →
  ∃ k, np_argmin l = Some k ∧ first_min l k.
Proof.
  destruct l as [|v l']; [done|]. intros _ [Hv Hnan]%Forall_cons.
  eexists. split; [done|].
  apply (argmin_from_spec l' [v] 0 v); [done| |done].
  exists v. split; [done|]. split; [done|]. split.
  - intros j w Hj. apply list_lookup_singleton_Some in Hj as [_ <-].
    destruct (fle_total_not_nan v v Hv Hv); done.
  - intros j w Hj. lia.
Qed.

(** foot_to_pop returns when its reads are in range. *)
Lemma foot_to_pop_run population P pd f1 f2 (h : store) contents path_1 path_2
    rows_1 rows_2 k min_path node values old_1 old_2 row_1 row_2 :
  h !! population = Some contents →
  P !! f1 = Some path_1 → P !! f2 = Some path_2 →
  mapM (fun i => contents !! i) path_1 = Some rows_1 →
  mapM (fun i => contents !! i) path_2 = Some rows_2 →
  np_argmin pd = Some k → P !! k = Some min_path →
  min_path !! 0 = Some node → contents !! node = Some values →
  rows_1 !! 0 = Some old_1 → rows_2 !! 0 = Some old_2 →
  assign_row (length old_1) values = Some row_1 →
  assign_row (length old_2) values = Some row_2 →
  let l1 := fresh (dom h) in
  let l2 := fresh (dom (<[l1 := rows_1]> h)) in
  foot_to_pop population P pd f1 f2 h
  = Some ((l1, l2),
          <[l2 := <[0 := row_2]> rows_2]>
            (<[l1 := <[0 := row_1]> rows_1]>
               (<[l2 := rows_2]> (<[l1 := rows_1]> h)))).
Proof.
  intros Hpop Hp1 Hp2 Hr1 Hr2 Hk Hmin Hnode Hvalues Hold1 Hold2 Hrow1 Hrow2
    l1 l2.
  assert (l1 ≠ population) as Hl1.
  { intros Heq. apply (is_fresh (dom h)). fold l1. rewrite Heq.
    apply elem_of_dom. eauto. }
  assert (l2 ≠ population) as Hl2.
  { intros Heq. apply (is_fresh (dom (<[l1 := rows_1]> h))). fold l2.
    rewrite Heq. apply elem_of_dom. rewrite lookup_insert_ne by done. eauto. }
  assert (l2 ≠ l1) as Hl21.
  { intros Heq. apply (is_fresh (dom (<[l1 := rows_1]> h))). fold l2.
    rewrite Heq. apply elem_of_dom. rewrite lookup_insert_eq. eauto. }
  assert (<[l2 := rows_2]> (<[l1 := rows_1]> h) !! population
          = Some contents) as Hpop2
    by (by rewrite !lookup_insert_ne by done).
  assert (<[l2 := rows_2]> (<[l1 := rows_1]> h) !! l1 = Some rows_1)
    as Hl1rows
    by (by rewrite lookup_insert_ne, lookup_insert_eq by done).
  unfold foot_to_pop, bind, lift, take_rows, alloc, view_row, write_row, ret.
  rewrite Hp1, Hp2, Hpop. simpl. rewrite Hr1. simpl. fold l1.
  rewrite (lookup_insert_ne _ l1 population) by done. rewrite Hpop. simpl.
  rewrite Hr2. simpl. fold l2. rewrite Hk, Hmin, Hnode, Hpop2. simpl.
  rewrite decide_True by (by eapply lookup_lt_Some). simpl.
  rewrite Hpop2. simpl. rewrite Hvalues. simpl. rewrite Hl1rows. simpl.
  rewrite Hold1. simpl. rewrite Hrow1. simpl.
  rewrite (lookup_insert_ne _ l1 population) by done. rewrite Hpop2. simpl.
  rewrite Hvalues. simpl.
  rewrite (lookup_insert_ne _ l1 l2), lookup_insert_eq by done. simpl.
  rewrite Hold2. simpl. by rewrite Hrow2.
Qed.

Lemma take_rows_lookup (contents : matrix float) path rows j node :
  mapM (fun i => contents !! i) path = Some rows →
  path !! j = Some node → rows !! j = contents !! node.
Proof.
  intros Hrows Hj.
  destruct (mapM_lookup_Some _ _ _ _ _ Hrows Hj) as (row & -> & Hrow). done.
Qed.

Lemma take_rows_is_Some (contents : matrix float) path :
  Forall (fun j => j < length contents) path →
  ∃ rows, mapM (fun i => contents !! i) path = Some rows.
Proof.
  intros Hpath. apply (mapM_is_Some_2 (fun i => contents !! i)).
  eapply Forall_impl; [done|]. intros j Hj. simpl.
  by apply lookup_lt_is_Some.
Qed.

(** C5. foot_to_pop returns two arrays whose row 0 is the population point
    at the head of the path with the least total distance among all rows of
    the path matrix; every other row [j] is the population point with the
    number found at position [j] of the chosen path.  The inputs are arrays
    that fit: the population is an ndarray, the paths hold point numbers and
    have a head slot, there is a distance per path, none of them NaN. *)
Theorem foot_to_pop_head_of_min_path
    (population : loc) (P : matrix nat) (pd : list float) (f1 f2 : nat)
    (h : store) (contents : matrix float) (path_1 path_2 : list nat) :
  h !! population = Some contents →
  rectangular contents →
  P !! f1 = Some path_1 → P !! f2 = Some path_2 →
  Forall (Forall (fun j => j < length contents)) P →
  Forall (fun path => path ≠ []) P →
  length pd = length P →
  Forall (fun d => isnan d = false) pd →
  ∃ pop_1 pop_2 h' a1 a2 k min_path node head,
    foot_to_pop population P pd f1 f2 h = Some ((pop_1, pop_2), h') ∧
    h' !! pop_1 = Some a1 ∧ h' !! pop_2 = Some a2 ∧
    first_min pd k ∧ P !! k = Some min_path ∧ min_path !! 0 = Some node ∧
    contents !! node = Some head ∧
    a1 !! 0 = Some head ∧ a2 !! 0 = Some head ∧
    length a1 = length path_1 ∧ length a2 = length path_2 ∧
    ∀ j node_j, 0 < j →
      (path_1 !! j = Some node_j → a1 !! j = contents !! node_j) ∧
      (path_2 !! j = Some node_j → a2 !! j = contents !! node_j).
Proof.
  intros Hpop Hrect Hp1 Hp2 Hnodes Hheads Hlen Hnan.
  rewrite Forall_lookup in Hnodes. rewrite Forall_lookup in Hheads.
  destruct (take_rows_is_Some contents path_1 (Hnodes _ _ Hp1)) as [rows_1 Hr1].
  destruct (take_rows_is_Some contents path_2 (Hnodes _ _ Hp2)) as [rows_2 Hr2].
  destruct (np_argmin_spec pd) as (k & Hk & Hmin); [|done|].
  { intros ->. apply lookup_lt_Some in Hp1. simpl in Hlen. lia. }
  assert (is_Some (P !! k)) as [min_path Hminp].
  { apply lookup_lt_is_Some. rewrite <- Hlen.
    destruct Hmin as (v & Hv & _). by eapply lookup_lt_Some. }
  assert (∀ f path, P !! f = Some path → ∃ n0, path !! 0 = Some n0) as Hhead.
  { intros f path Hf. pose proof (Hheads _ _ Hf). destruct path; [done|eauto]. }
  destruct (Hhead _ _ Hminp) as [node Hnode].
  destruct (Hhead _ _ Hp1) as [n1 Hn1]. destruct (Hhead _ _ Hp2) as [n2 Hn2].
  assert (∀ f path n, P !! f = Some path → path !! 0 = Some n →
                      ∃ row, contents !! n = Some row
                             ∧ length row = n_cols contents) as Hrow.
  { intros f path n Hf Hn. pose proof (Hnodes _ _ Hf) as Hlt.
    rewrite Forall_lookup in Hlt. apply Hlt in Hn.
    apply lookup_lt_is_Some in Hn as [row Hrow]. exists row. split; [done|].
    unfold rectangular in Hrect. rewrite Forall_lookup in Hrect. eauto. }
  destruct (Hrow _ _ _ Hminp Hnode) as (head & Hhd & Hwidth).
  destruct (Hrow _ _ _ Hp1 Hn1) as (old_1 & Ho1 & Hw1).
  destruct (Hrow _ _ _ Hp2 Hn2) as (old_2 & Ho2 & Hw2).
  pose proof (take_rows_lookup _ _ _ _ _ Hr1 Hn1) as Hold1.
  pose proof (take_rows_lookup _ _ _ _ _ Hr2 Hn2) as Hold2.
  rewrite Ho1 in Hold1. rewrite Ho2 in Hold2.
  pose proof (foot_to_pop_run population P pd f1 f2 h contents path_1 path_2
    rows_1 rows_2 k min_path node head old_1 old_2 head head
    Hpop Hp1 Hp2 Hr1 Hr2 Hk Hminp Hnode Hhd Hold1 Hold2
    (assign_row_same_length (length old_1) head (eq_trans Hwidth (eq_sym Hw1)))
    (assign_row_same_length (length old_2) head (eq_trans Hwidth (eq_sym Hw2))))
    as Hrun.
  simpl in Hrun.
  set (l1 := fresh (dom h)) in *.
  set (l2 := fresh (dom (<[l1 := rows_1]> h))) in *.
  assert (l2 ≠ l1) as Hl21.
  { intros Heq. apply (is_fresh (dom (<[l1 := rows_1]> h))). fold l2.
    rewrite Heq. apply elem_of_dom. rewrite lookup_insert_eq. eauto. }
  exists l1, l2. eexists. exists (<[0 := head]> rows_1), (<[0 := head]> rows_2).
  exists k, min_path, node, head. split; [exact Hrun|].
  split; [by rewrite lookup_insert_ne, lookup_insert_eq by done|].
  split; [by rewrite lookup_insert_eq|].
  do 4 (split; [done|]).
  split; [apply list_lookup_insert_eq; by eapply lookup_lt_Some|].
  split; [apply list_lookup_insert_eq; by eapply lookup_lt_Some|].
  split; [rewrite length_insert; by eapply mapM_length|].
  split; [rewrite length_insert; by eapply mapM_length|].
  intros j node_j Hj. split; intros Hpj.
  - rewrite list_lookup_insert_ne by lia. by eapply take_rows_lookup.
  - rewrite list_lookup_insert_ne by lia. by eapply take_rows_lookup.
Qed.

(** The feet 0 and 2 are chosen; both skeletons get the head of the path
    to the foot 1, and the population stays as it was. *)
Example foot_to_pop_example :
  foot_to_pop 7 example_head_paths example_path_dist 0 2 example_store
  = Some ((8, 9),
          {[ 7 := example_population;
             8 := (fun row : list Z => of_Z <$> row) <$>
                  [[1; 0; 0]; [0; 0; 10]]%Z;
             9 := (fun row : list Z => of_Z <$> row) <$>
                  [[1; 0; 0]; [1; 0; 12]]%Z ]}).
Proof. vm_compute. reflexivity. Qed.

Lemma foot_to_pop_head_of_min_path_witness :
  ∃ pop_1 pop_2 h' a1 a2 k min_path node head,
    foot_to_pop 7 example_head_paths example_path_dist 0 2 example_store
    = Some ((pop_1, pop_2), h') ∧
    h' !! pop_1 = Some a1 ∧ h' !! pop_2 = Some a2 ∧
    first_min example_path_dist k ∧
    example_head_paths !! k = Some min_path ∧ min_path !! 0 = Some node ∧
    example_population !! node = Some head ∧
    a1 !! 0 = Some head ∧ a2 !! 0 = Some head ∧
    length a1 = length [0; 2] ∧ length a2 = length [1; 4] ∧
    ∀ j node_j, 0 < j →
      ([0; 2] !! j = Some node_j → a1 !! j = example_population !! node_j) ∧
      ([1; 4] !! j = Some node_j → a2 !! j = example_population !! node_j).
Proof.
  apply (foot_to_pop_head_of_min_path 7 example_head_paths example_path_dist
           0 2 example_store example_population [0; 2] [1; 4]).
  - reflexivity.
  - repeat constructor.
  - reflexivity.
  - reflexivity.
  - repeat first [constructor | simpl; lia].
  - repeat constructor; discriminate.
  - reflexivity.
  - repeat constructor.
Defined.

(** ** get_score_matrix *)








(** With the expected length 2 the link from head to foot scores 3/4; the
    pairs without an expected distance score NaN, which becomes 0. *)
Example get_score_matrix_example :
  get_score_matrix cdist_on_axis iterable_to_dict_of_spec
    labelled_nodes_to_graph_of_spec adj_list_to_matrix_of_spec
    two_points two_labels {[ 0 := {[ 1 := of_Z 2 ]}; 1 := ∅ ]}
    (canonical_score fdiv_py)
  = Some ([[Fin 0; Fin (3 # 4)]; [Fin 0; Fin 0]],
          [[Fin 0; Fin 1]; [Fin 1; Fin 0]]).
Proof. vm_compute. reflexivity. Qed.


(** The example of the docstring. *)
Example only_consecutive_labels_docstring :
  only_consecutive_labels
    {[ 0 := {[ 1 := of_Z 6 ]}; 1 := {[ 2 := of_Z 1; 3 := of_Z 3 ]};
       3 := {[ 4 := of_Z 20 ]}; 4 := {[ 5 := of_Z 20 ]} ]}
  = {[ 0 := {[ 1 := of_Z 6 ]}; 1 := {[ 2 := of_Z 1 ]};
       3 := {[ 4 := of_Z 20 ]}; 4 := {[ 5 := of_Z 20 ]} ]}.
Proof. vm_compute. reflexivity. Qed.

(** ** process_frame: the population is only read *)

Lemma fresh_twice_facts (h : store) (c : matrix float) :
  let l1 := fresh (dom h) in
  let l2 := fresh (dom (<[l1 := c]> h)) in
  (l1 ∉ dom h) ∧ (l2 ∉ dom h) ∧ l2 ≠ l1.
Proof.
  intros l1 l2. split; [apply is_fresh|].
  pose proof (is_fresh (dom (<[l1 := c]> h))) as Hfresh. fold l2 in Hfresh.
  rewrite dom_insert in Hfresh. set_solver.
Qed.

(** A run of foot_to_pop that returns has written to two new arrays and to
    nothing else. *)
Lemma foot_to_pop_frame population P pd f1 f2 (h : store) l1 l2 h' :
  foot_to_pop population P pd f1 f2 h = Some ((l1, l2), h') →
  ∃ contents a1 a2,
    h !! population = Some contents ∧
    unified_heads contents P pd f1 f2 a1 a2 ∧
    (l1 ∉ dom h) ∧ (l2 ∉ dom h) ∧ l1 ≠ l2 ∧
    h' !! l1 = Some a1 ∧ h' !! l2 = Some a2 ∧
    ∀ l, l ≠ l1 → l ≠ l2 → h' !! l = h !! l.
Proof.
  intros (contents & path_1 & path_2 & rows_1 & rows_2 & k & min_path & node
          & values & old_1 & old_2 & row_1 & row_2 & Hpop & Hp1 & Hp2 & Hr1
          & Hr2 & Hk & Hmin & Hnode & Hvalues & Hold1 & Hold2 & Hrow1 & Hrow2
          & -> & -> & ->)%foot_to_pop_Some.
  destruct (fresh_twice_facts h rows_1) as (Hl1 & Hl2 & Hne).
  exists contents, (<[0 := row_1]> rows_1), (<[0 := row_2]> rows_2).
  split; [done|]. split.
  { exists path_1, path_2, rows_1, rows_2, k, min_path, node, values, old_1,
      old_2, row_1, row_2. repeat split; done. }
  split; [done|]. split; [done|]. split; [done|].
  split; [by rewrite lookup_insert_ne, lookup_insert_eq by done|].
  split; [by rewrite lookup_insert_eq|].
  intros l Hll1 Hll2. by rewrite !lookup_insert_ne by done.
Qed.

(** foot_to_pop returns the same contents from every store that holds the
    same population. *)
Lemma foot_to_pop_rerun population P pd f1 f2 (h : store) contents a1 a2 :
  h !! population = Some contents →
  unified_heads contents P pd f1 f2 a1 a2 →
  ∃ l1 l2 h',
    foot_to_pop population P pd f1 f2 h = Some ((l1, l2), h') ∧
    h' !! l1 = Some a1 ∧ h' !! l2 = Some a2.
Proof.
  intros Hpop (path_1 & path_2 & rows_1 & rows_2 & k & min_path & node
               & values & old_1 & old_2 & row_1 & row_2 & Hp1 & Hp2 & Hr1
               & Hr2 & Hk & Hmin & Hnode & Hvalues & Hold1 & Hold2 & Hrow1
               & Hrow2 & -> & ->).
  destruct (fresh_twice_facts h rows_1) as (Hl1 & Hl2 & Hne).
  eexists _, _, _. split.
  { by apply (foot_to_pop_run population P pd f1 f2 h contents path_1 path_2
                rows_1 rows_2 k min_path node values old_1 old_2 row_1 row_2). }
  split; [by rewrite lookup_insert_ne, lookup_insert_eq by done|].
  by rewrite lookup_insert_eq.
Qed.

(** C10. A run of process_frame that returns ends in a run of foot_to_pop
    on the same store; it leaves the population, and every other array of
    the store it started from, as they were, and returns two arrays that
    did not exist before.  Run again on the store it left, with the same
    inputs, it returns arrays with the same contents. *)
Theorem process_frame_population_unchanged
    (points_to_graph :
       matrix float -> list nat -> graph ->
       (float -> float -> option float) ->
       option (list (nat * gmap nat float)))
    (dag_shortest_paths :
       list (nat * gmap nat float) -> list nat -> list nat ->
       option (gmap nat (option nat) * gmap nat float))
    (trace_path : gmap nat (option nat) -> nat -> option (list nat))
    (cdist : matrix float -> matrix float -> option (matrix float))
    (iterable_to_dict : list nat -> gmap nat nat)
    (labelled_nodes_to_graph : gmap nat nat -> graph -> option graph)
    (adj_list_to_matrix : graph -> option (matrix float))
    (population : loc) (labels : list nat) (label_adj_list : graph)
    (radii : list float)
    (cost_func score_func : float -> float -> option float)
    (h : store) (pop_1 pop_2 : loc) (h' : store) :
  let run := process_frame points_to_graph dag_shortest_paths trace_path
               cdist iterable_to_dict labelled_nodes_to_graph
               adj_list_to_matrix population labels label_adj_list radii
               cost_func score_func in
  run h = Some ((pop_1, pop_2), h') →
  (∃ path_matrix path_dist foot_1 foot_2,
     foot_to_pop population path_matrix path_dist foot_1 foot_2 h
     = Some ((pop_1, pop_2), h')) ∧
  h' !! population = h !! population ∧
  (∀ l, l ∈ dom h → h' !! l = h !! l) ∧
  (pop_1 ∉ dom h) ∧ (pop_2 ∉ dom h) ∧ pop_1 ≠ pop_2 ∧
  ∃ pop_1' pop_2' h'',
    run h' = Some ((pop_1', pop_2'), h'') ∧
    is_Some (h' !! pop_1) ∧ is_Some (h' !! pop_2) ∧
    h'' !! pop_1' = h' !! pop_1 ∧ h'' !! pop_2' = h' !! pop_2.
Proof.
  intros run Hrun. subst run. unfold process_frame, bind, read, lift in *.
  destruct (h !! population) as [contents|] eqn:Hpop; [|done].
  simpl in Hrun.
  destruct (choose_feet _ _ _ _ _ _ _ _ _ _ _ _ _)
    as [[[[path_matrix path_dist] foot_1] foot_2]|] eqn:Hfeet; [|done].
  destruct (foot_to_pop_frame _ _ _ _ _ _ _ _ _ Hrun)
    as (contents' & a1 & a2 & Hpop' & Hheads & Hl1 & Hl2 & Hne & Ha1 & Ha2
        & Hother).
  assert (contents' = contents) as -> by congruence.
  assert (∀ l, l ∈ dom h → h' !! l = h !! l) as Hframe.
  { intros l Hl. apply Hother; intros ->; done. }
  assert (h' !! population = Some contents) as Hpop2.
  { rewrite Hframe; [done|]. apply elem_of_dom. eauto. }
  split; [by exists path_matrix, path_dist, foot_1, foot_2|].
  split; [congruence|]. do 4 (split; [done|]).
  destruct (foot_to_pop_rerun population path_matrix path_dist foot_1 foot_2
              h' contents a1 a2 Hpop2 Hheads)
    as (l1' & l2' & h'' & Hrun2 & Ha1' & Ha2').
  exists l1', l2', h''. rewrite Hpop2. simpl. rewrite Hfeet.
  split; [done|]. rewrite Ha1, Ha2, Ha1', Ha2'. eauto.
Qed.

Example process_frame_scenario :
  process_frame_of_spec 3 scenario_labels scenario_adj_list [of_Z 1]
    canonical_cost (canonical_score fdiv_py) scenario_store
  = Some ((4, 5), scenario_result).
Proof. vm_compute. reflexivity. Qed.

Lemma process_frame_population_unchanged_witness :
  (∃ path_matrix path_dist foot_1 foot_2,
     foot_to_pop 3 path_matrix path_dist foot_1 foot_2 scenario_store
     = Some ((4, 5), scenario_result)) ∧
  scenario_result !! 3 = scenario_store !! 3 ∧
  (∀ l, l ∈ dom scenario_store → scenario_result !! l = scenario_store !! l) ∧
  (4 ∉ dom scenario_store) ∧ (5 ∉ dom scenario_store) ∧ 4 ≠ 5 ∧
  ∃ pop_1' pop_2' h'',
    process_frame_of_spec 3 scenario_labels scenario_adj_list [of_Z 1]
      canonical_cost (canonical_score fdiv_py) scenario_result
    = Some ((pop_1', pop_2'), h'') ∧
    is_Some (scenario_result !! 4) ∧ is_Some (scenario_result !! 5) ∧
    h'' !! pop_1' = scenario_result !! 4 ∧
    h'' !! pop_2' = scenario_result !! 5.
Proof.
  apply (process_frame_population_unchanged
           points_to_graph_of_spec dag_shortest_paths_of_spec
           (trace_path_of_spec (has_label_0 scenario_labels))
           cdist_on_axis iterable_to_dict_of_spec
           labelled_nodes_to_graph_of_spec adj_list_to_matrix_of_spec
           3 scenario_labels scenario_adj_list [of_Z 1]
           canonical_cost (canonical_score fdiv_py)
           scenario_store 4 5 scenario_result).
  vm_compute. reflexivity.
Defined.

(** ** enforce_consistency *)

Lemma elem_of_enumerate {A} (l : list A) i x :
  (i, x) ∈ enumerate l ↔ l !! i = Some x.
Proof.
  unfold enumerate. rewrite list_elem_of_lookup. split.
  - intros (k & Hk). apply lookup_zip_with_Some in Hk
      as (j & y & [= <- <-] & Hj & Hy).
    apply lookup_seq in Hj as [-> _]. done.
  - intros Hx. exists i. apply lookup_zip_with_Some. exists i, x.
    split; [done|]. split; [|done]. apply lookup_seq.
    split; [done|]. by eapply lookup_lt_Some.
Qed.

Lemma loc_assign_labels frame row (df : data_frame) :
  (loc_assign frame row df).*1 = df.*1.
Proof.
  unfold loc_assign. rewrite <- list_fmap_compose. apply list_fmap_ext.
  intros _ [k r] _. simpl. by case_decide.
Qed.

Lemma loc_assign_lookup_eq frame row (df : data_frame) i old :
  df !! i = Some (frame, old) → loc_assign frame row df !! i = Some (frame, row).
Proof.
  intros Hi. unfold loc_assign. rewrite list_lookup_fmap, Hi. simpl.
  by rewrite decide_True.
Qed.

Lemma loc_assign_lookup_ne frame row (df : data_frame) j k r :
  df !! j = Some (k, r) → k ≠ frame → loc_assign frame row df !! j = Some (k, r).
Proof.
  intros Hj Hk. unfold loc_assign. rewrite list_lookup_fmap, Hj. simpl.
  by rewrite decide_False.
Qed.


Example enforce_consistency_example :
  enforce_consistency 20 [true; false] pass_state
  = Some (21,
          {| arrays := pass_arrays;
             frames :=
               {[ 20 := pass_table;
                  21 := [(10, {| HEAD := 0; L_FOOT := 1; R_FOOT := 2 |});
                         (11, {| HEAD := 0; L_FOOT := 1; R_FOOT := 2 |})] ]}
          |}).
Proof. vm_compute. reflexivity. Qed.


(** ** estimate_lengths *)

Section estimate_lengths_facts.
Variable points_to_graph :
  matrix float -> list nat -> graph -> (float -> float -> option float) ->
  option (list (nat * gmap nat float)).
Variable dag_shortest_paths :
  list (nat * gmap nat float) -> list nat -> list nat ->
  option (gmap nat (option nat) * gmap nat float).
Variable iterable_to_dict : list nat -> gmap nat nat.
Variable min_shortest_path :
  gmap nat (option nat) -> gmap nat float -> gmap nat nat -> nat ->
  option (list nat).
Variable consecutive_dist : matrix float -> option (list float).
Variable pop_series : series (matrix float).
Variable label_series : series (list nat).
Variable cost_func : float -> float -> option float.
Variable n_frames : nat.
Variable eps : float.
Variables (n_lengths : nat) (frames : list nat).

Abbreviation update :=
  (update_lengths points_to_graph dag_shortest_paths iterable_to_dict
     min_shortest_path consecutive_dist pop_series label_series cost_func
     n_frames n_lengths frames).
Abbreviation iterate fuel :=
  (iterate_lengths points_to_graph dag_shortest_paths iterable_to_dict
     min_shortest_path consecutive_dist pop_series label_series cost_func
     n_frames eps fuel n_lengths frames).


End estimate_lengths_facts.



(** What the stop test of the code decides for a threshold between 0 and 1:
    whether some length has not changed at all. *)
Lemma stop_test_unchanged_length lengths prev_lengths (e : Q) :
  (0 < e)%Q → (e <= 1)%Q →
  stop_test lengths prev_lengths (Fin e) = true ↔
  ∃ d, d ∈ fabs <$> zip_with fsub lengths prev_lengths ∧ truthy d = false.
Proof.
  intros Hpos Hle. unfold stop_test, np_all.
  set (diffs := fabs <$> zip_with fsub lengths prev_lengths).
  destruct (forallb truthy diffs) eqn:Hall.
  - split.
    + unfold flt, of_bool, fone. simpl. intros [H1 H2]%andb_true_iff.
      apply Qle_bool_iff in H1. apply negb_true_iff in H2.
      assert (e == 1)%Q as Heq by (by apply Qle_antisym).
      apply Qeq_bool_neq in H2. exfalso. apply H2. by symmetry.
    + intros (d & Hd%list_elem_of_In & Hfalse).
      rewrite forallb_forall in Hall. by rewrite (Hall d Hd) in Hfalse.
  - split; [intros _|intros _].
    + apply not_true_iff_false in Hall. rewrite forallb_forall in Hall.
      destruct (existsb (fun d => negb (truthy d)) diffs) eqn:Hex.
      * apply existsb_exists in Hex as (d & Hd%list_elem_of_In & Hf).
        exists d. split; [done|]. by apply negb_true_iff.
      * exfalso. apply Hall. intros d Hd.
        destruct (truthy d) eqn:Ht; [done|].
        assert (existsb (fun d => negb (truthy d)) diffs = true) as Hc.
        { apply existsb_exists. exists d. by rewrite Ht. }
        congruence.
    + unfold flt, of_bool, fzero. simpl. apply andb_true_iff. split.
      * apply Qle_bool_iff. by apply Qlt_le_weak.
      * apply negb_true_iff. destruct (Qeq_bool 0 e) eqn:Heq; [|done].
        apply Qeq_bool_iff in Heq. rewrite <- Heq in Hpos.
        by apply Qlt_irrefl in Hpos.
Qed.

(** C1 fails on the code.  With eps = 0.01, the loop stops in its first
    iteration with the lengths [60, 0], which differ from the previous
    [0, 0] by 60: the stop test holds because one length has not changed.
    And lengths that have all changed by 0.001 do not stop the loop. *)
Theorem estimate_lengths_stops_on_unchanged_length :
  estimate_lengths_of_spec coincident_pops coincident_labels canonical_cost
                           1 (Fin (1 # 100)) 1
  = Returned [of_Z 60; of_Z 0]
  ∧ stop_test [of_Z 60; of_Z 0] [fzero; fzero] (Fin (1 # 100)) = true
  ∧ all_changed_less [of_Z 60; of_Z 0] [fzero; fzero] (Fin (1 # 100)) = false
  ∧ stop_test [Fin (1 # 1000)] [fzero] (Fin (1 # 100)) = false
  ∧ all_changed_less [Fin (1 # 1000)] [fzero] (Fin (1 # 100)) = true.
Proof. repeat split; vm_compute; reflexivity. Qed.

(** ** only_consecutive_labels *)

Lemma only_consecutive_labels_lookup (g : graph) a :
  only_consecutive_labels g !! a
  = (fun targets : gmap nat float =>
       match targets !! (a + 1) with
       | Some d => {[ a + 1 := d ]}
       | None => ∅
       end) <$> g !! a.
Proof.
  unfold only_consecutive_labels. rewrite map_lookup_imap.
  by destruct (g !! a).
Qed.

Lemma only_consecutive_labels_edge (g : graph) a b :
  (only_consecutive_labels g !! a) ≫= (.!! b)
  = if decide (b = a + 1) then (g !! a) ≫= (.!! b) else None.
Proof.
  rewrite only_consecutive_labels_lookup.
  destruct (g !! a) as [targets|]; simpl; [|by case_decide].
  case_decide as Hb.
  - subst b.
    destruct (targets !! (a + 1)); [by rewrite lookup_singleton_eq|done].
  - destruct (targets !! (a + 1)); [by rewrite lookup_singleton_ne|done].
Qed.

(** X1. only_consecutive_labels keeps every key of the adjacency list;
    under a key [a] it keeps the distance to the label [a + 1], as it was,
    and nothing else; and applying it to its own result changes nothing. *)
Theorem only_consecutive_labels_keeps_next_label (g : graph) :
  dom (only_consecutive_labels g) = dom g
  ∧ (∀ a b, (only_consecutive_labels g !! a) ≫= (.!! b)
            = if decide (b = a + 1) then (g !! a) ≫= (.!! b) else None)
  ∧ only_consecutive_labels (only_consecutive_labels g)
    = only_consecutive_labels g.
Proof.
  split; [|split; [apply only_consecutive_labels_edge|]].
  - apply set_eq. intros a.
    rewrite !elem_of_dom, only_consecutive_labels_lookup.
    by rewrite fmap_is_Some.
  - apply map_eq. intros a. rewrite !only_consecutive_labels_lookup.
    destruct (g !! a) as [targets|]; simpl; [|done]. f_equal.
    destruct (targets !! (a + 1)); [by rewrite lookup_singleton_eq|done].
Qed.

(** ** lengths_to_adj_list *)

Lemma max_of_spec l m :
  max_of l = Some m → m ∈ l ∧ ∀ x, x ∈ l → x ≤ m.
Proof.
  destruct l as [|x xs]; [done|]. simpl. intros [= <-].
  revert x. induction xs as [|y ys IH]; intros x; simpl.
  - split; [left|]. by intros z ->%list_elem_of_singleton.
  - destruct (IH (x `max` y)) as [Hin Hle]. split.
    + apply elem_of_cons in Hin as [Heq|Hin]; [|by do 2 right].
      rewrite Heq. destruct (Nat.max_spec x y) as [[_ ->]|[_ ->]];
        [right; left|left].
    + intros z Hz. apply elem_of_cons in Hz as [->|Hz].
      * etrans; [|apply Hle; left]. lia.
      * apply elem_of_cons in Hz as [->|Hz].
        -- etrans; [|apply Hle; left]. lia.
        -- apply Hle. by right.
Qed.


Lemma lookup_empty_rows (n : nat) u :
  (list_to_map ((fun i : nat => (i, ∅)) <$> range n) : graph) !! u
  = if decide (u < n) then Some ∅ else None.
Proof.
  unfold range. case_decide as Hu.
  - apply elem_of_list_to_map.
    + rewrite <- list_fmap_compose. simpl. rewrite list_fmap_id.
      apply NoDup_seq.
    + apply list_elem_of_fmap. exists u. split; [done|].
      apply elem_of_seq. lia.
  - apply not_elem_of_list_to_map. rewrite <- list_fmap_compose. simpl.
    rewrite list_fmap_id. rewrite elem_of_seq. lia.
Qed.

(** The loop of lengths_to_adj_list over the rows of the connection
    array, from the adjacency list with the keys 0 to [last_part]. *)
Lemma connect_labels (label_connections : matrix nat) (lengths : list float)
    (last_part : nat) :
  Forall (fun row => 2 ≤ length row) label_connections →
  (∀ x, x ∈ concat label_connections → x ≤ last_part) →
  ∃ label_adj_list : graph,
    for_each (range (length label_connections))
      (list_to_map ((fun i : nat => (i, ∅)) <$> range (last_part + 1)))
      (fun (label_adj_list : graph) i =>
         u ← get2 label_connections i 0;
         v ← get2 label_connections i 1;
         targets ← label_adj_list !! u;
         Some (<[u := <[v := py_sum (slice u v lengths)]> targets]>
                 label_adj_list))
    = Some label_adj_list ∧
    (∀ u, is_Some (label_adj_list !! u) ↔ u ≤ last_part) ∧
    ∀ u v x,
      (label_adj_list !! u) ≫= (.!! v) = Some x ↔
      (∃ row, row ∈ label_connections ∧ row !! 0 = Some u ∧ row !! 1 = Some v)
      ∧ x = py_sum (slice u v lengths).
Proof.
  intros Hcols Hle.
  destruct (for_range_total
    (fun k (adj : graph) =>
       (∀ u, is_Some (adj !! u) ↔ u ≤ last_part) ∧
       ∀ u v x,
         (adj !! u) ≫= (.!! v) = Some x ↔
         (∃ i row, i < k ∧ label_connections !! i = Some row ∧
                   row !! 0 = Some u ∧ row !! 1 = Some v)
         ∧ x = py_sum (slice u v lengths))
    (length label_connections)
    (list_to_map ((fun i : nat => (i, ∅)) <$> range (last_part + 1)))
    (fun label_adj_list i =>
       u ← get2 label_connections i 0;
       v ← get2 label_connections i 1;
       targets ← label_adj_list !! u;
       Some (<[u := <[v := py_sum (slice u v lengths)]> targets]>
               label_adj_list)))
    as (adj & Hrun & Hkeys & Hedges).
  - split.
    + intros u. rewrite lookup_empty_rows.
      case_decide; split; intros Hx; try lia; try done; by destruct Hx.
    + intros u v x. rewrite lookup_empty_rows. split.
      * case_decide; simpl; [by rewrite lookup_empty|done].
      * intros [(i & row & Hi & _) _]. lia.
  - intros k adj Hk [Hkeys Hedges].
    destruct (lookup_lt_is_Some_2 label_connections k Hk) as [row Hrow].
    assert (2 ≤ length row) as Hwidth.
    { rewrite Forall_forall in Hcols. apply Hcols.
      by eapply list_elem_of_lookup_2. }
    destruct (lookup_lt_is_Some_2 row 0 ltac:(lia)) as [u Hu].
    destruct (lookup_lt_is_Some_2 row 1 ltac:(lia)) as [v Hv].
    unfold get2. rewrite Hrow. simpl. rewrite Hu, Hv. simpl.
    assert (u ≤ last_part) as Hulast.
    { apply Hle. apply list_elem_of_In, in_concat. exists row.
      split; apply list_elem_of_In; by eapply list_elem_of_lookup_2. }
    destruct (proj2 (Hkeys u) Hulast) as [targets Htargets].
    rewrite Htargets. simpl. eexists. split; [done|]. split.
    + intros u'. destruct (decide (u' = u)) as [->|Hu'].
      * rewrite lookup_insert_eq. split; [done|]. by intros _.
      * rewrite lookup_insert_ne by done. apply Hkeys.
    + intros u' v' x. destruct (decide (u' = u)) as [->|Hu'].
      * rewrite lookup_insert_eq. simpl.
        destruct (decide (v' = v)) as [->|Hv'].
        -- rewrite lookup_insert_eq. split.
           ++ intros [= <-]. split; [|done]. exists k, row.
              split; [lia|done].
           ++ by intros [_ ->].
        -- rewrite lookup_insert_ne by done.
           specialize (Hedges u v' x). rewrite Htargets in Hedges.
           simpl in Hedges. rewrite Hedges. split.
           ++ intros [(i & r & Hi & Hr) ->]. split; [|done].
              exists i, r. split; [lia|done].
           ++ intros [(i & r & Hi & Hr & Hr0 & Hr1) ->]. split; [|done].
              exists i, r. split; [|done].
              destruct (decide (i = k)) as [->|]; [|lia]. congruence.
      * rewrite lookup_insert_ne by done. rewrite Hedges. split.
        -- intros [(i & r & Hi & Hr) ->]. split; [|done].
           exists i, r. split; [lia|done].
        -- intros [(i & r & Hi & Hr & Hr0 & Hr1) ->]. split; [|done].
           exists i, r. split; [|done].
           destruct (decide (i = k)) as [->|]; [|lia]. congruence.
  - exists adj. split; [exact Hrun|]. split; [done|].
    intros u v x. rewrite Hedges. split.
    + intros [(i & row & Hi & Hrow & H0 & H1) ->]. split; [|done].
      exists row. split; [by eapply list_elem_of_lookup_2|done].
    + intros [(row & Hrow & H0 & H1) ->]. split; [|done].
      apply list_elem_of_lookup in Hrow as [i Hi]. exists i, row.
      split; [by eapply lookup_lt_Some|done].
Qed.


Example lengths_to_adj_list_docstring :
  lengths_to_adj_list docstring_connections docstring_lengths
  = Some {[ 0 := {[ 1 := of_Z 62 ]}; 1 := {[ 2 := of_Z 20 ]};
            2 := {[ 3 := of_Z 14 ]}; 3 := {[ 4 := of_Z 19; 5 := of_Z 39 ]};
            4 := {[ 5 := of_Z 20 ]}; 5 := ∅ ]}.
Proof. vm_compute. reflexivity. Qed.


(** A loop that returns has run its body on every element without an
    exception. *)
Lemma for_each_Some_body {St X} (xs : list X) (s s' : St)
    (body : St -> X -> option St) x :
  for_each xs s body = Some s' → x ∈ xs → ∃ s1, is_Some (body s1 x).
Proof.
  revert s. induction xs as [|y ys IH]; intros s Hrun Hx.
  - by apply elem_of_nil in Hx.
  - simpl in Hrun. destruct (body s y) as [s1|] eqn:Hy; [|done].
    apply elem_of_cons in Hx as [->|Hx]; [by exists s; rewrite Hy|].
    by apply (IH s1).
Qed.

Lemma lengths_to_adj_list_Some_shape label_connections lengths adj :
  lengths_to_adj_list label_connections lengths = Some adj →
  label_connections ≠ [] ∧ Forall (fun row => 2 ≤ length row) label_connections.
Proof.
  unfold lengths_to_adj_list. intros Hrun.
  destruct (max_of (concat label_connections)) as [last_part|] eqn:Hmax;
    [|done]. simpl in Hrun. split.
  - intros ->. done.
  - apply Forall_forall. intros row [i Hi]%list_elem_of_lookup.
    destruct (for_each_Some_body _ _ _ _ i Hrun) as [s1 [s2 Hbody]].
    { apply elem_of_seq. split; [lia|]. simpl. by eapply lookup_lt_Some. }
    unfold get2 in Hbody. rewrite Hi in Hbody. simpl in Hbody.
    destruct (row !! 0) eqn:H0; [|done]. simpl in Hbody.
    destruct (row !! 1) eqn:H1; [|done].
    apply lookup_lt_Some in H1. lia.
Qed.

Lemma feq_fadd_zero x : isnan x = false → feq (fadd fzero x) x = true.
Proof.
  destruct x as [q| | |]; try done. intros _. simpl.
  apply Qeq_bool_iff. apply Qplus_0_l.
Qed.

(** X3. When the connection array joins the label [u] to the next label,
    the adjacency list holds the length number [u] as the expected distance
    from [u] to [u + 1], and only_consecutive_labels keeps exactly this
    entry under [u]. *)
Theorem lengths_to_adj_list_next_label
    (label_connections : matrix nat) (lengths : list float)
    (label_adj_list : graph) (row : list nat) (u : nat) (x : float) :
  lengths_to_adj_list label_connections lengths = Some label_adj_list →
  row ∈ label_connections → row !! 0 = Some u → row !! 1 = Some (u + 1) →
  lengths !! u = Some x → isnan x = false →
  ∃ y, (label_adj_list !! u) ≫= (.!! (u + 1)) = Some y ∧
       only_consecutive_labels label_adj_list !! u = Some {[ u + 1 := y ]} ∧
       feq y x = true.
Proof.
  intros Hrun Hrow H0 H1 Hx Hnan.
  destruct (lengths_to_adj_list_Some_shape _ _ _ Hrun) as [Hne Hcols].
  unfold lengths_to_adj_list in Hrun.
  destruct (max_of (concat label_connections)) as [last_part|] eqn:Hmax;
    [|done].
  destruct (max_of_spec _ _ Hmax) as [_ Hle].
  destruct (connect_labels label_connections lengths last_part Hcols Hle)
    as (adj & Hrun' & _ & Hedges).
  simpl in Hrun. rewrite Hrun in Hrun'. injection Hrun' as <-.
  assert (slice u (u + 1) lengths = [x]) as Hslice.
  { unfold slice. replace (u + 1 - u) with 1 by lia.
    rewrite (drop_S _ _ _ Hx). done. }
  exists (py_sum (slice u (u + 1) lengths)).
  assert ((label_adj_list !! u) ≫= (.!! (u + 1))
          = Some (py_sum (slice u (u + 1) lengths))) as Hedge.
  { apply Hedges. split; [|done]. by exists row. }
  split; [done|]. split.
  - rewrite only_consecutive_labels_lookup.
    destruct (label_adj_list !! u) as [targets|]; [|done]. simpl in *.
    by rewrite Hedge.
  - rewrite Hslice. unfold py_sum. simpl. by apply feq_fadd_zero.
Qed.

Lemma lengths_to_adj_list_next_label_witness :
  ∃ y, (default ∅ (lengths_to_adj_list docstring_connections docstring_lengths)
          !! 3) ≫= (.!! (3 + 1)) = Some y ∧
       only_consecutive_labels
         (default ∅ (lengths_to_adj_list docstring_connections
                                        docstring_lengths)) !! 3
       = Some {[ 3 + 1 := y ]} ∧
       feq y (of_Z 19) = true.
Proof.
  apply (lengths_to_adj_list_next_label docstring_connections docstring_lengths
           _ [3; 4] 3 (of_Z 19)).
  - vm_compute. reflexivity.
  - apply (bool_decide_unpack _). vm_compute. exact I.
  - reflexivity.
  - reflexivity.
  - reflexivity.
  - reflexivity.
Defined.

(** ** get_population *)

Lemma collect_points (frame_series : list (matrix float))
    (part_labels : list nat) :
  foldl (fun (lists : matrix float * list nat)
             '((index_points, label) : matrix float * nat) =>
           foldl (fun '(pop_list, label_list) point =>
                    (pop_list ++ [point], label_list ++ [label]))
                 lists index_points)
        ([], []) (zip frame_series part_labels)
  = ((labelled_points frame_series part_labels).*1,
     (labelled_points frame_series part_labels).*2).
Proof.
  unfold labelled_points.
  assert (∀ (points : matrix float) (label : nat) pre,
    foldl (fun '(pop_list, label_list) point =>
             (pop_list ++ [point], label_list ++ [label]))
          (pre.*1, pre.*2) points
    = ((pre ++ ((fun point => (point, label)) <$> points)).*1,
       (pre ++ ((fun point => (point, label)) <$> points)).*2)) as Hinner.
  { intros points label. induction points as [|p points IH]; intros pre; simpl.
    - by rewrite app_nil_r.
    - replace (pre.*1 ++ [p]) with ((pre ++ [(p, label)]).*1)
        by by rewrite fmap_app.
      replace (pre.*2 ++ [label]) with ((pre ++ [(p, label)]).*2)
        by by rewrite fmap_app.
      rewrite IH. by rewrite <- app_assoc. }
  assert (∀ (parts : list (matrix float * nat)) pre,
    foldl (fun (lists : matrix float * list nat)
               '((index_points, label) : matrix float * nat) =>
             foldl (fun '(pop_list, label_list) point =>
                      (pop_list ++ [point], label_list ++ [label]))
                   lists index_points)
          (pre.*1, pre.*2) parts
    = ((pre ++ ('(index_points, label) ← parts;
                (fun point => (point, label)) <$> index_points)).*1,
       (pre ++ ('(index_points, label) ← parts;
                (fun point => (point, label)) <$> index_points)).*2)) as Houter.
  { intros parts. induction parts as [|[points label] parts IH]; intros pre.
    - simpl. by rewrite app_nil_r.
    - simpl. rewrite Hinner, IH. by rewrite <- app_assoc. }
  apply (Houter _ []).
Qed.

Lemma mapM_lookup_total {A} (l : list A) (d : A) (idx : list nat) :
  Forall (fun i => i < length l) idx →
  mapM (fun i => l !! i) idx = Some ((fun i => default d (l !! i)) <$> idx).
Proof.
  intros Hidx. apply mapM_fmap_total. intros i Hi.
  rewrite Forall_forall in Hidx.
  destruct (lookup_lt_is_Some_2 l i (Hidx i Hi)) as [x ->]. done.
Qed.

Lemma fmap_lookup_seq {A} (l : list A) (d : A) :
  (fun i => default d (l !! i)) <$> seq 0 (length l) = l.
Proof.
  apply list_eq. intros i. rewrite list_lookup_fmap.
  destruct (l !! i) as [x|] eqn:Hi.
  - rewrite (proj2 (lookup_seq 0 (length l) i i)); simpl; [by rewrite Hi|].
    split; [done|]. by eapply lookup_lt_Some.
  - rewrite lookup_ge_None_2; [done|]. rewrite length_seq.
    by apply lookup_ge_None.
Qed.

(** X4. When every point has the same number of coordinates and the index
    array of [np.argsort] sorts the labels, get_population returns as many
    points as labels, the labels ascend, and the points with their labels
    are those of the series, each once: every point keeps the label of its
    body part.  Parts beyond the number of labels are left out. *)
Theorem get_population_sorts_by_label
    (argsort : list nat -> list nat) (frame_series : list (matrix float))
    (part_labels : list nat) :
  let hypotheses := labelled_points frame_series part_labels in
  rectangular hypotheses.*1 →
  sorts hypotheses.*2 (argsort hypotheses.*2) →
  ∃ population labels,
    get_population argsort frame_series part_labels
    = Some (population, labels) ∧
    StronglySorted le labels ∧
    length population = length labels ∧
    zip population labels ≡ₚ hypotheses.
Proof.
  intros hyps Hrect [Hperm Hsorted]. unfold get_population.
  rewrite collect_points. fold hyps. unfold np_array_rows.
  rewrite bool_decide_eq_true_2 by done. simpl.
  set (idx := argsort hyps.*2) in *.
  assert (Forall (fun i => i < length hyps) idx) as Hidx.
  { apply Forall_forall. intros i Hi. rewrite Hperm in Hi.
    apply elem_of_seq in Hi. rewrite length_fmap in Hi. lia. }
  rewrite (mapM_lookup_total hyps.*1 [] idx)
    by (by rewrite length_fmap).
  simpl.
  rewrite (mapM_lookup_total hyps.*2 0 idx)
    by (by rewrite length_fmap).
  simpl. eexists _, _. split; [done|]. split; [done|].
  split; [by rewrite !length_fmap|].
  rewrite (zip_with_fmap_same pair).
  rewrite length_fmap in Hperm. rewrite Hperm.
  rewrite <- (fmap_lookup_seq hyps ([], 0)) at 2.
  erewrite list_fmap_ext; [reflexivity|]. intros _ i _. simpl.
  rewrite !list_lookup_fmap. by destruct (hyps !! i) as [[p l]|].
Qed.

Example get_population_docstring :
  get_population stable_argsort docstring_frame_series docstring_part_labels
  = Some ((fun row : list Z => of_Z <$> row) <$>
          [[-45; 66; 238]; [-26; -57; 249]; [-74; -58; 260]]%Z,
          [0; 5; 5]).
Proof. vm_compute. reflexivity. Qed.

Lemma get_population_sorts_by_label_witness :
  ∃ population labels,
    get_population stable_argsort docstring_frame_series docstring_part_labels
    = Some (population, labels) ∧
    StronglySorted le labels ∧
    length population = length labels ∧
    zip population labels
    ≡ₚ labelled_points docstring_frame_series docstring_part_labels.
Proof.
  apply (get_population_sorts_by_label stable_argsort docstring_frame_series
           docstring_part_labels).
  - apply (bool_decide_unpack _). vm_compute. exact I.
  - split.
    + apply (bool_decide_unpack _). vm_compute. exact I.
    + vm_compute. repeat constructor.
Defined.

(** ** inside_spheres *)

Lemma in_spheres_of_true D path r x :
  in_spheres_of D path r x = true ↔
  ∃ i d, i ∈ path ∧ get2 D i x = Some d ∧ fle d r = true.
Proof.
  unfold in_spheres_of. rewrite existsb_exists. split.
  - intros (i & Hi%list_elem_of_In & Hd).
    destruct (get2 D i x) as [d|] eqn:Hget; [|done]. by exists i, d.
  - intros (i & d & Hi%list_elem_of_In & Hget & Hd). exists i.
    by rewrite Hget.
Qed.

Lemma inside_spheres_lookup D path r x :
  x < length D →
  (in_spheres_of D path r <$> range (length D)) !! x
  = Some (in_spheres_of D path r x).
Proof.
  intros Hx. rewrite list_lookup_fmap. unfold range.
  by rewrite (proj2 (lookup_seq 0 (length D) x x)).
Qed.

(** X5. On a square distance matrix and sphere centres that are point
    numbers, inside_spheres returns one flag per point, and the flag of the
    point [x] is true exactly when some centre [i] has [D[i, x] <= r]. *)
Theorem inside_spheres_marks_points_within_radius
    (D : matrix float) (point_nums : list nat) (r : float) :
  Forall (fun row => length row = length D) D →
  Forall (fun i => i < length D) point_nums →
  ∃ in_spheres,
    inside_spheres D point_nums r = Some in_spheres ∧
    length in_spheres = length D ∧
    ∀ x, x < length D →
      ∃ flag, in_spheres !! x = Some flag ∧
        (flag = true ↔
         ∃ i d, i ∈ point_nums ∧ get2 D i x = Some d ∧ fle d r = true).
Proof.
  intros Hsquare Hcentres. eexists. split; [by apply inside_spheres_spec|].
  split; [unfold range; by rewrite length_fmap, length_seq|].
  intros x Hx. eexists. split; [by apply inside_spheres_lookup|].
  apply in_spheres_of_true.
Qed.

Lemma inside_spheres_marks_points_within_radius_witness :
  ∃ in_spheres,
    inside_spheres example_dists [0; 1] (of_Z 5) = Some in_spheres ∧
    length in_spheres = length example_dists ∧
    ∀ x, x < length example_dists →
      ∃ flag, in_spheres !! x = Some flag ∧
        (flag = true ↔
         ∃ i d, i ∈ [0; 1] ∧ get2 example_dists i x = Some d ∧
                fle d (of_Z 5) = true).
Proof.
  apply (inside_spheres_marks_points_within_radius example_dists [0; 1]
           (of_Z 5)).
  - repeat constructor.
  - repeat constructor.
Defined.

(** X6. The spheres grow with the radius and with the centres: a point
    that inside_spheres marks for the centres [c] and the radius [r] is
    marked for every larger list of centres and every radius [r' >= r]. *)
Theorem inside_spheres_grows
    (D : matrix float) (c c' : list nat) (r r' : float) :
  Forall (fun row => length row = length D) D →
  Forall (fun i => i < length D) c' →
  c ⊆ c' →
  fle r r' = true →
  ∃ marked marked',
    inside_spheres D c r = Some marked ∧
    inside_spheres D c' r' = Some marked' ∧
    ∀ x, marked !! x = Some true → marked' !! x = Some true.
Proof.
  intros Hsquare Hc' Hsub Hle.
  assert (Forall (fun i => i < length D) c) as Hc.
  { rewrite Forall_forall in Hc' |- *. intros i Hi. apply Hc', Hsub, Hi. }
  eexists _, _. split; [by apply inside_spheres_spec|].
  split; [by apply inside_spheres_spec|].
  intros x Hx.
  assert (x < length D) as Hlt.
  { apply lookup_lt_Some in Hx. unfold range in Hx.
    by rewrite length_fmap, length_seq in Hx. }
  rewrite inside_spheres_lookup in Hx |- * by done.
  injection Hx as Hx. f_equal.
  apply in_spheres_of_true in Hx as (i & d & Hi & Hget & Hd).
  apply in_spheres_of_true. exists i, d. split; [by apply Hsub|].
  split; [done|]. by eapply fle_trans.
Qed.

Lemma inside_spheres_grows_witness :
  ∃ marked marked',
    inside_spheres example_dists [1] (of_Z 5) = Some marked ∧
    inside_spheres example_dists [0; 1] (of_Z 10) = Some marked' ∧
    ∀ x, marked !! x = Some true → marked' !! x = Some true.
Proof.
  apply (inside_spheres_grows example_dists [1] [0; 1] (of_Z 5) (of_Z 10)).
  - repeat constructor.
  - repeat constructor.
  - intros i ->%list_elem_of_singleton. right. left.
  - reflexivity.
Defined.

(** ** select_best_feet: too few paths, no radii *)

Lemma combinations2_few n : n < 2 → combinations2 (range n) = [].
Proof. destruct n as [|[|n]]; [done|done|lia]. Qed.

(** X7. With fewer than two foot paths there is no pair to choose from:
    select_best_feet raises, whatever the matrices and the radii. *)
Theorem select_best_feet_needs_two_paths
    (D Sc : matrix float) (P : matrix nat) (radii : list float) :
  length P < 2 → select_best_feet D Sc P radii = None.
Proof.
  intros Hfew. unfold select_best_feet.
  destruct (inside_radii D P radii) as [in_spheres_list|]; [|done]. simpl.
  rewrite (combinations2_few _ Hfew). simpl.
  destruct radii as [|r radii]; [done|]. simpl. done.
Qed.

Lemma select_best_feet_needs_two_paths_witness :
  select_best_feet example_dists example_foot_scores [[0; 1]] example_radii
  = None.
Proof.
  apply (select_best_feet_needs_two_paths example_dists example_foot_scores
           [[0; 1]] example_radii).
  simpl. lia.
Defined.

Lemma argmax_from_zeros i best_i n :
  argmax_from i best_i 0 (replicate n 0) = best_i.
Proof.
  revert i. induction n as [|n IH]; intros i; [done|].
  cbn [replicate argmax_from]. destruct (decide (0 < 0)); [lia|apply IH].
Qed.

(** X8. Without radii no vote takes place: for two or more foot paths
    select_best_feet returns the first pair, the paths 0 and 1, whatever the
    distances and the scores. *)
Theorem select_best_feet_no_radii
    (D Sc : matrix float) (P : matrix nat) :
  2 ≤ length P → select_best_feet D Sc P [] = Some (0, 1).
Proof.
  intros Htwo. unfold select_best_feet, inside_radii.
  rewrite (mapM_fmap_total _ (fun _ => [])) by done. simpl.
  destruct P as [|p0 [|p1 P]]; simpl in Htwo; [lia|lia|].
  simpl. rewrite argmax_from_zeros. done.
Qed.

Lemma select_best_feet_no_radii_witness :
  select_best_feet example_dists example_foot_scores example_foot_paths []
  = Some (0, 1).
Proof.
  apply (select_best_feet_no_radii example_dists example_foot_scores
           example_foot_paths).
  simpl. lia.
Defined.

(** ** filter_by_path: the keys and the distances of the connections *)

(** A loop raises when its body raises at one of the elements, whatever
    the state is then. *)
Lemma for_each_raises {St X} (xs : list X) (s : St)
    (body : St -> X -> option St) x :
  x ∈ xs → (∀ s1, body s1 x = None) → for_each xs s body = None.
Proof.
  intros Hx Hnone. destruct (for_each xs s body) as [s'|] eqn:Hrun; [|done].
  destruct (for_each_Some_body _ _ _ _ x Hrun Hx) as [s1 [s2 Hs2]].
  by rewrite Hnone in Hs2.
Qed.

(** X9. Every column number of a path matrix with a row must be a key of
    the part connections, also the one of the last label, which has no
    connection to a later one: filter_by_path raises when one is
    missing. *)
Theorem filter_by_path_needs_every_label_key
    (S : matrix float) (P : matrix nat) (C : gmap nat (gmap nat float))
    (j : nat) :
  P ≠ [] → j < n_cols P → C !! j = None → filter_by_path S P C = None.
Proof.
  intros Hrows Hj Hkey. rewrite filter_by_path_unfold.
  apply (for_each_raises _ _ _ (0, j, 0)).
  - apply elem_of_loop_indices. destruct P; simpl in *; [done|lia].
  - intros s1. simpl. by rewrite Hkey.
Qed.

Lemma filter_by_path_needs_every_label_key_witness :
  filter_by_path example_scores example_paths {[ 0 := {[ 1 := Fin 10 ]} ]}
  = None.
Proof.
  apply (filter_by_path_needs_every_label_key example_scores example_paths
           {[ 0 := {[ 1 := Fin 10 ]} ]} 1).
  - done.
  - simpl. lia.
  - reflexivity.
Defined.

(** X10. filter_by_path reads which labels are connected, never the
    expected distances: two adjacency lists with the same keys and the same
    connections under each key give the same matrix. *)
Theorem filter_by_path_ignores_distances
    (S : matrix float) (P : matrix nat) (C C' : gmap nat (gmap nat float)) :
  (∀ j, dom <$> C !! j = dom <$> C' !! j) →
  filter_by_path S P C = filter_by_path S P C'.
Proof.
  intros Hsame. rewrite !filter_by_path_unfold. apply for_each_ext.
  intros s [[i j] k] _. simpl. specialize (Hsame j).
  destruct (C !! j) as [conn|], (C' !! j) as [conn'|]; simpl in *;
    try done.
  injection Hsame as Hdom.
  erewrite (bool_decide_ext (is_Some (conn !! k))); [done|].
  by rewrite <- !elem_of_dom, Hdom.
Qed.

Lemma filter_by_path_ignores_distances_witness :
  filter_by_path example_scores example_paths example_connections
  = filter_by_path example_scores example_paths
      {[ 0 := {[ 1 := Fin 62 ]}; 1 := ∅ ]}.
Proof.
  apply (filter_by_path_ignores_distances example_scores example_paths
           example_connections {[ 0 := {[ 1 := Fin 62 ]}; 1 := ∅ ]}).
  intros j. destruct j as [|[|j]]; [vm_compute; reflexivity..|].
  unfold example_connections. rewrite !lookup_insert_ne by lia.
  by rewrite !lookup_singleton_ne by lia.
Defined.

(** ** process_frame: a frame with fewer than two feet *)

(** X11. process_frame raises on every frame in which fewer than two
    points carry the largest label, whatever the helpers compute: there is
    no pair of feet to select. *)
Theorem process_frame_needs_two_feet
    (points_to_graph :
       matrix float -> list nat -> graph ->
       (float -> float -> option float) ->
       option (list (nat * gmap nat float)))
    (dag_shortest_paths :
       list (nat * gmap nat float) -> list nat -> list nat ->
       option (gmap nat (option nat) * gmap nat float))
    (trace_path : gmap nat (option nat) -> nat -> option (list nat))
    (cdist : matrix float -> matrix float -> option (matrix float))
    (iterable_to_dict : list nat -> gmap nat nat)
    (labelled_nodes_to_graph : gmap nat nat -> graph -> option graph)
    (adj_list_to_matrix : graph -> option (matrix float))
    (population : loc) (labels : list nat) (label_adj_list : graph)
    (radii : list float)
    (cost_func score_func : float -> float -> option float) (h : store) :
  (∀ max_label, max_of labels = Some max_label →
                length (np_where_eq labels max_label) < 2) →
  process_frame points_to_graph dag_shortest_paths trace_path cdist
    iterable_to_dict labelled_nodes_to_graph adj_list_to_matrix
    population labels label_adj_list radii cost_func score_func h
  = None.
Proof.
  intros Hfeet. unfold process_frame, bind, read, lift.
  destruct (h !! population) as [contents|]; [|done]. simpl.
  unfold choose_feet.
  destruct (pop_shortest_paths _ _ _ _ _ _) as [[prev dist]|]; [|done].
  simpl. rewrite paths_to_foot_unfold.
  destruct (max_of labels) as [max_label|] eqn:Hmax; [|done]. simpl.
  destruct (mapM _ (np_where_eq labels max_label)) as [rows|] eqn:Hrows;
    [|done]. simpl.
  destruct (get_score_matrix _ _ _ _ _ _ _ _) as [[score_matrix dist_matrix]|];
    [|done]. simpl.
  destruct (filter_by_path _ _ _) as [filtered|]; [|done]. simpl.
  assert (length rows.*1 < 2) as Hfew.
  { rewrite length_fmap, (mapM_length _ _ _ Hrows). by apply Hfeet. }
  unfold select_best_feet.
  destruct (inside_radii _ _ radii) as [in_spheres_list|]; [|done]. simpl.
  rewrite (combinations2_few _ Hfew). simpl. by destruct radii.
Qed.

Lemma process_frame_needs_two_feet_witness :
  process_frame_of_spec 3 [0; 1] scenario_adj_list [of_Z 1]
    canonical_cost (canonical_score fdiv_py) scenario_store
  = None.
Proof.
  apply (process_frame_needs_two_feet points_to_graph_of_spec
           dag_shortest_paths_of_spec (trace_path_of_spec (has_label_0 [0; 1]))
           cdist_on_axis iterable_to_dict_of_spec
           labelled_nodes_to_graph_of_spec adj_list_to_matrix_of_spec
           3 [0; 1] scenario_adj_list [of_Z 1] canonical_cost
           (canonical_score fdiv_py) scenario_store).
  intros max_label [= <-]. vm_compute. lia.
Defined.

(** ** estimate_lengths: frames that are missing, the number of lengths *)

Lemma np_median_nan l : NaN ∈ l → np_median l = NaN.
Proof.
  intros Hin. unfold np_median.
  assert (existsb isnan l = true) as ->; [|by rewrite orb_true_r].
  apply existsb_exists. exists NaN. split; [by apply list_elem_of_In|done].
Qed.

Lemma np_all_nan l : Forall (fun d => d = NaN) l → np_all l = true.
Proof.
  intros Hall. unfold np_all. apply forallb_forall.
  intros d Hd%list_elem_of_In. rewrite Forall_forall in Hall.
  by rewrite (Hall d Hd).
Qed.

Lemma stop_test_nan lengths prev_lengths eps :
  Forall (fun x => x = NaN) lengths →
  stop_test lengths prev_lengths eps = flt fone eps.
Proof.
  intros Hnan. unfold stop_test. rewrite np_all_nan; [done|].
  apply Forall_forall. intros d Hd.
  apply list_elem_of_fmap in Hd as (e & -> & He).
  apply list_elem_of_lookup in He as [i Hi].
  apply lookup_zip_with_Some in Hi as (x & y & -> & Hx & Hy).
  rewrite Forall_forall in Hnan.
  rewrite (Hnan x); [done|]. by eapply list_elem_of_lookup_2.
Qed.

Section estimate_lengths_more_facts.
Variable points_to_graph :
  matrix float -> list nat -> graph -> (float -> float -> option float) ->
  option (list (nat * gmap nat float)).
Variable dag_shortest_paths :
  list (nat * gmap nat float) -> list nat -> list nat ->
  option (gmap nat (option nat) * gmap nat float).
Variable iterable_to_dict : list nat -> gmap nat nat.
Variable min_shortest_path :
  gmap nat (option nat) -> gmap nat float -> gmap nat nat -> nat ->
  option (list nat).
Variable consecutive_dist : matrix float -> option (list float).
Variable pop_series : series (matrix float).
Variable label_series : series (list nat).
Variable cost_func : float -> float -> option float.
Variable n_frames : nat.
Variable eps : float.
Variables (n_lengths : nat) (frames : list nat).

Lemma update_lengths_length lengths new :
  update_lengths points_to_graph dag_shortest_paths iterable_to_dict
    min_shortest_path consecutive_dist pop_series label_series cost_func
    n_frames n_lengths frames lengths = Some new →
  length new = n_lengths.
Proof.
  unfold update_lengths. intros Hnew.
  destruct (for_each _ _ _) as [length_array|]; [|done].
  injection Hnew as <-. unfold np_median_axis0, range.
  by rewrite length_fmap, length_seq.
Qed.

Lemma update_lengths_missing_frames lengths new :
  length frames < n_frames →
  update_lengths points_to_graph dag_shortest_paths iterable_to_dict
    min_shortest_path consecutive_dist pop_series label_series cost_func
    n_frames n_lengths frames lengths = Some new →
  Forall (fun x => x = NaN) new.
Proof.
  intros Hshort. unfold update_lengths. intros Hnew.
  destruct (for_each _ _ _) as [length_array|] eqn:Hloop; [|done].
  injection Hnew as <-.
  assert (length_array !! length frames = Some (replicate n_lengths NaN))
    as Hrow.
  { revert Hloop. apply (for_each_invariant
      (fun _ (a : matrix float) =>
         a !! length frames = Some (replicate n_lengths NaN))).
    - by apply lookup_replicate_2.
    - intros pre [i f] a1 a2 Hif%elem_of_enumerate Ha1 Hbody.
      destruct (series_loc pop_series f) as [population|]; [|done].
      destruct (series_loc label_series f) as [labels|]; [|done].
      simpl in Hbody.
      destruct (pop_shortest_paths _ _ _ _ _ _) as [[prev dist]|]; [|done].
      simpl in Hbody.
      destruct (min_shortest_path _ _ _ _) as [min_path|]; [|done].
      simpl in Hbody. destruct (mapM _ min_path) as [min_pop|]; [|done].
      simpl in Hbody. destruct (consecutive_dist min_pop) as [values|];
        [|done].
      simpl in Hbody. destruct (a1 !! i) as [old|]; [|done].
      simpl in Hbody. destruct (assign_row _ values) as [row|]; [|done].
      injection Hbody as <-. rewrite list_lookup_insert_ne; [done|].
      apply lookup_lt_Some in Hif. rewrite length_take in Hif. lia. }
  unfold np_median_axis0. apply Forall_forall. intros x Hx.
  apply list_elem_of_fmap in Hx as (j & -> & Hj).
  apply elem_of_seq in Hj. apply np_median_nan.
  apply list_elem_of_fmap. exists (replicate n_lengths NaN). split.
  - rewrite lookup_replicate_2; [done|lia].
  - by eapply list_elem_of_lookup_2.
Qed.

Lemma iterate_lengths_missing_frames fuel lengths :
  length frames < n_frames → flt fone eps = false →
  iterate_lengths points_to_graph dag_shortest_paths iterable_to_dict
    min_shortest_path consecutive_dist pop_series label_series cost_func
    n_frames eps fuel n_lengths frames lengths = Raised
  ∨ iterate_lengths points_to_graph dag_shortest_paths iterable_to_dict
      min_shortest_path consecutive_dist pop_series label_series cost_func
      n_frames eps fuel n_lengths frames lengths = Running.
Proof.
  intros Hshort Heps. revert lengths.
  induction fuel as [|fuel IH]; intros lengths; simpl; [by right|].
  destruct (update_lengths _ _ _ _ _ _ _ _ _ _ _ lengths) as [new|] eqn:Hnew;
    [|by left].
  rewrite (stop_test_nan new lengths eps), Heps; [apply IH|].
  by eapply update_lengths_missing_frames.
Qed.

Lemma iterate_lengths_length fuel lengths result :
  iterate_lengths points_to_graph dag_shortest_paths iterable_to_dict
    min_shortest_path consecutive_dist pop_series label_series cost_func
    n_frames eps fuel n_lengths frames lengths = Returned result →
  length result = n_lengths.
Proof.
  revert lengths. induction fuel as [|fuel IH]; intros lengths; simpl;
    [done|].
  destruct (update_lengths _ _ _ _ _ _ _ _ _ _ _ lengths) as [new|] eqn:Hnew;
    [|done].
  destruct (stop_test new lengths eps).
  - intros [= <-]. by eapply update_lengths_length.
  - apply IH.
Qed.
End estimate_lengths_more_facts.

(** X12. When [n_frames] is larger than the number of frames of the
    series and [eps] is not above 1, estimate_lengths never returns: the
    rows of the frames that are missing stay NaN, every median is NaN, and
    the stop test fails.  A run raises or goes on for ever. *)
Theorem estimate_lengths_hangs_on_missing_frames
    (points_to_graph :
       matrix float -> list nat -> graph ->
       (float -> float -> option float) ->
       option (list (nat * gmap nat float)))
    (dag_shortest_paths :
       list (nat * gmap nat float) -> list nat -> list nat ->
       option (gmap nat (option nat) * gmap nat float))
    (iterable_to_dict : list nat -> gmap nat nat)
    (min_shortest_path :
       gmap nat (option nat) -> gmap nat float -> gmap nat nat -> nat ->
       option (list nat))
    (consecutive_dist : matrix float -> option (list float))
    (pop_series : series (matrix float)) (label_series : series (list nat))
    (cost_func : float -> float -> option float) (n_frames : nat)
    (eps : float) (fuel : nat) :
  let run := estimate_lengths points_to_graph dag_shortest_paths
               iterable_to_dict min_shortest_path consecutive_dist
               pop_series label_series cost_func n_frames eps in
  length pop_series < n_frames →
  flt fone eps = false →
  run fuel = Raised ∨ run fuel = Running.
Proof.
  intros run Hshort Heps. subst run. unfold estimate_lengths.
  destruct (head label_series ≫= _) as [n_lengths|]; [|by left].
  apply iterate_lengths_missing_frames; [|done]. by rewrite length_fmap.
Qed.

Lemma estimate_lengths_hangs_on_missing_frames_witness :
  estimate_lengths_of_spec coincident_pops coincident_labels canonical_cost
                           2 (Fin (1 # 100)) 7 = Raised
  ∨ estimate_lengths_of_spec coincident_pops coincident_labels canonical_cost
                             2 (Fin (1 # 100)) 7 = Running.
Proof.
  apply (estimate_lengths_hangs_on_missing_frames points_to_graph_of_spec
           dag_shortest_paths_of_spec iterable_to_dict_of_spec
           min_shortest_path_of_spec consecutive_dist_of_spec
           coincident_pops coincident_labels canonical_cost 2
           (Fin (1 # 100)) 7).
  - simpl. lia.
  - reflexivity.
Defined.

(** X13. A result of estimate_lengths has one length per label above 0 of
    the first frame: its size is the largest label of the first label
    array. *)
Theorem estimate_lengths_one_length_per_label
    (points_to_graph :
       matrix float -> list nat -> graph ->
       (float -> float -> option float) ->
       option (list (nat * gmap nat float)))
    (dag_shortest_paths :
       list (nat * gmap nat float) -> list nat -> list nat ->
       option (gmap nat (option nat) * gmap nat float))
    (iterable_to_dict : list nat -> gmap nat nat)
    (min_shortest_path :
       gmap nat (option nat) -> gmap nat float -> gmap nat nat -> nat ->
       option (list nat))
    (consecutive_dist : matrix float -> option (list float))
    (pop_series : series (matrix float)) (label_series : series (list nat))
    (cost_func : float -> float -> option float) (n_frames : nat)
    (eps : float) (fuel : nat) (result : list float) :
  estimate_lengths points_to_graph dag_shortest_paths iterable_to_dict
    min_shortest_path consecutive_dist pop_series label_series cost_func
    n_frames eps fuel = Returned result →
  ∃ first,
    head label_series = Some first ∧ max_of first.2 = Some (length result).
Proof.
  unfold estimate_lengths. destruct (head label_series) as [first|]; [|done].
  simpl. destruct (max_of first.2) as [n_lengths|] eqn:Hmax; [|done].
  intros Hrun%iterate_lengths_length. exists first. split; [done|].
  by rewrite Hrun.
Qed.

Lemma estimate_lengths_one_length_per_label_witness :
  ∃ first,
    head coincident_labels = Some first
    ∧ max_of first.2 = Some (length [of_Z 60; of_Z 0]).
Proof.
  apply (estimate_lengths_one_length_per_label points_to_graph_of_spec
           dag_shortest_paths_of_spec iterable_to_dict_of_spec
           min_shortest_path_of_spec consecutive_dist_of_spec
           coincident_pops coincident_labels canonical_cost 1
           (Fin (1 # 100)) 1 [of_Z 60; of_Z 0]).
  vm_compute. reflexivity.
Defined.

(** ** enforce_consistency: twice, and with too few flags *)

(** What a run of enforce_consistency does on a table with distinct index
    labels and one flag per frame. *)
Lemma enforce_consistency_run
    (df_pass : loc) (verified_sides : list bool) (st : pandas_state)
    (table : data_frame) :
  frames st !! df_pass = Some table →
  NoDup table.*1 →
  length verified_sides = length table →
  ∃ df_consistent st' table',
    enforce_consistency df_pass verified_sides st = Some (df_consistent, st') ∧
    (df_consistent ∉ dom (frames st)) ∧
    frames st' !! df_pass = Some table ∧
    (∀ l, l ∈ dom (frames st) → frames st' !! l = frames st !! l) ∧
    arrays st' = arrays st ∧
    frames st' !! df_consistent = Some table' ∧
    table'.*1 = table.*1 ∧
    ∀ i frame row verified,
      table !! i = Some (frame, row) → verified_sides !! i = Some verified →
      table' !! i = Some (frame, corrected_row row verified) ∧
      HEAD (corrected_row row verified) = HEAD row.
Proof.
  intros Htable Hnodup Hlen. unfold enforce_consistency. rewrite Htable. simpl.
  set (dfc := fresh (dom (frames st))).
  assert (dfc ∉ dom (frames st)) as Hfresh by apply is_fresh.
  destruct (for_each_total
    (fun (pre : list (nat * (nat * pass_row))) (tables : gmap loc data_frame) =>
       (∀ l, l ≠ dfc → tables !! l = frames st !! l) ∧
       ∃ t, tables !! dfc = Some t ∧ t.*1 = table.*1 ∧
            ∀ j frame row, table !! j = Some (frame, row) →
              t !! j = Some (frame,
                if bool_decide ((j, (frame, row)) ∈ pre
                                ∧ verified_sides !! j = Some false)
                then swap_feet row else row))
    (enumerate table) (<[dfc := table]> (frames st))
    (switch_sides dfc verified_sides))
    as (tables & -> & Hothers & t & Ht & Hlabels & Hrows).
  - split; [intros l Hl; by rewrite lookup_insert_ne|].
    exists table. rewrite lookup_insert_eq. split; [done|]. split; [done|].
    intros j frame row Hj. rewrite bool_decide_eq_false_2; [done|].
    intros [Hin _]. by apply elem_of_nil in Hin.
  - intros pre [i [frame row]] tables Hi%elem_of_enumerate
      (Hothers & t & Ht & Hlabels & Hrows).
    assert (is_Some (verified_sides !! i)) as [verified Hv].
    { apply lookup_lt_is_Some. rewrite Hlen. by eapply lookup_lt_Some. }
    unfold switch_sides. rewrite Hv. simpl. destruct verified; simpl.
    + eexists. split; [done|]. split; [done|]. exists t.
      split; [done|]. split; [done|]. intros j fr r Hj.
      rewrite (Hrows j fr r Hj). erewrite bool_decide_ext; [done|].
      rewrite elem_of_app, list_elem_of_singleton. split; [tauto|].
      intros [[?|[= -> -> ->]] Hf]; [done|congruence].
    + rewrite Ht. simpl. eexists. split; [done|].
      split; [intros l Hl; by rewrite lookup_insert_ne by done; apply Hothers|].
      exists (loc_assign frame (swap_feet row) t). rewrite lookup_insert_eq.
      split; [done|]. split; [by rewrite loc_assign_labels|].
      intros j fr r Hj. destruct (decide (j = i)) as [->|Hji].
      * assert (fr = frame ∧ r = row) as [-> ->] by (split; congruence).
        rewrite bool_decide_eq_true_2.
        -- eapply loc_assign_lookup_eq. by apply Hrows.
        -- split; [|done]. apply elem_of_app. right.
           by apply list_elem_of_singleton.
      * assert (fr ≠ frame) as Hne.
        { intros ->. apply Hji.
          apply (NoDup_lookup _ j i frame Hnodup);
            by rewrite list_lookup_fmap, ?Hj, ?Hi. }
        rewrite (loc_assign_lookup_ne _ _ _ j fr _ (Hrows j fr r Hj) Hne).
        erewrite bool_decide_ext; [done|].
        rewrite elem_of_app, list_elem_of_singleton. split; [tauto|].
        intros [[?|[= ? ? ?]] Hf]; [done|done].
  - simpl. exists dfc. eexists. exists t. split; [done|]. simpl.
    split; [done|]. split.
    { rewrite Hothers; [done|]. intros ->. apply Hfresh, elem_of_dom. eauto. }
    split.
    { intros l Hl. apply Hothers. intros ->. done. }
    split; [done|]. split; [done|]. split; [done|].
    intros i frame row verified Hi Hv. split; [|by destruct verified].
    rewrite (Hrows i frame row Hi). unfold corrected_row.
    destruct verified.
    + rewrite bool_decide_eq_false_2; [done|]. intros [_ ?]. congruence.
    + rewrite bool_decide_eq_true_2; [done|]. split; [|done].
      by apply elem_of_enumerate.
Qed.

Lemma swap_feet_twice row : swap_feet (swap_feet row) = row.
Proof. by destruct row. Qed.

(** X14. Correcting a pass twice with the same flags gives the rows of
    the input back: the second call exchanges the feet of the same frames
    once more.  Each call returns a new table and leaves the earlier ones as
    they were. *)
Theorem enforce_consistency_twice_restores
    (df_pass : loc) (verified_sides : list bool) (st : pandas_state)
    (table : data_frame) :
  frames st !! df_pass = Some table →
  NoDup table.*1 →
  length verified_sides = length table →
  ∃ df_1 st_1 df_2 st_2,
    enforce_consistency df_pass verified_sides st = Some (df_1, st_1) ∧
    enforce_consistency df_1 verified_sides st_1 = Some (df_2, st_2) ∧
    df_1 ≠ df_pass ∧ df_2 ≠ df_pass ∧ df_2 ≠ df_1 ∧
    frames st_2 !! df_2 = Some table ∧
    frames st_2 !! df_pass = Some table ∧
    frames st_2 !! df_1 = frames st_1 !! df_1.
Proof.
  intros Htable Hnodup Hlen.
  destruct (enforce_consistency_run df_pass verified_sides st table
              Htable Hnodup Hlen)
    as (df_1 & st_1 & table_1 & Hrun_1 & Hfresh_1 & Hpass_1 & _ & _ & Htable_1
        & Hlabels_1 & Hrows_1).
  assert (NoDup table_1.*1) as Hnodup_1 by by rewrite Hlabels_1.
  assert (length verified_sides = length table_1) as Hlen_1.
  { rewrite Hlen. rewrite <- (length_fmap fst table), <- Hlabels_1.
    by rewrite length_fmap. }
  destruct (enforce_consistency_run df_1 verified_sides st_1 table_1
              Htable_1 Hnodup_1 Hlen_1)
    as (df_2 & st_2 & table_2 & Hrun_2 & Hfresh_2 & Hkeep_1 & Hothers_2 & _
        & Htable_2 & Hlabels_2 & Hrows_2).
  exists df_1, st_1, df_2, st_2. split; [done|]. split; [done|].
  assert (df_1 ≠ df_pass) as Hne_1.
  { intros ->. apply Hfresh_1, elem_of_dom. eauto. }
  assert (df_2 ≠ df_pass) as Hne_2.
  { intros ->. apply Hfresh_2, elem_of_dom. eauto. }
  assert (df_2 ≠ df_1) as Hne_21.
  { intros ->. apply Hfresh_2, elem_of_dom. eauto. }
  split; [done|]. split; [done|]. split; [done|]. split; [|split].
  - rewrite Htable_2. f_equal. apply list_eq. intros i.
    destruct (table !! i) as [[frame row]|] eqn:Hi.
    + assert (is_Some (verified_sides !! i)) as [verified Hv].
      { apply lookup_lt_is_Some. rewrite Hlen. by eapply lookup_lt_Some. }
      destruct (Hrows_1 i frame row verified Hi Hv) as [Hi_1 _].
      destruct (Hrows_2 i frame _ verified Hi_1 Hv) as [Hi_2 _].
      rewrite Hi_2. do 2 f_equal. unfold corrected_row.
      destruct verified; [done|apply swap_feet_twice].
    + apply lookup_ge_None. apply lookup_ge_None in Hi.
      rewrite <- (length_fmap fst table_2), Hlabels_2, Hlabels_1.
      by rewrite length_fmap.
  - rewrite Hothers_2; [done|]. apply elem_of_dom. eauto.
  - by rewrite Hkeep_1.
Qed.

Lemma enforce_consistency_twice_restores_witness :
  ∃ df_1 st_1 df_2 st_2,
    enforce_consistency 20 [true; false] pass_state = Some (df_1, st_1) ∧
    enforce_consistency df_1 [true; false] st_1 = Some (df_2, st_2) ∧
    df_1 ≠ 20 ∧ df_2 ≠ 20 ∧ df_2 ≠ df_1 ∧
    frames st_2 !! df_2 = Some pass_table ∧
    frames st_2 !! 20 = Some pass_table ∧
    frames st_2 !! df_1 = frames st_1 !! df_1.
Proof.
  apply (enforce_consistency_twice_restores 20 [true; false] pass_state
           pass_table).
  - reflexivity.
  - apply (bool_decide_unpack _). vm_compute. exact I.
  - reflexivity.
Defined.

(** X15. enforce_consistency needs a flag for every frame: with fewer
    flags than rows it raises (the IndexError of [verified_sides[i]]) and
    returns no table. *)
Theorem enforce_consistency_needs_flag_per_frame
    (df_pass : loc) (verified_sides : list bool) (st : pandas_state)
    (table : data_frame) :
  frames st !! df_pass = Some table →
  length verified_sides < length table →
  enforce_consistency df_pass verified_sides st = None.
Proof.
  intros Htable Hshort. unfold enforce_consistency. rewrite Htable. simpl.
  destruct (lookup_lt_is_Some_2 table (length verified_sides) Hshort)
    as [entry Hentry].
  rewrite (for_each_raises _ _ _ (length verified_sides, entry)); [done| |].
  - by apply elem_of_enumerate.
  - intros tables. destruct entry as [frame row]. simpl.
    by rewrite lookup_ge_None_2.
Qed.

Lemma enforce_consistency_needs_flag_per_frame_witness :
  enforce_consistency 20 [true] pass_state = None.
Proof.
  apply (enforce_consistency_needs_flag_per_frame 20 [true] pass_state
           pass_table).
  - reflexivity.
  - simpl. lia.
Defined.

(** ** paths_to_foot: the shape of the result *)

Lemma assign_row_length {A} width (values row : list A) :
  assign_row width values = Some row → length row = width.
Proof.
  unfold assign_row. case_bool_decide as Hlen; [by intros [= <-]|].
  destruct values as [|x [|y values]]; [done| |done].
  intros [= <-]. by rewrite length_replicate.
Qed.

Lemma np_where_eq_max labels max_label :
  max_of labels = Some max_label → np_where_eq labels max_label ≠ [].
Proof.
  intros [Hin _]%max_of_spec. apply list_elem_of_lookup in Hin as [i Hi].
  intros Hnil. assert (i ∈ np_where_eq labels max_label) as Hfoot.
  { unfold np_where_eq, range. apply list_elem_of_filter. split; [done|].
    apply elem_of_seq. split; [lia|]. simpl. by eapply lookup_lt_Some. }
  rewrite Hnil in Hfoot. by apply elem_of_nil in Hfoot.
Qed.

(** What paths_to_foot returns has the shape of a path matrix over the
    labels. *)
Lemma paths_to_foot_Some_shape trace_path prev dist labels path_matrix
    path_dist :
  paths_to_foot trace_path prev dist labels = Some (path_matrix, path_dist) →
  ∃ max_label,
    max_of labels = Some max_label ∧ path_matrix ≠ [] ∧
    length path_dist = length path_matrix ∧
    Forall (fun row => length row = max_label + 1) path_matrix.
Proof.
  rewrite paths_to_foot_unfold.
  destruct (max_of labels) as [max_label|] eqn:Hmax; [|done]. simpl.
  destruct (mapM _ (np_where_eq labels max_label)) as [rows|] eqn:Hrows;
    [|done]. simpl. intros [= <- <-]. exists max_label. split; [done|].
  pose proof (mapM_length _ _ _ Hrows) as Hlen.
  pose proof (np_where_eq_max _ _ Hmax) as Hfeet. split; [|split].
  - intros Hnil%(f_equal length). rewrite length_fmap, Hlen in Hnil.
    by destruct (np_where_eq labels max_label).
  - by rewrite !length_fmap.
  - apply Forall_forall. intros row Hrow.
    apply list_elem_of_fmap in Hrow as ([row' d] & -> & Hin).
    apply list_elem_of_lookup in Hin as [i Hi].
    destruct (lookup_lt_is_Some_2 (np_where_eq labels max_label) i)
      as [foot Hfoot].
    { rewrite <- Hlen. by eapply lookup_lt_Some. }
    destruct (mapM_lookup_Some _ _ _ _ _ Hrows Hfoot) as (y & Hy & Hrow).
    rewrite Hi in Hy. injection Hy as <-. unfold foot_row in Hrow.
    destruct (trace_path prev foot) as [path|]; [|done]. simpl in Hrow.
    destruct (assign_row _ path) as [r|] eqn:Hr; [|done]. simpl in Hrow.
    destruct (dist !! foot); [|done]. injection Hrow as <- <-.
    by eapply assign_row_length.
Qed.

(** X16. A path matrix that paths_to_foot returns has a row, it has one
    distance per row, and every row has one entry per label from 0 to the
    largest label, also when the path that was traced is a single node,
    which NumPy repeats over the row. *)
Theorem paths_to_foot_shape
    (trace_path : gmap nat (option nat) -> nat -> option (list nat))
    (prev : gmap nat (option nat)) (dist : gmap nat float) (labels : list nat)
    (path_matrix : matrix nat) (path_dist : list float) :
  paths_to_foot trace_path prev dist labels = Some (path_matrix, path_dist) →
  ∃ max_label,
    max_of labels = Some max_label ∧
    1 ≤ length path_matrix ∧
    length path_dist = length path_matrix ∧
    Forall (fun row => length row = max_label + 1) path_matrix.
Proof.
  intros Hrun.
  destruct (paths_to_foot_Some_shape _ _ _ _ _ _ Hrun)
    as (max_label & Hmax & Hrows & Hdist & Hwidth).
  exists max_label. split; [done|]. split; [|done].
  destruct path_matrix; [done|simpl; lia].
Qed.

Lemma paths_to_foot_shape_witness :
  ∃ max_label,
    max_of docstring_labels = Some max_label ∧
    1 ≤ length [[0; 1; 2; 3; 4]; [0; 1; 2; 3; 5]] ∧
    length [of_Z 11; of_Z 10] = length [[0; 1; 2; 3; 4]; [0; 1; 2; 3; 5]] ∧
    Forall (fun row => length row = max_label + 1)
           [[0; 1; 2; 3; 4]; [0; 1; 2; 3; 5]].
Proof.
  apply (paths_to_foot_shape
           (trace_path_of_spec (has_label_0 docstring_labels))
           docstring_prev docstring_dist docstring_labels
           [[0; 1; 2; 3; 4]; [0; 1; 2; 3; 5]] [of_Z 11; of_Z 10]).
  vm_compute. reflexivity.
Defined.

(** ** process_frame: the keys of the adjacency list, the shape of the
    result *)

(** X17. The adjacency list given to process_frame needs a key for every
    label from 0 to the largest label of the frame, also for the last one,
    which has no connection to a later label: process_frame raises when a
    key is missing, whatever the helpers compute. *)
Theorem process_frame_needs_key_for_every_label
    (points_to_graph :
       matrix float -> list nat -> graph ->
       (float -> float -> option float) ->
       option (list (nat * gmap nat float)))
    (dag_shortest_paths :
       list (nat * gmap nat float) -> list nat -> list nat ->
       option (gmap nat (option nat) * gmap nat float))
    (trace_path : gmap nat (option nat) -> nat -> option (list nat))
    (cdist : matrix float -> matrix float -> option (matrix float))
    (iterable_to_dict : list nat -> gmap nat nat)
    (labelled_nodes_to_graph : gmap nat nat -> graph -> option graph)
    (adj_list_to_matrix : graph -> option (matrix float))
    (population : loc) (labels : list nat) (label_adj_list : graph)
    (radii : list float)
    (cost_func score_func : float -> float -> option float) (h : store)
    (max_label j : nat) :
  max_of labels = Some max_label →
  j ≤ max_label →
  label_adj_list !! j = None →
  process_frame points_to_graph dag_shortest_paths trace_path cdist
    iterable_to_dict labelled_nodes_to_graph adj_list_to_matrix
    population labels label_adj_list radii cost_func score_func h
  = None.
Proof.
  intros Hmax Hj Hkey. unfold process_frame, bind, read, lift.
  destruct (h !! population) as [contents|]; [|done]. simpl.
  unfold choose_feet.
  destruct (pop_shortest_paths _ _ _ _ _ _) as [[prev dist]|]; [|done].
  simpl.
  destruct (paths_to_foot trace_path prev dist labels)
    as [[path_matrix path_dist]|] eqn:Hpaths; [|done]. simpl.
  destruct (paths_to_foot_Some_shape _ _ _ _ _ _ Hpaths)
    as (max_label' & Hmax' & Hrows & _ & Hwidth).
  rewrite Hmax in Hmax'. injection Hmax' as <-.
  destruct (get_score_matrix _ _ _ _ _ _ _ _) as [[score_matrix dist_matrix]|];
    [|done]. simpl.
  assert (filter_by_path score_matrix path_matrix label_adj_list = None)
    as ->; [|done].
  rewrite filter_by_path_unfold. apply (for_each_raises _ _ _ (0, j, 0)).
  - apply elem_of_loop_indices.
    destruct path_matrix as [|row rows]; [done|].
    apply Forall_cons in Hwidth as [Hrow _]. simpl. lia.
  - intros s1. simpl. by rewrite Hkey.
Qed.

Lemma process_frame_needs_key_for_every_label_witness :
  process_frame_of_spec 3 scenario_labels {[ 0 := {[ 1 := of_Z 10 ]} ]}
    [of_Z 1] canonical_cost (canonical_score fdiv_py) scenario_store
  = None.
Proof.
  apply (process_frame_needs_key_for_every_label points_to_graph_of_spec
           dag_shortest_paths_of_spec
           (trace_path_of_spec (has_label_0 scenario_labels))
           cdist_on_axis iterable_to_dict_of_spec
           labelled_nodes_to_graph_of_spec adj_list_to_matrix_of_spec
           3 scenario_labels {[ 0 := {[ 1 := of_Z 10 ]} ]} [of_Z 1]
           canonical_cost (canonical_score fdiv_py) scenario_store 1 1).
  - reflexivity.
  - lia.
  - reflexivity.
Defined.

(** X18. The two arrays that process_frame returns have one row per label
    from 0 to the largest label of the frame. *)
Theorem process_frame_one_point_per_label
    (points_to_graph :
       matrix float -> list nat -> graph ->
       (float -> float -> option float) ->
       option (list (nat * gmap nat float)))
    (dag_shortest_paths :
       list (nat * gmap nat float) -> list nat -> list nat ->
       option (gmap nat (option nat) * gmap nat float))
    (trace_path : gmap nat (option nat) -> nat -> option (list nat))
    (cdist : matrix float -> matrix float -> option (matrix float))
    (iterable_to_dict : list nat -> gmap nat nat)
    (labelled_nodes_to_graph : gmap nat nat -> graph -> option graph)
    (adj_list_to_matrix : graph -> option (matrix float))
    (population : loc) (labels : list nat) (label_adj_list : graph)
    (radii : list float)
    (cost_func score_func : float -> float -> option float)
    (h : store) (pop_1 pop_2 : loc) (h' : store) :
  process_frame points_to_graph dag_shortest_paths trace_path cdist
    iterable_to_dict labelled_nodes_to_graph adj_list_to_matrix
    population labels label_adj_list radii cost_func score_func h
  = Some ((pop_1, pop_2), h') →
  ∃ max_label a1 a2,
    max_of labels = Some max_label ∧
    h' !! pop_1 = Some a1 ∧ h' !! pop_2 = Some a2 ∧
    length a1 = max_label + 1 ∧ length a2 = max_label + 1.
Proof.
  unfold process_frame, bind, read, lift.
  destruct (h !! population) as [contents|] eqn:Hpop; [|done]. simpl.
  unfold choose_feet.
  destruct (pop_shortest_paths _ _ _ _ _ _) as [[prev dist]|]; [|done].
  simpl.
  destruct (paths_to_foot trace_path prev dist labels)
    as [[path_matrix path_dist]|] eqn:Hpaths; [|done]. simpl.
  destruct (paths_to_foot_Some_shape _ _ _ _ _ _ Hpaths)
    as (max_label & Hmax & _ & _ & Hwidth).
  destruct (get_score_matrix _ _ _ _ _ _ _ _) as [[score_matrix dist_matrix]|];
    [|done]. simpl.
  destruct (filter_by_path _ _ _) as [filtered|]; [|done]. simpl.
  destruct (select_best_feet _ _ _ _) as [[foot_1 foot_2]|]; [|done]. simpl.
  intros Hfeet.
  destruct (foot_to_pop_frame _ _ _ _ _ _ _ _ _ Hfeet)
    as (contents' & a1 & a2 & _ & Hheads & _ & _ & _ & Ha1 & Ha2 & _).
  destruct Hheads
    as (path_1 & path_2 & rows_1 & rows_2 & k & min_path & node & values
        & old_1 & old_2 & row_1 & row_2 & Hp1 & Hp2 & Hr1 & Hr2 & _ & _ & _
        & _ & _ & _ & _ & _ & -> & ->).
  exists max_label, (<[0 := row_1]> rows_1), (<[0 := row_2]> rows_2).
  split; [done|]. split; [done|]. split; [done|].
  rewrite Forall_forall in Hwidth.
  rewrite !length_insert, (mapM_length _ _ _ Hr1), (mapM_length _ _ _ Hr2).
  split; apply Hwidth; by eapply list_elem_of_lookup_2.
Qed.

Lemma process_frame_one_point_per_label_witness :
  ∃ max_label a1 a2,
    max_of scenario_labels = Some max_label ∧
    scenario_result !! 4 = Some a1 ∧ scenario_result !! 5 = Some a2 ∧
    length a1 = max_label + 1 ∧ length a2 = max_label + 1.
Proof.
  apply (process_frame_one_point_per_label points_to_graph_of_spec
           dag_shortest_paths_of_spec
           (trace_path_of_spec (has_label_0 scenario_labels))
           cdist_on_axis iterable_to_dict_of_spec
           labelled_nodes_to_graph_of_spec adj_list_to_matrix_of_spec
           3 scenario_labels scenario_adj_list [of_Z 1] canonical_cost
           (canonical_score fdiv_py) scenario_store 4 5 scenario_result).
  vm_compute. reflexivity.
Defined.

(** ** Clustering: the neighbourhoods *)

Lemma elem_of_np_nonzero mask i : i ∈ np_nonzero mask ↔ mask !! i = Some true.
Proof.
  unfold np_nonzero, range. rewrite list_elem_of_filter, elem_of_seq. split.
  - by intros [? _].
  - intros Hi. split; [done|]. apply lookup_lt_Some in Hi. lia.
Qed.

Lemma region_query_Some D eps i s :
  region_query D eps i = Some s →
  ∀ j, j ∈ s ↔ ∃ d, get2 D i j = Some d ∧ fle d eps = true.
Proof.
  unfold region_query, get2. destruct (D !! i) as [row|]; [|done]. simpl.
  intros [= <-] j. rewrite elem_of_list_to_set, elem_of_np_nonzero.
  rewrite list_lookup_fmap. destruct (row !! j) as [d|]; simpl.
  - split; [intros [= Hd]; by exists d|by intros (d' & [= <-] & ->)].
  - split; [done|by intros (d' & ? & _)].
Qed.

Lemma region_query_None D eps i : region_query D eps i = None ↔ length D ≤ i.
Proof.
  unfold region_query. rewrite <- lookup_ge_None.
  by destruct (D !! i).
Qed.

Lemma region_query_st_Some Ds Dt es et i s :
  region_query_st Ds Dt es et i = Some s →
  ∀ j, j ∈ s ↔ (∃ d, get2 Ds i j = Some d ∧ fle d es = true)
               ∧ (∃ d, get2 Dt i j = Some d ∧ fle d et = true).
Proof.
  unfold region_query_st.
  destruct (region_query Ds es i) as [ss|] eqn:Hs; [|done]. simpl.
  destruct (region_query Dt et i) as [st|] eqn:Ht; [|done]. simpl.
  intros [= <-] j. rewrite elem_of_intersection.
  by rewrite (region_query_Some _ _ _ _ Hs), (region_query_Some _ _ _ _ Ht).
Qed.

(** X19. The neighbourhood that region_query_st returns for a point holds
    exactly the points within [eps_spatial] of it in the one matrix and
    within [eps_temporal] in the other; the query raises exactly when one
    of the matrices has no row for the point. *)
Theorem region_query_st_within_both
    (D_spatial D_temporal : matrix float) (eps_spatial eps_temporal : float)
    (idx_pt : nat) :
  (region_query_st D_spatial D_temporal eps_spatial eps_temporal idx_pt = None
   ↔ length D_spatial ≤ idx_pt ∨ length D_temporal ≤ idx_pt)
  ∧ ∀ neighbours,
      region_query_st D_spatial D_temporal eps_spatial eps_temporal idx_pt
      = Some neighbours →
      ∀ j, j ∈ neighbours ↔
           (∃ d, get2 D_spatial idx_pt j = Some d ∧ fle d eps_spatial = true)
           ∧ (∃ d, get2 D_temporal idx_pt j = Some d
                   ∧ fle d eps_temporal = true).
Proof.
  split; [|apply region_query_st_Some].
  unfold region_query_st.
  rewrite <- (region_query_None D_spatial eps_spatial).
  rewrite <- (region_query_None D_temporal eps_temporal).
  destruct (region_query D_spatial _ _), (region_query D_temporal _ _);
    simpl; intuition congruence.
Qed.

(** X20. When every temporal distance of the point is within
    [eps_temporal], as it is when no times are given, the neighbourhood in
    space and time is the neighbourhood in space. *)
Theorem region_query_st_without_times
    (D_spatial D_temporal : matrix float) (eps_spatial eps_temporal : float)
    (idx_pt : nat) (distances times : list float) :
  D_spatial !! idx_pt = Some distances →
  D_temporal !! idx_pt = Some times →
  length distances ≤ length times →
  Forall (fun d => fle d eps_temporal = true) times →
  region_query_st D_spatial D_temporal eps_spatial eps_temporal idx_pt
  = region_query D_spatial eps_spatial idx_pt.
Proof.
  intros Hs Ht Hlen Hall.
  destruct (region_query_st D_spatial D_temporal eps_spatial eps_temporal
              idx_pt) as [st|] eqn:Hst.
  - destruct (region_query D_spatial eps_spatial idx_pt) as [ss|] eqn:Hss.
    + f_equal. apply set_eq. intros j.
      rewrite (region_query_st_Some _ _ _ _ _ _ Hst).
      rewrite (region_query_Some _ _ _ _ Hss). split; [by intros [? _]|].
      intros (d & Hd & Hle). split; [by exists d|].
      unfold get2 in *. rewrite Hs in Hd. rewrite Ht. simpl in *.
      destruct (lookup_lt_is_Some_2 times j) as [t Hj].
      { apply lookup_lt_Some in Hd. lia. }
      exists t. split; [done|]. rewrite Forall_forall in Hall.
      apply Hall. by eapply list_elem_of_lookup_2.
    + unfold region_query_st in Hst. by rewrite Hss in Hst.
  - unfold region_query_st, region_query in *. rewrite Hs, Ht in Hst. done.
Qed.

Lemma region_query_st_without_times_witness :
  region_query_st [[of_Z 0; of_Z 1]; [of_Z 1; of_Z 0]]
                  [[of_Z 0; of_Z 0]; [of_Z 0; of_Z 0]]
                  (Fin (1 # 2)) (Fin (1 # 2)) 0
  = region_query [[of_Z 0; of_Z 1]; [of_Z 1; of_Z 0]] (Fin (1 # 2)) 0.
Proof.
  apply (region_query_st_without_times
           [[of_Z 0; of_Z 1]; [of_Z 1; of_Z 0]]
           [[of_Z 0; of_Z 0]; [of_Z 0; of_Z 0]]
           (Fin (1 # 2)) (Fin (1 # 2)) 0 [of_Z 0; of_Z 1] [of_Z 0; of_Z 0]).
  - reflexivity.
  - reflexivity.
  - simpl. lia.
  - repeat constructor.
Defined.

(** ** Clustering: the loop of grow_cluster_st *)

Lemma count_zero_le labels : count_zero labels ≤ length labels.
Proof. apply length_filter. Qed.

Lemma count_zero_insert_other labels q l c :
  labels !! q = Some l → l ≠ 0%Z → c ≠ 0%Z →
  count_zero (<[q := c]> labels) = count_zero labels.
Proof.
  unfold count_zero. revert q.
  induction labels as [|x labels IH]; intros q Hq Hl Hc; [done|].
  destruct q as [|q]; simpl in *.
  - injection Hq as ->. by rewrite !filter_cons_False.
  - rewrite !filter_cons. specialize (IH q Hq Hl Hc).
    case_decide; simpl; by rewrite IH.
Qed.

Lemma count_zero_insert_zero labels q c :
  labels !! q = Some 0%Z → c ≠ 0%Z →
  S (count_zero (<[q := c]> labels)) = count_zero labels.
Proof.
  unfold count_zero. revert q.
  induction labels as [|x labels IH]; intros q Hq Hc; [done|].
  destruct q as [|q]; simpl in *.
  - injection Hq as ->. rewrite filter_cons_False by done.
    by rewrite filter_cons_True.
  - rewrite !filter_cons. specialize (IH q Hq Hc).
    case_decide; simpl; by rewrite <- IH.
Qed.

Lemma for_range_outcome_total {St} (I : nat -> St -> Prop) n s
    (body : St -> nat -> outcome St) :
  I 0 s →
  (∀ k s1, k < n → I k s1 → ∃ s2, body s1 k = Returned s2 ∧ I (k + 1) s2) →
  ∃ s', for_each_outcome (range n) s body = Returned s' ∧ I n s'.
Proof.
  intros Hstart Hstep. unfold range.
  assert (∀ len a s1, a + len = n → I a s1 →
            ∃ s', for_each_outcome (seq a len) s1 body = Returned s' ∧ I n s')
    as Hgen.
  { induction len as [|len IH]; intros a s1 Ha Hs1; simpl.
    - exists s1. split; [done|]. by replace n with a by lia.
    - destruct (Hstep a s1 ltac:(lia) Hs1) as (s2 & -> & Hs2).
      apply IH; [lia|]. by replace (S a) with (a + 1) by lia. }
  by apply Hgen.
Qed.

Section search_queue_facts.
Variable set_order : nat -> gset nat -> list nat.
Hypothesis set_order_lists : lists_elements set_order.
Variables (Ds Dt : matrix float) (es et : float) (min_pts n : nat).
Hypothesis Ds_square : square n Ds.
Hypothesis Dt_square : square n Dt.

Lemma elem_of_set_order p s x : x ∈ set_order p s ↔ x ∈ s.
Proof. by rewrite (set_order_lists p s), elem_of_elements. Qed.

Lemma length_set_order p s : length (set_order p s) = size s.
Proof. by rewrite (set_order_lists p s). Qed.

Lemma region_query_in_range D eps p :
  square n D → p < n →
  ∃ nb, region_query D eps p = Some nb ∧ ∀ q, q ∈ nb → q < n.
Proof.
  intros [Hrows Hcols] Hp.
  destruct (lookup_lt_is_Some_2 D p ltac:(lia)) as [row Hrow].
  destruct (region_query D eps p) as [nb|] eqn:Hnb.
  - exists nb. split; [done|]. intros q Hq.
    apply (region_query_Some _ _ _ _ Hnb) in Hq as (d & Hd & _).
    unfold get2 in Hd. rewrite Hrow in Hd. simpl in Hd.
    apply lookup_lt_Some in Hd. rewrite Forall_forall in Hcols.
    rewrite (Hcols row) in Hd; [done|]. by eapply list_elem_of_lookup_2.
  - apply region_query_None in Hnb. lia.
Qed.

Lemma neighbours_in_range p :
  p < n →
  ∃ nb, region_query_st Ds Dt es et p = Some nb ∧
        (∀ q, q ∈ nb → q < n) ∧ size nb ≤ n.
Proof.
  intros Hp. unfold region_query_st.
  destruct (region_query_in_range Ds es p Ds_square Hp) as (ss & -> & Hss).
  destruct (region_query_in_range Dt et p Dt_square Hp) as (st & -> & Hst).
  simpl. eexists. split; [done|].
  assert (∀ q, q ∈ ss ∩ st → q < n) as Hrange.
  { intros q [Hq _]%elem_of_intersection. by apply Hss. }
  split; [done|].
  rewrite <- (size_set_seq (C:=gset nat) 0 n). apply subseteq_size.
  intros q Hq. apply elem_of_set_seq. split; [lia|]. simpl. by apply Hrange.
Qed.

(** The rule of the loop: a property of the labels and the queue that
    every branch of the body keeps holds when the loop ends, and the loop
    ends within a number of iterations that the queue and the unclaimed
    points bound, as long as the label of the cluster is not the 0 of an
    unclaimed point. *)
Lemma search_queue_rule (c : Z) (I : list Z -> list nat -> Prop) :
  c ≠ 0%Z →
  (∀ labels Q, I labels Q → length labels = n ∧ Forall (fun q => q < n) Q) →
  (∀ labels q Q,
     I labels (q :: Q) → labels !! q = Some (-1)%Z → I (<[q := c]> labels) Q) →
  (∀ labels q Q nb,
     I labels (q :: Q) → labels !! q = Some 0%Z →
     region_query_st Ds Dt es et q = Some nb →
     I (<[q := c]> labels)
       (if decide (min_pts ≤ size nb) then Q ++ set_order q nb else Q)) →
  (∀ labels q Q l,
     I labels (q :: Q) → labels !! q = Some l → l ≠ 0%Z → l ≠ (-1)%Z →
     I labels Q) →
  ∀ fuel labels Q,
    I labels Q → length Q + count_zero labels * n < fuel →
    ∃ labels',
      search_queue set_order fuel Ds Dt labels Q c es et min_pts
      = Returned labels' ∧ I labels' [].
Proof.
  intros Hc Hshape Hnoise Hzero Hother.
  induction fuel as [|fuel IH]; intros labels Q HI Hfuel; [lia|].
  destruct Q as [|q Q]; simpl; [by exists labels|].
  destruct (Hshape _ _ HI) as [Hlen [Hq HQ]%Forall_cons].
  destruct (lookup_lt_is_Some_2 labels q ltac:(lia)) as [l Hl].
  rewrite Hl. simpl in Hfuel.
  destruct (decide (l = -1)%Z) as [->|Hl1].
  { apply IH; [by apply Hnoise|].
    rewrite (count_zero_insert_other _ _ _ _ Hl) by done. lia. }
  destruct (decide (l = 0)%Z) as [->|Hl0].
  - destruct (neighbours_in_range q Hq) as (nb & Hnb & _ & Hsize).
    rewrite Hnb. specialize (Hzero labels q Q nb HI Hl Hnb).
    pose proof (count_zero_insert_zero labels q c Hl Hc) as Hcount.
    destruct (decide (min_pts ≤ size nb)).
    + apply IH; [done|]. rewrite length_app, length_set_order. nia.
    + apply IH; [done|]. nia.
  - apply IH; [by eapply Hother|]. lia.
Qed.
End search_queue_facts.

Lemma region_query_st_lt Ds Dt es et n :
  square n Ds →
  ∀ x nb, region_query_st Ds Dt es et x = Some nb → x < n.
Proof.
  intros [Hrows _] x nb Hnb. destruct (decide (x < n)) as [|Hge]; [done|].
  assert (region_query Ds es x = None) as Hnone
    by (apply region_query_None; lia).
  unfold region_query_st in Hnb. by rewrite Hnone in Hnb.
Qed.

Lemma neighbour_sym Ds Dt es et n :
  square n Ds → square n Dt → symmetric Ds → symmetric Dt →
  ∀ p q, neighbour Ds Dt es et p q → neighbour Ds Dt es et q p.
Proof.
  intros Hs Ht Hsyms Hsymt p q (nb & Hnb & Hq).
  pose proof (region_query_st_lt Ds Dt es et n Hs p nb Hnb) as Hp.
  destruct (neighbours_in_range Ds Dt es et n Hs Ht p Hp)
    as (nb' & Hnb' & Hin & _).
  rewrite Hnb in Hnb'. injection Hnb' as <-.
  destruct (neighbours_in_range Ds Dt es et n Hs Ht q (Hin q Hq))
    as (nbq & Hnbq & _).
  exists nbq. split; [done|].
  apply (region_query_st_Some _ _ _ _ _ _ Hnbq).
  apply (region_query_st_Some _ _ _ _ _ _ Hnb) in Hq.
  by rewrite (Hsyms q p), (Hsymt q p).
Qed.

(** ** Clustering: what dbscan_st keeps *)

Section dbscan_facts.
Variable set_order : nat -> gset nat -> list nat.
Hypothesis set_order_lists : lists_elements set_order.
Variables (Ds Dt : matrix float) (es et : float) (min_pts n : nat).
Hypothesis Ds_square : square n Ds.
Hypothesis Dt_square : square n Dt.

Abbreviation kept := (clustered Ds Dt es et min_pts n).
Abbreviation is_core := (core_point Ds Dt es et min_pts).
Abbreviation near := (neighbour Ds Dt es et).

(** A point of the queue whose label is 0 or -1 joins the cluster [k]. *)
Lemma clustered_join m k q Q Q' labels l0 :
  (1 ≤ k)%Z →
  kept m k (q :: Q) labels →
  labels !! q = Some l0 → (l0 = 0 ∨ l0 = -1)%Z →
  (∀ x, x ∈ Q → x ∈ Q') →
  (is_core q → ∀ x, near q x → x ∈ Q') →
  (∀ x, x ∈ Q' → x ∈ Q ∨ (is_core q ∧ near q x)) →
  kept m k Q' (<[q := k]> labels).
Proof.
  intros Hk [Hlen Hrange Hseeds Hnoise Hclosed Hreached Hqueue Hvisited
             Hcores] Hq Hl0 Hkeep Hcore Hnew.
  assert (q < n) as Hqn by (apply Hqueue; left).
  assert (∀ i l, labels !! i = Some l → (1 ≤ l)%Z →
                 <[q := k]> labels !! i = Some l) as Hold.
  { intros i l Hi Hl. rewrite list_lookup_insert_ne; [done|].
    intros ->. rewrite Hq in Hi. injection Hi as ->. lia. }
  assert (<[q := k]> labels !! q = Some k) as Hnewq.
  { apply list_lookup_insert_eq. lia. }
  assert (∀ i l, <[q := k]> labels !! i = Some l →
                 (i = q ∧ l = k) ∨ (i ≠ q ∧ labels !! i = Some l)) as Hinv.
  { intros i l Hi. destruct (decide (i = q)) as [->|Hne].
    - left. rewrite Hnewq in Hi. by injection Hi as <-.
    - right. by rewrite list_lookup_insert_ne in Hi. }
  split.
  - by rewrite length_insert.
  - intros i l [[-> ->]|[_ Hi]]%Hinv; [lia|by eapply Hrange].
  - intros c Hc. destruct (Hseeds c Hc) as [i Hi]. exists i.
    apply Hold; [done|lia].
  - intros i [[-> ?]|[_ Hi]]%Hinv; [lia|by apply Hnoise].
  - intros p l x [[-> ->]|[Hpq Hp]]%Hinv Hl Hpcore Hpx.
    + right. by apply Hcore.
    + destruct (Hclosed p l x Hp Hl Hpcore Hpx) as [(l' & Hx & Hl')|Hx].
      * left. exists l'. split; [by apply Hold|done].
      * apply elem_of_cons in Hx as [->|Hx].
        -- left. by exists k.
        -- right. by apply Hkeep.
  - intros x l [[-> ->]|[Hxq Hx]]%Hinv Hl.
    + destruct (Hqueue q) as [_ (p & Hp & Hpcore & Hpq)]; [left|].
      exists p. split; [by apply Hold|]. split; [done|by right].
    + destruct (Hreached x l Hx Hl) as (p & Hp & Hpcore & Hpx).
      exists p. split; [by apply Hold|done].
  - intros x [Hx|[Hqcore Hqx]]%Hnew.
    + destruct (Hqueue x) as [Hxn (p & Hp & Hpcore & Hpx)]; [by right|].
      split; [done|]. exists p. split; [by apply Hold|done].
    + split.
      * destruct Hqx as (nb & Hnb & Hx).
        destruct (neighbours_in_range Ds Dt es et n Ds_square Dt_square q Hqn)
          as (nb' & Hnb' & Hin & _).
        rewrite Hnb in Hnb'. injection Hnb' as <-. by apply Hin.
      * by exists q.
  - intros i Hi [[-> ?]|[_ Hi0]]%Hinv; [lia|by eapply Hvisited].
  - intros Hsyms Hsymt p x l [[-> ->]|[Hpq Hp]]%Hinv Hl Hpcore Hxcore Hpx.
    + destruct (decide (x = q)) as [->|Hxq]; [by left|].
      assert (x < n) as Hxn.
      { destruct Hxcore as (nbx & Hnbx & _).
        by apply (region_query_st_lt Ds Dt es et n Ds_square x nbx). }
      destruct (lookup_lt_is_Some_2 labels x ltac:(lia)) as [lx Hlx].
      rewrite list_lookup_insert_ne by done. rewrite Hlx.
      destruct (decide (lx = -1)%Z) as [->|Hlx1];
        [by destruct (Hnoise x Hlx)|].
      destruct (decide (lx = 0)%Z) as [->|Hlx0].
      { right. split; [done|]. split; [done|]. by apply Hcore. }
      specialize (Hrange x lx Hlx).
      destruct (Hcores Hsyms Hsymt x q lx Hlx ltac:(lia) Hxcore Hpcore)
        as [Hsame|(-> & _)]; [| |by left].
      * by apply (neighbour_sym Ds Dt es et n Ds_square Dt_square
                    Hsyms Hsymt).
      * rewrite Hq in Hsame. injection Hsame as ->. lia.
    + destruct (Hcores Hsyms Hsymt p x l Hp Hl Hpcore Hxcore Hpx)
        as [Hx|(-> & Hx & Hin)].
      * left. by apply Hold.
      * destruct (decide (x = q)) as [->|Hxq]; [by left|].
        right. split; [done|]. split; [by rewrite list_lookup_insert_ne|].
        apply Hkeep. by apply elem_of_cons in Hin as [?|?].
Qed.

(** A point of the queue that a cluster has claimed is left as it is. *)
Lemma clustered_skip m k q Q labels l :
  kept m k (q :: Q) labels →
  labels !! q = Some l → l ≠ 0%Z → l ≠ (-1)%Z →
  kept m k Q labels.
Proof.
  intros [Hlen Hrange Hseeds Hnoise Hclosed Hreached Hqueue Hvisited
          Hcores] Hq Hl0 Hl1.
  split; try done.
  - intros p l' x Hp Hl' Hpcore Hpx.
    destruct (Hclosed p l' x Hp Hl' Hpcore Hpx) as [?|Hx]; [by left|].
    apply elem_of_cons in Hx as [->|Hx]; [|by right].
    left. exists l. split; [done|]. specialize (Hrange q l Hq). lia.
  - intros x Hx. apply Hqueue. by right.
  - intros Hsyms Hsymt p x l' Hp Hl' Hpcore Hxcore Hpx.
    destruct (Hcores Hsyms Hsymt p x l' Hp Hl' Hpcore Hxcore Hpx)
      as [?|(-> & Hx & Hin)]; [by left|].
    right. split; [done|]. split; [done|].
    apply elem_of_cons in Hin as [->|Hin]; [|done].
    rewrite Hq in Hx. by injection Hx as ->.
Qed.

(** The loop of grow_cluster_st for the cluster [k] ends, and it keeps
    what dbscan_st keeps. *)
Lemma search_queue_clustered fuel m k Q labels :
  (1 ≤ k)%Z →
  kept m k Q labels →
  n + n * n < fuel →
  length Q ≤ n →
  ∃ labels',
    search_queue set_order fuel Ds Dt labels Q k es et min_pts
    = Returned labels' ∧ kept m k [] labels'.
Proof.
  intros Hk Hkept Hfuel HQ.
  apply (search_queue_rule set_order set_order_lists Ds Dt es et min_pts n
           Ds_square Dt_square k (fun labels Q => kept m k Q labels)).
  - lia.
  - intros labels0 Q0 H0. split; [apply H0|].
    apply Forall_forall. intros x Hx.
    by apply (clustered_queue _ _ _ _ _ _ _ _ _ _ H0).
  - intros labels0 q Q0 H0 Hq.
    apply (clustered_join m k q Q0 Q0 labels0 (-1)%Z); try done.
    + by right.
    + intros Hcore. by destruct (clustered_noise _ _ _ _ _ _ _ _ _ _ H0 q Hq).
    + intros x Hx. by left.
  - intros labels0 q Q0 nb H0 Hq Hnb.
    apply (clustered_join m k q Q0 _ labels0 0%Z); try done.
    + by left.
    + intros x Hx. case_decide; [|done]. apply elem_of_app. by left.
    + intros (nb' & Hnb' & Hsize) x (nb'' & Hnb'' & Hx).
      rewrite Hnb in Hnb', Hnb''. injection Hnb' as <-.
      injection Hnb'' as <-. rewrite decide_True by done.
      apply elem_of_app. right.
      by apply (elem_of_set_order set_order set_order_lists).
    + intros x Hx. case_decide as Hsize; [|by left].
      apply elem_of_app in Hx as [Hx|Hx]; [by left|]. right.
      apply (elem_of_set_order set_order set_order_lists) in Hx.
      split; by exists nb.
  - intros labels0 q Q0 l H0 Hq Hl0 Hl1. by eapply clustered_skip.
  - done.
  - pose proof (count_zero_le labels) as Hzeros.
    rewrite (clustered_length _ _ _ _ _ _ _ _ _ _ Hkept) in Hzeros. nia.
Qed.

(** The body of the loop of dbscan_st returns and keeps what is kept. *)
Lemma visit_point_clustered fuel idx k labels :
  n + n * n < fuel →
  idx < n → (0 ≤ k)%Z →
  kept idx k [] labels →
  ∃ labels' k',
    visit_point set_order fuel Ds Dt es et min_pts (labels, k) idx
    = Returned (labels', k') ∧
    (0 ≤ k')%Z ∧ kept (idx + 1) k' [] labels'.
Proof.
  intros Hfuel Hidx Hk Hkept.
  destruct Hkept as [Hlen Hrange Hseeds Hnoise Hclosed Hreached Hqueue
                     Hvisited Hcores].
  destruct (lookup_lt_is_Some_2 labels idx ltac:(lia)) as [l Hl].
  unfold visit_point. rewrite Hl.
  destruct (decide (l ≠ 0)%Z) as [Hl0|Hl0].
  { exists labels, k. split; [done|]. split; [done|]. split; try done.
    intros i Hi. destruct (decide (i = idx)) as [->|Hne].
    - rewrite Hl. congruence.
    - apply Hvisited. lia. }
  assert (l = 0%Z) as -> by lia. clear Hl0.
  destruct (neighbours_in_range Ds Dt es et n Ds_square Dt_square idx Hidx)
    as (nb & Hnb & Hin & Hsize).
  rewrite Hnb.
  assert (∀ (c : Z) i l, labels !! i = Some l → l ≠ 0%Z →
                 <[idx := c]> labels !! i = Some l) as Hold.
  { intros c i l' Hi Hl'. rewrite list_lookup_insert_ne; [done|].
    intros ->. rewrite Hl in Hi. by injection Hi as <-. }
  assert (∀ (c : Z) i l, <[idx := c]> labels !! i = Some l →
            (i = idx ∧ l = c) ∨ (i ≠ idx ∧ labels !! i = Some l)) as Hinv.
  { intros c i l' Hi. destruct (decide (i = idx)) as [->|Hne].
    - left. rewrite list_lookup_insert_eq in Hi by lia.
      by injection Hi as <-.
    - right. by rewrite list_lookup_insert_ne in Hi. }
  destruct (decide (size nb < min_pts)) as [Hsmall|Hlarge].
  - eexists _, k. split; [done|]. split; [done|]. split.
    + by rewrite length_insert.
    + intros i l' [[-> ->]|[_ Hi]]%Hinv; [lia|by eapply Hrange].
    + intros c Hc. destruct (Hseeds c Hc) as [i Hi]. exists i.
      apply Hold; [done|lia].
    + intros i [[-> _]|[_ Hi]]%Hinv; [|by apply Hnoise].
      intros (nb' & Hnb' & Hcore). rewrite Hnb in Hnb'.
      injection Hnb' as <-. lia.
    + intros p l' x [[-> ->]|[_ Hp]]%Hinv Hl' Hpcore Hpx; [lia|].
      destruct (Hclosed p l' x Hp Hl' Hpcore Hpx) as [(l'' & Hx & Hl'')|Hx];
        [|by apply elem_of_nil in Hx].
      left. exists l''. split; [|done]. apply Hold; [done|lia].
    + intros x l' [[-> ->]|[_ Hx]]%Hinv Hl'; [lia|].
      destruct (Hreached x l' Hx Hl') as (p & Hp & Hpcore & Hpx).
      exists p. split; [|done]. apply Hold; [done|lia].
    + intros x Hx. by apply elem_of_nil in Hx.
    + intros i Hi [[-> ?]|[Hne Hi0]]%Hinv; [lia|].
      apply (Hvisited i); [lia|done].
    + intros Hsyms Hsymt p x l' [[-> ->]|[_ Hp]]%Hinv Hl' Hpcore Hxcore Hpx;
        [lia|].
      destruct (Hcores Hsyms Hsymt p x l' Hp Hl' Hpcore Hxcore Hpx)
        as [Hx|(_ & _ & Hnil)]; [|by apply elem_of_nil in Hnil].
      left. apply Hold; [done|lia].
  - assert (is_core idx) as Hcore by (exists nb; split; [done|lia]).
    unfold grow_cluster_st.
    destruct (search_queue_clustered fuel (idx + 1) (k + 1)
                (set_order idx nb)
                (<[idx := (k + 1)%Z]> labels))
      as (labels' & -> & Hkept'); [lia| |done| |].
    + split.
      * by rewrite length_insert.
      * intros i l' [[-> ->]|[_ Hi]]%Hinv; [lia|].
        specialize (Hrange i l' Hi). lia.
      * intros c Hc. destruct (decide (c = k + 1)%Z) as [->|Hne].
        -- exists idx. apply list_lookup_insert_eq. lia.
        -- destruct (Hseeds c ltac:(lia)) as [i Hi]. exists i.
           apply Hold; [done|lia].
      * intros i [[-> ?]|[_ Hi]]%Hinv; [lia|by apply Hnoise].
      * intros p l' x [[-> ->]|[_ Hp]]%Hinv Hl' Hpcore Hpx.
        -- right. destruct Hpx as (nb' & Hnb' & Hx). rewrite Hnb in Hnb'.
           injection Hnb' as <-.
           by apply (elem_of_set_order set_order set_order_lists).
        -- destruct (Hclosed p l' x Hp Hl' Hpcore Hpx)
             as [(l'' & Hx & Hl'')|Hx]; [|by apply elem_of_nil in Hx].
           left. exists l''. split; [|done]. apply Hold; [done|lia].
      * intros x l' [[-> ->]|[_ Hx]]%Hinv Hl'.
        -- exists idx. split; [apply list_lookup_insert_eq; lia|].
           split; [done|by left].
        -- destruct (Hreached x l' Hx Hl') as (p & Hp & Hpcore & Hpx).
           exists p. split; [|done]. apply Hold; [done|lia].
      * intros x Hx%(elem_of_set_order set_order set_order_lists).
        split; [by apply Hin|]. exists idx.
        split; [apply list_lookup_insert_eq; lia|].
        split; [done|]. by exists nb.
      * intros i Hi [[-> ?]|[Hne Hi0]]%Hinv; [lia|].
        apply (Hvisited i); [lia|done].
      * intros Hsyms Hsymt p x l' [[-> ->]|[_ Hp]]%Hinv Hl' Hpcore Hxcore Hpx.
        -- destruct (decide (x = idx)) as [->|Hxi].
           { left. apply list_lookup_insert_eq. lia. }
           assert (x ∈ set_order idx nb) as Hxq.
           { destruct Hpx as (nb' & Hnb' & Hx). rewrite Hnb in Hnb'.
             injection Hnb' as <-.
             by apply (elem_of_set_order set_order set_order_lists). }
           assert (x < n) as Hxn.
           { destruct Hxcore as (nbx & Hnbx & _).
             by apply (region_query_st_lt Ds Dt es et n Ds_square x nbx). }
           destruct (lookup_lt_is_Some_2 labels x ltac:(lia)) as [lx Hlx].
           rewrite list_lookup_insert_ne by done. rewrite Hlx.
           destruct (decide (lx = -1)%Z) as [->|Hlx1];
             [by destruct (Hnoise x Hlx)|].
           destruct (decide (lx = 0)%Z) as [->|Hlx0]; [by right|].
           specialize (Hrange x lx Hlx).
           destruct (Hcores Hsyms Hsymt x idx lx Hlx ltac:(lia) Hxcore Hcore)
             as [Hsame|(_ & _ & Hnil)]; [| |by apply elem_of_nil in Hnil].
           ++ by apply (neighbour_sym Ds Dt es et n Ds_square Dt_square
                          Hsyms Hsymt).
           ++ rewrite Hl in Hsame. injection Hsame as <-. lia.
        -- destruct (Hcores Hsyms Hsymt p x l' Hp Hl' Hpcore Hxcore Hpx)
             as [Hx|(_ & _ & Hnil)]; [|by apply elem_of_nil in Hnil].
           left. apply Hold; [done|lia].
    + by rewrite (length_set_order set_order set_order_lists).
    + exists labels', (k + 1)%Z. split; [done|]. split; [lia|done].
Qed.

(** The loop of dbscan_st over all points. *)
Lemma visit_all_clustered fuel :
  n + n * n < fuel →
  ∃ labels k,
    for_each_outcome (range n) (replicate n 0%Z, 0%Z)
      (visit_point set_order fuel Ds Dt es et min_pts)
    = Returned (labels, k) ∧
    (0 ≤ k)%Z ∧ kept n k [] labels.
Proof.
  intros Hfuel.
  destruct (for_range_outcome_total
    (fun idx (state : list Z * Z) =>
       (0 ≤ state.2)%Z ∧ kept idx state.2 [] state.1)
    n (replicate n 0%Z, 0%Z)
    (visit_point set_order fuel Ds Dt es et min_pts))
    as ([labels k] & Hrun & Hk & Hkept).
  - split; [done|]. simpl. split.
    + by rewrite length_replicate.
    + intros i l [-> _]%lookup_replicate. lia.
    + intros c Hc. lia.
    + intros i [? _]%lookup_replicate. lia.
    + intros p l q [-> _]%lookup_replicate. lia.
    + intros q l [-> _]%lookup_replicate. lia.
    + intros q Hq. by apply elem_of_nil in Hq.
    + intros i Hi. lia.
    + intros _ _ p q l [-> _]%lookup_replicate. lia.
  - intros idx [labels k] Hidx [Hk Hkept]. simpl in *.
    destruct (visit_point_clustered fuel idx k labels Hfuel Hidx Hk Hkept)
      as (labels' & k' & Hrun & Hk' & Hkept').
    by exists (labels', k').
  - by exists labels, k.
Qed.
End dbscan_facts.

(** ** Clustering: dbscan_st *)

(** What a run of dbscan_st returns, for [cdist] results that are square
    matrices over the points. *)
Lemma dbscan_st_run (set_order : nat -> gset nat -> list nat)
    (cdist : matrix float -> matrix float -> option (matrix float))
    (points : matrix float) (times : option (list float))
    (es et : float) (min_pts : nat) (Ds Dt : matrix float) (fuel : nat) :
  let n := length points in
  lists_elements set_order →
  cdist points points = Some Ds →
  cdist ((fun t : float => [t]) <$> default (replicate n fzero) times)
        ((fun t : float => [t]) <$> default (replicate n fzero) times)
  = Some Dt →
  square n Ds → square n Dt →
  n + n * n < fuel →
  ∃ labels k,
    dbscan_st set_order cdist fuel points times es et min_pts
    = Returned labels ∧
    length labels = n ∧ (0 ≤ k)%Z ∧
    (∀ i l, labels !! i = Some l → (-1 ≤ l < k)%Z) ∧
    (∀ c, (0 ≤ c < k)%Z → ∃ i, labels !! i = Some c) ∧
    (∀ i, labels !! i = Some (-1)%Z → ¬ core_point Ds Dt es et min_pts i) ∧
    (∀ p q, core_point Ds Dt es et min_pts p → neighbour Ds Dt es et p q →
            ∃ l, labels !! q = Some l ∧ (0 ≤ l)%Z) ∧
    (∀ q l, labels !! q = Some l → (0 ≤ l)%Z →
            ∃ p, labels !! p = Some l ∧ core_point Ds Dt es et min_pts p ∧
                 (q = p ∨ neighbour Ds Dt es et p q)) ∧
    (symmetric Ds → symmetric Dt →
     ∀ p q, core_point Ds Dt es et min_pts p →
            core_point Ds Dt es et min_pts q →
            neighbour Ds Dt es et p q →
            ∃ l, labels !! p = Some l ∧ labels !! q = Some l ∧ (0 ≤ l)%Z).
Proof.
  intros n Horder HDs HDt Hs Ht Hfuel. unfold dbscan_st. rewrite HDs.
  fold n.
  replace (match times with
           | Some times0 => times0
           | None => replicate n fzero
           end) with (default (replicate n fzero) times)
    by by destruct times.
  rewrite HDt.
  destruct (visit_all_clustered set_order Horder Ds Dt es et min_pts n
              Hs Ht fuel Hfuel) as (labels & k & -> & Hk & Hkept).
  destruct Hkept as [Hlen Hrange Hseeds Hnoise Hclosed Hreached _ Hvisited
                     Hcores].
  set (shift := fun label : Z =>
                  if decide (label ≠ -1)%Z then (label - 1)%Z else label).
  assert (∀ i l0, labels !! i = Some l0 → l0 ≠ 0%Z) as Hclaimed.
  { intros i l0 Hl0 ->. apply (Hvisited i); [|done].
    apply lookup_lt_Some in Hl0. lia. }
  assert (∀ i l, (shift <$> labels) !! i = Some l →
            ∃ l0, labels !! i = Some l0 ∧ l0 ≠ 0%Z ∧ l = shift l0) as Hback.
  { intros i l Hi. rewrite list_lookup_fmap in Hi.
    destruct (labels !! i) as [l0|] eqn:Hl0; [|done]. injection Hi as <-.
    exists l0. split; [done|]. split; [by eapply Hclaimed|done]. }
  assert (∀ i l0, labels !! i = Some l0 →
            (shift <$> labels) !! i = Some (shift l0)) as Hforth.
  { intros i l0 Hi. by rewrite list_lookup_fmap, Hi. }
  exists (shift <$> labels), k. split; [done|].
  split; [by rewrite length_fmap|]. split; [done|].
  assert (∀ p, core_point Ds Dt es et min_pts p →
            ∃ l, labels !! p = Some l ∧ (1 ≤ l)%Z) as Hcore_label.
  { intros p Hcore.
    assert (p < n) as Hp.
    { destruct Hcore as (nb & Hnb & _).
      by apply (region_query_st_lt Ds Dt es et n Hs p nb). }
    destruct (lookup_lt_is_Some_2 labels p ltac:(lia)) as [l Hl].
    exists l. split; [done|].
    specialize (Hrange p l Hl). specialize (Hclaimed p l Hl).
    assert (l ≠ (-1)%Z) by (intros ->; by apply (Hnoise p)). lia. }
  split; [|split; [|split; [|split; [|split]]]].
  - intros i l (l0 & Hl0 & Hne & ->)%Hback.
    specialize (Hrange i l0 Hl0). unfold shift. case_decide; lia.
  - intros c Hc. destruct (Hseeds (c + 1)%Z ltac:(lia)) as [i Hi].
    exists i. rewrite (Hforth i _ Hi). f_equal. unfold shift.
    case_decide; lia.
  - intros i (l0 & Hl0 & Hne & Hshift)%Hback. apply Hnoise.
    rewrite Hl0. f_equal. unfold shift in Hshift. case_decide; lia.
  - intros p q Hcore Hnear.
    destruct (Hcore_label p Hcore) as (l & Hl & Hl1).
    destruct (Hclosed p l q Hl Hl1 Hcore Hnear) as [(l' & Hq & Hl')|Hq];
      [|by apply elem_of_nil in Hq].
    exists (shift l'). split; [by apply Hforth|].
    unfold shift. case_decide; lia.
  - intros q l (l0 & Hl0 & Hne & ->)%Hback Hl.
    assert (1 ≤ l0)%Z as Hl1.
    { specialize (Hrange q l0 Hl0). unfold shift in Hl. case_decide; lia. }
    destruct (Hreached q l0 Hl0 Hl1) as (p & Hp & Hcore & Hpq).
    exists p. split; [by apply Hforth|done].
  - intros Hsyms Hsymt p q Hpcore Hqcore Hnear.
    destruct (Hcore_label p Hpcore) as (l & Hl & Hl1).
    destruct (Hcores Hsyms Hsymt p q l Hl Hl1 Hpcore Hqcore Hnear)
      as [Hq|(_ & _ & Hnil)]; [|by apply elem_of_nil in Hnil].
    exists (shift l). split; [by apply Hforth|]. split; [by apply Hforth|].
    unfold shift. case_decide; lia.
Qed.

(** X21. When [cdist] gives square matrices over the points, dbscan_st
    returns, within [n + n * n] iterations of each run of the loop of
    grow_cluster_st, one label per point.  The labels are -1 for noise and
    the numbers 0 to [k - 1] of the clusters, and every one of these
    numbers is the label of some point. *)
Theorem dbscan_st_labels_every_point
    (set_order : nat -> gset nat -> list nat)
    (cdist : matrix float -> matrix float -> option (matrix float))
    (points : matrix float) (times : option (list float))
    (eps_spatial eps_temporal : float) (min_pts : nat)
    (D_spatial D_temporal : matrix float) (fuel : nat) :
  let n := length points in
  lists_elements set_order →
  cdist points points = Some D_spatial →
  cdist ((fun t : float => [t]) <$> default (replicate n fzero) times)
        ((fun t : float => [t]) <$> default (replicate n fzero) times)
  = Some D_temporal →
  square n D_spatial → square n D_temporal →
  n + n * n < fuel →
  ∃ labels k,
    dbscan_st set_order cdist fuel points times eps_spatial eps_temporal
              min_pts = Returned labels ∧
    length labels = n ∧ (0 ≤ k)%Z ∧
    (∀ i l, labels !! i = Some l → (-1 ≤ l < k)%Z) ∧
    (∀ c, (0 ≤ c < k)%Z → ∃ i, labels !! i = Some c).
Proof.
  intros n Horder HDs HDt Hs Ht Hfuel.
  destruct (dbscan_st_run set_order cdist points times eps_spatial
              eps_temporal min_pts D_spatial D_temporal fuel
              Horder HDs HDt Hs Ht Hfuel)
    as (labels & k & Hrun & Hlen & Hk & Hrange & Hseeds & _).
  by exists labels, k.
Qed.

Example dbscan_st_line :
  dbscan_st elements_order cdist_on_axis 43 line_points None (of_Z 1)
            (Fin (1 # 2)) 2
  = Returned [0; 0; 0; 1; 1; 1]%Z
  ∧ dbscan_st elements_order cdist_on_axis 43 line_points (Some line_times)
              (of_Z 1) (of_Z 1) 2
    = Returned [0; 0; 0; 1; 1; 1]%Z
  ∧ dbscan_st elements_order cdist_on_axis 43 line_points (Some line_times)
              (of_Z 1) (Fin (1 # 2)) 2
    = Returned [-1; -1; -1; -1; -1; -1]%Z
  ∧ dbscan_st elements_order cdist_on_axis 43 line_points None (of_Z 1)
              (Fin (1 # 2)) 3
    = Returned [0; 0; 0; 1; 1; 1]%Z.
Proof. repeat split; vm_compute; reflexivity. Qed.

Lemma elements_lists_elements : lists_elements elements_order.
Proof. intros p s. reflexivity. Qed.

Lemma line_distances_square : square 6 line_distances.
Proof. split; [reflexivity|repeat constructor]. Qed.

Lemma no_time_distances_square : square 6 no_time_distances.
Proof. split; [reflexivity|repeat constructor]. Qed.

Lemma dbscan_st_labels_every_point_witness :
  ∃ labels k,
    dbscan_st elements_order cdist_on_axis 43 line_points None (of_Z 1)
              (Fin (1 # 2)) 2 = Returned labels ∧
    length labels = length line_points ∧ (0 ≤ k)%Z ∧
    (∀ i l, labels !! i = Some l → (-1 ≤ l < k)%Z) ∧
    (∀ c, (0 ≤ c < k)%Z → ∃ i, labels !! i = Some c).
Proof.
  apply (dbscan_st_labels_every_point elements_order cdist_on_axis
           line_points None (of_Z 1) (Fin (1 # 2)) 2 line_distances
           no_time_distances 43).
  - apply elements_lists_elements.
  - vm_compute. reflexivity.
  - vm_compute. reflexivity.
  - apply line_distances_square.
  - apply no_time_distances_square.
  - simpl. lia.
Defined.

(** X22. In the labels that dbscan_st returns, a point marked as noise is
    no core point, and no point of the neighbourhood of a core point is
    marked as noise: each of them has the label of a cluster. *)
Theorem dbscan_st_noise_is_not_core
    (set_order : nat -> gset nat -> list nat)
    (cdist : matrix float -> matrix float -> option (matrix float))
    (points : matrix float) (times : option (list float))
    (eps_spatial eps_temporal : float) (min_pts : nat)
    (D_spatial D_temporal : matrix float) (fuel : nat) :
  let n := length points in
  lists_elements set_order →
  cdist points points = Some D_spatial →
  cdist ((fun t : float => [t]) <$> default (replicate n fzero) times)
        ((fun t : float => [t]) <$> default (replicate n fzero) times)
  = Some D_temporal →
  square n D_spatial → square n D_temporal →
  n + n * n < fuel →
  ∃ labels,
    dbscan_st set_order cdist fuel points times eps_spatial eps_temporal
              min_pts = Returned labels ∧
    (∀ i, labels !! i = Some (-1)%Z →
          ¬ core_point D_spatial D_temporal eps_spatial eps_temporal
                       min_pts i) ∧
    (∀ p q,
       core_point D_spatial D_temporal eps_spatial eps_temporal min_pts p →
       neighbour D_spatial D_temporal eps_spatial eps_temporal p q →
       ∃ l, labels !! q = Some l ∧ (0 ≤ l)%Z).
Proof.
  intros n Horder HDs HDt Hs Ht Hfuel.
  destruct (dbscan_st_run set_order cdist points times eps_spatial
              eps_temporal min_pts D_spatial D_temporal fuel
              Horder HDs HDt Hs Ht Hfuel)
    as (labels & k & Hrun & _ & _ & _ & _ & Hnoise & Hclosed & _).
  by exists labels.
Qed.

Lemma dbscan_st_noise_is_not_core_witness :
  ∃ labels,
    dbscan_st elements_order cdist_on_axis 43 line_points None (of_Z 1)
              (Fin (1 # 2)) 2 = Returned labels ∧
    (∀ i, labels !! i = Some (-1)%Z →
          ¬ core_point line_distances no_time_distances (of_Z 1)
                       (Fin (1 # 2)) 2 i) ∧
    (∀ p q,
       core_point line_distances no_time_distances (of_Z 1) (Fin (1 # 2))
                  2 p →
       neighbour line_distances no_time_distances (of_Z 1) (Fin (1 # 2))
                 p q →
       ∃ l, labels !! q = Some l ∧ (0 ≤ l)%Z).
Proof.
  apply (dbscan_st_noise_is_not_core elements_order cdist_on_axis
           line_points None (of_Z 1) (Fin (1 # 2)) 2 line_distances
           no_time_distances 43).
  - apply elements_lists_elements.
  - vm_compute. reflexivity.
  - vm_compute. reflexivity.
  - apply line_distances_square.
  - apply no_time_distances_square.
  - simpl. lia.
Defined.

(** X23. Every point to which dbscan_st gives the label of a cluster is a
    core point with this label, or lies in the neighbourhood of a core
    point with this label. *)
Theorem dbscan_st_clusters_around_core_points
    (set_order : nat -> gset nat -> list nat)
    (cdist : matrix float -> matrix float -> option (matrix float))
    (points : matrix float) (times : option (list float))
    (eps_spatial eps_temporal : float) (min_pts : nat)
    (D_spatial D_temporal : matrix float) (fuel : nat) :
  let n := length points in
  lists_elements set_order →
  cdist points points = Some D_spatial →
  cdist ((fun t : float => [t]) <$> default (replicate n fzero) times)
        ((fun t : float => [t]) <$> default (replicate n fzero) times)
  = Some D_temporal →
  square n D_spatial → square n D_temporal →
  n + n * n < fuel →
  ∃ labels,
    dbscan_st set_order cdist fuel points times eps_spatial eps_temporal
              min_pts = Returned labels ∧
    ∀ q l, labels !! q = Some l → (0 ≤ l)%Z →
      ∃ p, labels !! p = Some l ∧
           core_point D_spatial D_temporal eps_spatial eps_temporal
                      min_pts p ∧
           (q = p ∨
            neighbour D_spatial D_temporal eps_spatial eps_temporal p q).
Proof.
  intros n Horder HDs HDt Hs Ht Hfuel.
  destruct (dbscan_st_run set_order cdist points times eps_spatial
              eps_temporal min_pts D_spatial D_temporal fuel
              Horder HDs HDt Hs Ht Hfuel)
    as (labels & k & Hrun & _ & _ & _ & _ & _ & _ & Hreached & _).
  by exists labels.
Qed.

Lemma dbscan_st_clusters_around_core_points_witness :
  ∃ labels,
    dbscan_st elements_order cdist_on_axis 43 line_points None (of_Z 1)
              (Fin (1 # 2)) 2 = Returned labels ∧
    ∀ q l, labels !! q = Some l → (0 ≤ l)%Z →
      ∃ p, labels !! p = Some l ∧
           core_point line_distances no_time_distances (of_Z 1)
                      (Fin (1 # 2)) 2 p ∧
           (q = p ∨
            neighbour line_distances no_time_distances (of_Z 1)
                      (Fin (1 # 2)) p q).
Proof.
  apply (dbscan_st_clusters_around_core_points elements_order cdist_on_axis
           line_points None (of_Z 1) (Fin (1 # 2)) 2 line_distances
           no_time_distances 43).
  - apply elements_lists_elements.
  - vm_compute. reflexivity.
  - vm_compute. reflexivity.
  - apply line_distances_square.
  - apply no_time_distances_square.
  - simpl. lia.
Defined.

Lemma line_distances_symmetric : symmetric line_distances.
Proof.
  intros i j.
  do 7 (try destruct i as [|i]); do 7 (try destruct j as [|j]);
    reflexivity.
Qed.

Lemma no_time_distances_symmetric : symmetric no_time_distances.
Proof.
  intros i j.
  do 7 (try destruct i as [|i]); do 7 (try destruct j as [|j]);
    reflexivity.
Qed.

(** X24. On symmetric distance matrices, two core points of which one
    lies in the neighbourhood of the other get the same label from
    dbscan_st, the label of a cluster: no cluster is split. *)
Theorem dbscan_st_core_neighbours_share_cluster
    (set_order : nat -> gset nat -> list nat)
    (cdist : matrix float -> matrix float -> option (matrix float))
    (points : matrix float) (times : option (list float))
    (eps_spatial eps_temporal : float) (min_pts : nat)
    (D_spatial D_temporal : matrix float) (fuel : nat) :
  let n := length points in
  lists_elements set_order →
  cdist points points = Some D_spatial →
  cdist ((fun t : float => [t]) <$> default (replicate n fzero) times)
        ((fun t : float => [t]) <$> default (replicate n fzero) times)
  = Some D_temporal →
  square n D_spatial → square n D_temporal →
  symmetric D_spatial → symmetric D_temporal →
  n + n * n < fuel →
  ∃ labels,
    dbscan_st set_order cdist fuel points times eps_spatial eps_temporal
              min_pts = Returned labels ∧
    ∀ p q,
      core_point D_spatial D_temporal eps_spatial eps_temporal min_pts p →
      core_point D_spatial D_temporal eps_spatial eps_temporal min_pts q →
      neighbour D_spatial D_temporal eps_spatial eps_temporal p q →
      ∃ l, labels !! p = Some l ∧ labels !! q = Some l ∧ (0 ≤ l)%Z.
Proof.
  intros n Horder HDs HDt Hs Ht Hsyms Hsymt Hfuel.
  destruct (dbscan_st_run set_order cdist points times eps_spatial
              eps_temporal min_pts D_spatial D_temporal fuel
              Horder HDs HDt Hs Ht Hfuel)
    as (labels & k & Hrun & _ & _ & _ & _ & _ & _ & _ & Hcores).
  exists labels. split; [done|]. by apply Hcores.
Qed.

Lemma dbscan_st_core_neighbours_share_cluster_witness :
  ∃ labels,
    dbscan_st elements_order cdist_on_axis 43 line_points None (of_Z 1)
              (Fin (1 # 2)) 2 = Returned labels ∧
    ∀ p q,
      core_point line_distances no_time_distances (of_Z 1) (Fin (1 # 2))
                 2 p →
      core_point line_distances no_time_distances (of_Z 1) (Fin (1 # 2))
                 2 q →
      neighbour line_distances no_time_distances (of_Z 1) (Fin (1 # 2))
                p q →
      ∃ l, labels !! p = Some l ∧ labels !! q = Some l ∧ (0 ≤ l)%Z.
Proof.
  apply (dbscan_st_core_neighbours_share_cluster elements_order
           cdist_on_axis
           line_points None (of_Z 1) (Fin (1 # 2)) 2 line_distances
           no_time_distances 43).
  - apply elements_lists_elements.
  - vm_compute. reflexivity.
  - vm_compute. reflexivity.
  - apply line_distances_square.
  - apply no_time_distances_square.
  - apply line_distances_symmetric.
  - apply no_time_distances_symmetric.
  - simpl. lia.
Defined.

(** ** Clustering: grow_cluster_st on its own *)


Example grow_cluster_st_line :
  grow_cluster_st elements_order 43 line_distances no_time_distances
    [0; 0; 0; 0; 0; 0]%Z [0; 1] 1 (of_Z 1) (of_Z 1) 2
  = Returned [1; 1; 1; 0; 0; 0]%Z.
Proof. vm_compute. reflexivity. Qed.


(** X26. With the cluster label 0, the label of an unclaimed point,
    grow_cluster_st never ends once the neighbourhood holds an unclaimed
    core point that is its own neighbour: the point stays unclaimed and
    comes back into the queue each time it is taken out. *)
Theorem grow_cluster_st_label_zero_never_ends
    (set_order : nat -> gset nat -> list nat)
    (D_spatial D_temporal : matrix float) (labels : list Z)
    (set_neighbours : list nat)
    (eps_spatial eps_temporal : float) (min_pts p fuel : nat) :
  let n := length labels in
  lists_elements set_order →
  square n D_spatial → square n D_temporal →
  Forall (fun q => q < n) set_neighbours →
  p ∈ set_neighbours →
  labels !! p = Some 0%Z →
  core_point D_spatial D_temporal eps_spatial eps_temporal min_pts p →
  neighbour D_spatial D_temporal eps_spatial eps_temporal p p →
  grow_cluster_st set_order fuel D_spatial D_temporal labels set_neighbours
                  0 eps_spatial eps_temporal min_pts
  = Running.
Proof.
  intros n Horder Hs Ht Hrange Hp Hlabel (nb & Hnb & Hsize)
    (nb' & Hnb' & Hself).
  rewrite Hnb in Hnb'. injection Hnb' as <-. unfold grow_cluster_st.
  assert (∀ fuel now Q,
            length now = n → Forall (fun q => q < n) Q → p ∈ Q →
            now !! p = Some 0%Z →
            search_queue set_order fuel D_spatial D_temporal now Q 0
                         eps_spatial eps_temporal min_pts = Running) as Hloop.
  { clear fuel. induction fuel as [|fuel IH]; intros now Q Hlen HQ HpQ Hnow;
      [done|].
    destruct Q as [|q Q]; [by apply elem_of_nil in HpQ|]. simpl.
    apply Forall_cons in HQ as [Hq HQ].
    destruct (lookup_lt_is_Some_2 now q ltac:(lia)) as [l Hl]. rewrite Hl.
    assert (q ≠ p → p ∈ Q) as Hstay.
    { intros Hne. apply elem_of_cons in HpQ as [->|]; done. }
    assert (∀ l', l' ≠ 0%Z → now !! q = Some l' → q ≠ p) as Hother.
    { intros l' Hl' Hq' ->. rewrite Hnow in Hq'. by injection Hq' as <-. }
    destruct (decide (l = -1)%Z) as [->|Hl1].
    { assert (q ≠ p) as Hne by (apply (Hother (-1)%Z); [lia|done]).
      apply IH; [by rewrite length_insert|done|by apply Hstay|].
      by rewrite list_lookup_insert_ne. }
    destruct (decide (l = 0)%Z) as [->|Hl0].
    - destruct (neighbours_in_range D_spatial D_temporal eps_spatial
                  eps_temporal n Hs Ht q Hq) as (nbq & Hnbq & Hin & _).
      rewrite Hnbq.
      assert (<[q := 0%Z]> now !! p = Some 0%Z) as Hnow'.
      { destruct (decide (q = p)) as [->|Hne].
        - apply list_lookup_insert_eq. lia.
        - by rewrite list_lookup_insert_ne. }
      destruct (decide (min_pts ≤ size nbq)) as [Hcore|Hsmall].
      + apply IH; [by rewrite length_insert| | |done].
        * apply Forall_app. split; [done|]. apply Forall_forall.
          intros x Hx%(elem_of_set_order set_order Horder). by apply Hin.
        * apply elem_of_app. destruct (decide (q = p)) as [->|Hne].
          -- right. rewrite Hnb in Hnbq. injection Hnbq as <-.
             by apply (elem_of_set_order set_order Horder).
          -- left. by apply Hstay.
      + apply IH; [by rewrite length_insert|done| |done].
        apply Hstay. intros ->. rewrite Hnb in Hnbq. injection Hnbq as <-.
        lia.
    - apply IH; [done|done| |done]. apply Hstay. by apply (Hother l). }
  by apply Hloop.
Qed.

Lemma grow_cluster_st_label_zero_never_ends_witness :
  grow_cluster_st elements_order 1000 line_distances no_time_distances
    [0; 0; 0; 0; 0; 0]%Z [0; 1] 0 (of_Z 1) (of_Z 1) 2
  = Running.
Proof.
  apply (grow_cluster_st_label_zero_never_ends elements_order line_distances
           no_time_distances [0; 0; 0; 0; 0; 0]%Z [0; 1] (of_Z 1)
           (of_Z 1) 2 0 1000).
  - apply elements_lists_elements.
  - apply line_distances_square.
  - apply no_time_distances_square.
  - repeat constructor.
  - left.
  - reflexivity.
  - exists {[ 0; 1 ]}. split; [vm_compute; reflexivity|]. vm_compute. lia.
  - exists {[ 0; 1 ]}. split; [vm_compute; reflexivity|].
    apply elem_of_union. left. by apply elem_of_singleton.
Defined.
